(** * slipscheme: JSON schema to Go struct generator

    A shallow embedding of [slipscheme.go] and the properties of its
    schema loader, reference resolver, name assigner and type
    synthesizer.

    Go strings are byte sequences: they are modelled as [string] (a list
    of 8-bit [ascii]).  Go maps that the program ranges over are
    association lists whose order stands for the (unspecified) iteration
    order; the cache of processed type names is a [gmap].  [*Schema]
    pointers after loading are locations in a heap, because
    [*schema = *cast] copies a struct and thereby shares its maps and its
    [Items] pointer. *)

From Stdlib Require Import String Ascii List ZArith Lia Bool Permutation Sorted DecimalString OrdersEx.
From stdpp Require Import base list strings gmap.

Set Warnings "-register-all".

(** ** The pieces of Go's [strings] package that the program uses *)

Module GoStrings.

Definition code (c : ascii) : nat := nat_of_ascii c.

Definition isDigit (c : ascii) : bool := (48 <=? code c) && (code c <=? 57).
Definition isLower (c : ascii) : bool := (97 <=? code c) && (code c <=? 122).
Definition isUpper (c : ascii) : bool := (65 <=? code c) && (code c <=? 90).

(** [unicode.ToTitle] and [unicode.ToUpper] on an ASCII byte. *)
Definition toUpperChar (c : ascii) : ascii :=
  if isLower c then ascii_of_nat (code c - 32) else c.

(** [strings.isSeparator] for a byte below 0x80: ASCII letters, digits
    and the underscore are not separators, every other ASCII byte is.
    Bytes from 0x80 on never reach it in this program (see [camelCase]
    and [processSchema]: the argument of [Title] is ASCII); they count
    as no separator. *)
Definition isSeparator (c : ascii) : bool :=
  if code c <=? 127
  then negb (isDigit c || isLower c || isUpper c || (code c =? 95))
  else false.

(** [strings.Title]: the closure remembers the previous rune, starting
    from a space, and title-cases a rune that follows a separator. *)
Fixpoint titleFrom (prev : ascii) (s : string) : string :=
  match s with
  | EmptyString => EmptyString
  | String r rest =>
      String (if isSeparator prev then toUpperChar r else r) (titleFrom r rest)
  end.

Definition Title (s : string) : string := titleFrom " " s.

(** [strings.ToUpper] *)
Fixpoint ToUpper (s : string) : string :=
  match s with
  | EmptyString => EmptyString
  | String c rest => String (toUpperChar c) (ToUpper rest)
  end.

(** [strings.Map] with a byte-to-byte mapping. *)
Fixpoint Map (f : ascii -> ascii) (s : string) : string :=
  match s with
  | EmptyString => EmptyString
  | String c rest => String (f c) (Map f rest)
  end.

(** [strings.Replace(s, " ", "", -1)] *)
Fixpoint removeSpaces (s : string) : string :=
  match s with
  | EmptyString => EmptyString
  | String c rest =>
      if Ascii.eqb c " " then removeSpaces rest else String c (removeSpaces rest)
  end.

(** [strings.HasPrefix] *)
Fixpoint HasPrefix (s p : string) {struct p} : bool :=
  match p, s with
  | EmptyString, _ => true
  | String _ _, EmptyString => false
  | String b p', String a s' => Ascii.eqb a b && HasPrefix s' p'
  end.

(** [strings.TrimPrefix]: [s] without the leading [p], or [s] itself. *)
Definition TrimPrefix (s p : string) : string :=
  if HasPrefix s p then substring (String.length p) (String.length s - String.length p) s
  else s.

(** [strings.HasSuffix]: [len(s) >= len(suffix) && s[len(s)-len(suffix):] == suffix] *)
Definition HasSuffix (s suffix : string) : bool :=
  (String.length suffix <=? String.length s)
  && String.eqb (substring (String.length s - String.length suffix)
                           (String.length suffix) s) suffix.

(** [strings.TrimSuffix] *)
Definition TrimSuffix (s suffix : string) : string :=
  if HasSuffix s suffix then substring 0 (String.length s - String.length suffix) s
  else s.

(** [strings.Split(s, "/")]: the pieces of [s] between slashes; always
    at least one piece. *)
Fixpoint splitSlash (s : string) : list string :=
  match s with
  | EmptyString => [EmptyString]
  | String c rest =>
      if Ascii.eqb c "/" then EmptyString :: splitSlash rest
      else match splitSlash rest with
           | [] => [String c EmptyString]
           | w :: ws => String c w :: ws
           end
  end.

End GoStrings.


(** ** Name canonicalization: [camelCase] *)

(** The argument of [strings.Map] in [camelCase]: ASCII letters and
    digits are kept, every other rune becomes a space.  A rune of several
    bytes gives several spaces here and one in Go; [Title] treats a run of
    spaces like one and [removeSpaces] drops them all, so the result is
    the same. *)
Definition isAlnum (r : ascii) : bool := GoStrings.isDigit r || GoStrings.isLower r || GoStrings.isUpper r.

Definition alnumOrSpace (r : ascii) : ascii := if isAlnum r then r else " "%char.

Definition acronymSuffixes : list string := ["Id"; "Url"; "Json"; "Xml"].
Definition acronymPrefixes : list string := ["Url"; "Json"; "Xml"].

(** The value of [caseName] before the two loops. *)
Definition caseNameOf (name : string) : string :=
  GoStrings.removeSpaces (GoStrings.Title (GoStrings.Map alnumOrSpace name)).

(** The two loops: each returns at its first match. *)
Definition normalizeAcronym (caseName : string) : string :=
  match find (GoStrings.HasSuffix caseName) acronymSuffixes with
  | Some suffix => GoStrings.TrimSuffix caseName suffix +:+ GoStrings.ToUpper suffix
  | None =>
      match find (GoStrings.HasPrefix caseName) acronymPrefixes with
      | Some prefix => GoStrings.ToUpper prefix +:+ GoStrings.TrimPrefix caseName prefix
      | None => caseName
      end
  end.

Definition camelCase (name : string) : string :=
  normalizeAcronym (caseNameOf name).


(** ** Schema model *)

(** [SchemaType]: the enumeration set by [UnmarshalJSON]; [ANY] is the
    zero value of a schema without a [type]. *)
Inductive SchemaType : Set :=
| ANY | ARRAY | BOOLEAN | INTEGER | NUMBER | NULL | OBJECT | STRING.

(** The [Schema] struct.  [P] is what a non-nil [*Schema] is: a subtree
    in a freshly decoded document, a heap location once the document is
    stored in the processor.  A map field is [None] for a nil map; the
    order of its entries stands for the iteration order of the Go map and
    its keys are distinct.  [Items] is [None] for a nil pointer.  (A JSON
    [null] in the place of a member schema is not part of the model.) *)
Record SchemaOf (P : Type) : Type := mkSchema {
  Title : string;
  ID : string;
  Type_ : SchemaType;
  Description : string;
  Definitions : option (list (string * P));
  Properties : option (list (string * P));
  PatternProperties : option (list (string * P));
  Ref : string;
  Items : option P
}.

Arguments mkSchema {P}.
Arguments Title {P}.
Arguments ID {P}.
Arguments Type_ {P}.
Arguments Description {P}.
Arguments Definitions {P}.
Arguments Properties {P}.
Arguments PatternProperties {P}.
Arguments Ref {P}.
Arguments Items {P}.

(** [Name]: the title, or the id when there is no title. *)
Definition Name {P} (schema : SchemaOf P) : string :=
  let name := Title schema in
  if String.eqb name "" then ID schema else name.

Definition withTitle {P} (schema : SchemaOf P) (title : string) : SchemaOf P :=
  mkSchema title (ID schema) (Type_ schema) (Description schema)
           (Definitions schema) (Properties schema) (PatternProperties schema)
           (Ref schema) (Items schema).

(** The value of [json.Unmarshal]: a tree, no node of which is shared. *)
Inductive Tree : Type :=
| Node (schema : SchemaOf Tree).

Definition nodeOf (t : Tree) : SchemaOf Tree :=
  match t with Node schema => schema end.

(** Go's [m[k]] on an association list: the value, or [None] (the nil
    pointer) when the key is absent or the map is nil. *)
Fixpoint lookupKey {V} (k : string) (m : list (string * V)) : option V :=
  match m with
  | [] => None
  | (k', v) :: rest => if String.eqb k' k then Some v else lookupKey k rest
  end.

Definition mapIndex {V} (m : option (list (string * V))) (k : string) : option V :=
  match m with
  | None => None
  | Some entries => lookupKey k entries
  end.

(** ** Schema loader *)

Section TreePasses.
Context {A B : Type} (f : string -> A -> B).

(** One pass over the entries of a map field ([for k, v := range m]). *)
Definition mapEntries (m : option (list (string * A))) : option (list (string * B)) :=
  match m with
  | None => None
  | Some entries => Some (List.map (fun kv => (fst kv, f (fst kv) (snd kv))) entries)
  end.

End TreePasses.

(** [updateDefinitionTitles]: a definition without a name takes its key as
    title; only [Definitions] is descended into.  The source sets
    [v.Title] and then recurses into [v]; the recursion leaves the title
    and id of [v] itself alone, so the title is set here on the way back. *)
Fixpoint updateDefinitionTitles (t : Tree) : Tree :=
  match t with
  | Node schema =>
      Node (mkSchema (Title schema) (ID schema) (Type_ schema) (Description schema)
              (mapEntries
                 (fun k v =>
                    let v' := updateDefinitionTitles v in
                    if String.eqb (Name (nodeOf v)) "" then Node (withTitle (nodeOf v') k) else v')
                 (Definitions schema))
              (Properties schema) (PatternProperties schema) (Ref schema) (Items schema))
  end.

(** The test and assignment at the end of [updateReferencePath]: the
    reference is prefixed with the document key when the first piece of
    [strings.Split(schema.Ref, "/")] is exactly ["#"]. *)
Definition qualifyRef (reference ref : string) : string :=
  if String.eqb ref "" then ref
  else match GoStrings.splitSlash ref with
       | first :: _ => if String.eqb first "#" then reference +:+ ref else ref
       | [] => ref
       end.

(** [updateReferencePath]: all four kinds of children first, then the
    node's own reference. *)
Fixpoint updateReferencePath (t : Tree) (reference : string) : Tree :=
  match t with
  | Node schema =>
      Node (mkSchema (Title schema) (ID schema) (Type_ schema) (Description schema)
              (mapEntries (fun _ v => updateReferencePath v reference) (Definitions schema))
              (mapEntries (fun _ v => updateReferencePath v reference) (Properties schema))
              (mapEntries (fun _ v => updateReferencePath v reference) (PatternProperties schema))
              (qualifyRef reference (Ref schema))
              (option_map (fun v => updateReferencePath v reference) (Items schema)))
  end.

(** [LoadSchema]: [data] is the document as decoded by [json.Unmarshal]
    (a decoding error ends the run before this point). *)
Definition LoadSchema (data : Tree) (reference : string) : Tree :=
  updateReferencePath (updateDefinitionTitles data) reference.

(** [getReferenceName]: the second result of [path.Split], what follows
    the last slash of the file name. *)
Fixpoint afterLastSlash (acc file : string) : string :=
  match file with
  | EmptyString => acc
  | String c rest =>
      if Ascii.eqb c "/" then afterLastSlash rest rest else afterLastSlash acc rest
  end.

Definition getReferenceName (file : string) : string := afterLastSlash file file.

(** ** Outcomes and the state monad of the processor *)

(** How a call ends: it returns a value, returns a Go [error], panics (a
    nil dereference or a failed type assertion), or needs more nested
    calls than [fuel] allows.  A call that is [OutOfFuel] for every fuel
    is a Go recursion that never returns. *)
Inductive outcome (A : Type) : Type :=
| Ok (a : A)
| Err (msg : string)
| Panic
| OutOfFuel.

Arguments Ok {A} a.
Arguments Err {A} msg.
Arguments Panic {A}.
Arguments OutOfFuel {A}.

(** A computation over a mutable state [S]; the state survives a failure,
    as the Go objects do. *)
Definition M (S A : Type) : Type := S -> outcome A * S.

Definition ret {S A} (a : A) : M S A := fun s => (Ok a, s).

Definition stop {S A} (o : outcome False) : M S A :=
  fun s =>
    (match o with
     | Ok a => match a with end
     | Err msg => Err msg
     | Panic => Panic
     | OutOfFuel => OutOfFuel
     end, s).

Definition bind {S A B} (m : M S A) (k : A -> M S B) : M S B :=
  fun s =>
    match m s with
    | (Ok a, s') => k a s'
    | (Err msg, s') => (Err msg, s')
    | (Panic, s') => (Panic, s')
    | (OutOfFuel, s') => (OutOfFuel, s')
    end.

Notation "'let*' x ':=' m 'in' k" := (bind m (fun x => k))
  (at level 10, x binder, m at level 100, k at level 200).

(** [for _, x := range xs { body(x) }], leaving at the first failure. *)
Fixpoint forEach {S A} (body : A -> M S unit) (xs : list A) : M S unit :=
  match xs with
  | [] => ret tt
  | x :: rest => let* _ := body x in forEach body rest
  end.

(** [if m != nil { for k, v := range m { body(k, v) } }] *)
Definition forEntries {S V} (m : option (list (string * V)))
    (body : string -> V -> M S unit) : M S unit :=
  match m with
  | None => ret tt
  | Some entries => forEach (fun kv => body (fst kv) (snd kv)) entries
  end.

(** ** The heap of schema nodes *)

(** A non-nil [*Schema] is an index into the heap; the heap holds the
    [Schema] structs. *)
Abbreviation loc := nat (only parsing).
Abbreviation Schema := (SchemaOf nat) (only parsing).
Abbreviation heap := (list Schema) (only parsing).

(** Reading through a [*Schema]: the nil pointer panics. *)
Definition deref (h : heap) (p : option loc) : outcome Schema :=
  match p with
  | None => Panic
  | Some l => match h !! l with
              | Some node => Ok node
              | None => Panic
              end
  end.

Definition load (p : option loc) : M heap Schema :=
  fun h => (deref h p, h).

(** [*p = node] *)
Definition store (p : option loc) (node : Schema) : M heap unit :=
  fun h =>
    match p with
    | Some l => if decide (l < length h) then (Ok tt, <[l := node]> h) else (Panic, h)
    | None => (Panic, h)
    end.

(** Storing a decoded document: every node gets a location of its own. *)
Section Alloc.
Variable allocOne : Tree -> heap -> loc * heap.

Fixpoint allocList (entries : list (string * Tree)) (h : heap)
  : list (string * loc) * heap :=
  match entries with
  | [] => ([], h)
  | (k, v) :: rest =>
      let (l, h1) := allocOne v h in
      let (ls, h2) := allocList rest h1 in
      ((k, l) :: ls, h2)
  end.

Definition allocMap (m : option (list (string * Tree))) (h : heap)
  : option (list (string * loc)) * heap :=
  match m with
  | None => (None, h)
  | Some entries => let (ls, h1) := allocList entries h in (Some ls, h1)
  end.

End Alloc.

Fixpoint alloc (t : Tree) (h : heap) : loc * heap :=
  match t with
  | Node schema =>
      let (defs, h1) := allocMap alloc (Definitions schema) h in
      let (props, h2) := allocMap alloc (Properties schema) h1 in
      let (pats, h3) := allocMap alloc (PatternProperties schema) h2 in
      let (items, h4) :=
        match Items schema with
        | None => (None, h3)
        | Some v => let (l, h') := alloc v h3 in (Some l, h')
        end in
      (length h4,
       h4 ++ [mkSchema (Title schema) (ID schema) (Type_ schema) (Description schema)
                       defs props pats (Ref schema) items])
  end.

(** [s.schemas[reference] = schema] *)
Fixpoint mapAssign {V} (k : string) (v : V) (m : list (string * V)) : list (string * V) :=
  match m with
  | [] => [(k, v)]
  | (k', v') :: rest =>
      if String.eqb k' k then (k, v) :: rest else (k', v') :: mapAssign k v rest
  end.

(** [Load]: every file (its name and its decoded content) is loaded and
    stored under its reference name.  Opening and reading the files is
    not modelled. *)
Fixpoint LoadFrom (files : list (string * Tree)) (schemas : list (string * loc)) (h : heap)
  : list (string * loc) * heap :=
  match files with
  | [] => (schemas, h)
  | (file, data) :: rest =>
      let reference := getReferenceName file in
      let (schema, h1) := alloc (LoadSchema data reference) h in
      LoadFrom rest (mapAssign reference schema schemas) h1
  end.

Definition Load (files : list (string * Tree)) : list (string * loc) * heap :=
  LoadFrom files [] [].

(** ** The processor *)

(** [SchemaProcessor]: the fields the core reads.  [OutputDir],
    [PackageName], [Overwrite], [Stdout] and [Fmt] only steer how a
    declaration is persisted and belong to the output stage ([sink]
    below); [processed] is mutable and lives in [SynthState]. *)
Record SchemaProcessor : Type := mkProcessor {
  Comment : bool;
  schemas : list (string * loc)
}.

(** ** Reference resolver *)

(** The dynamic value of [ctx interface{}]: a [*Schema] (possibly nil) or
    a [map[string]*Schema] (possibly nil). *)
Inductive Ctx : Type :=
| CtxSchema (p : option loc)
| CtxMap (m : option (list (string * loc))).

(** The type assertion of [ctx] to a [*Schema] followed by a field
    access: it panics on a map and on the nil pointer. *)
Definition asSchema (ctx : Ctx) : M heap Schema :=
  match ctx with
  | CtxSchema p => load p
  | CtxMap _ => stop Panic
  end.

(** [part[:len(part)-1]] *)
Definition dropLast (part : string) : string :=
  substring 0 (String.length part - 1) part.

(** One round of the loop over [schemaPath]. *)
Definition walkStep (s : SchemaProcessor) (reference : string) (ctx : Ctx) (part : string)
  : M heap Ctx :=
  if String.eqb part "#" then
    stop (Err ("Invalid reference point - please make sure references have file names specified - "
               +:+ reference))
  else if GoStrings.HasSuffix part "#" then
    let referenceName := dropLast part in
    match lookupKey referenceName (schemas s) with
    | None =>
        stop (Err ("Invalid reference file - please make sure the referenced files are in the processing list - "
                   +:+ reference +:+ " ? " +:+ referenceName))
    | Some referenceSchema => ret (CtxSchema (Some referenceSchema))
    end
  else if String.eqb part "definitions" then
    let* node := asSchema ctx in ret (CtxMap (Definitions node))
  else if String.eqb part "properties" then
    let* node := asSchema ctx in ret (CtxMap (Properties node))
  else if String.eqb part "patternProperties" then
    let* node := asSchema ctx in ret (CtxMap (PatternProperties node))
  else if String.eqb part "items" then
    let* node := asSchema ctx in ret (CtxSchema (Items node))
  else
    match ctx with
    | CtxMap m => ret (CtxSchema (mapIndex m part))
    | CtxSchema _ => ret ctx
    end.

Fixpoint walkPath (s : SchemaProcessor) (reference : string) (ctx : Ctx)
    (schemaPath : list string) : M heap Ctx :=
  match schemaPath with
  | [] => ret ctx
  | part :: rest =>
      let* ctx' := walkStep s reference ctx part in
      walkPath s reference ctx' rest
  end.

(** The guarded copy after the walk: the two-result type assertion to
    [*Schema] holds for every [*Schema], the nil one included, and the
    struct copy [*schema = *cast] then panics on it. *)
Definition copyFrom (ctx : Ctx) (schema : option loc) : M heap unit :=
  match ctx with
  | CtxSchema cast => let* node := load cast in store schema node
  | CtxMap _ => ret tt
  end.

Fixpoint resolveRefs (s : SchemaProcessor) (fuel : nat) (reference : string)
    (schema : option loc) : M heap unit :=
  match fuel with
  | O => stop OutOfFuel
  | S fuel' =>
      let* node := load schema in
      let* _ :=
        (if String.eqb (Ref node) "" then ret tt
         else
           let* ctx := walkPath s reference (CtxSchema schema) (GoStrings.splitSlash (Ref node)) in
           let* _ := copyFrom ctx schema in
           resolveRefs s fuel' reference schema) in
      let* node := load schema in
      let* _ := forEntries (Definitions node)
                  (fun _ v => resolveRefs s fuel' reference (Some v)) in
      let* node := load schema in
      let* _ := forEntries (Properties node)
                  (fun _ v => resolveRefs s fuel' reference (Some v)) in
      let* node := load schema in
      let* _ := forEntries (PatternProperties node)
                  (fun _ v => resolveRefs s fuel' reference (Some v)) in
      let* node := load schema in
      match Items node with
      | None => ret tt
      | Some items => resolveRefs s fuel' reference (Some items)
      end
  end.

(** ** Name assigner *)

(** Go's [int] on a 64-bit platform: [anonymousObjectCount++] wraps. *)
Definition wrapInt (z : Z) : Z := ((z + 2 ^ 63) mod 2 ^ 64 - 2 ^ 63)%Z.

(** [fmt.Sprintf("%v", n)] for an [int] *)
Definition formatInt (z : Z) : string := NilZero.string_of_int (Z.to_int z).

(** The state of the name assigner: the heap and the package variable
    [anonymousObjectCount]. *)
Definition NameState : Type := heap * Z.

Definition loadN (p : option loc) : M NameState Schema :=
  fun st => (deref (fst st) p, st).

(** [p.Title = title] *)
Definition assignTitle (p : option loc) (title : string) : M NameState unit :=
  fun st =>
    match deref (fst st) p, p with
    | Ok node, Some l => (Ok tt, (<[l := withTitle node title]> (fst st), snd st))
    | _, _ => (Panic, st)
    end.

(** [anonymousObjectCount++], giving the new value *)
Definition nextAnonymous : M NameState Z :=
  fun st => let c := wrapInt (snd st + 1) in (Ok c, (fst st, c)).

(** [if v.Name() == "" { v.Title = k }] *)
Definition titleFromKey (k : string) (v : loc) : M NameState unit :=
  let* child := loadN (Some v) in
  if String.eqb (Name child) "" then assignTitle (Some v) k else ret tt.

(** The naming of the item of an array:
    [if schema.Items.Name() == "" { if schema.Name() == "" { ... };
    schema.Items.Title = schema.Name() + "Item" }] *)
Definition titleFromArray (schema : option loc) (items : loc) : M NameState unit :=
  let* item := loadN (Some items) in
  if String.eqb (Name item) "" then
    let* node := loadN schema in
    let* _ :=
      (if String.eqb (Name node) "" then
         let* count := nextAnonymous in
         assignTitle schema ("AnonymousObject" +:+ formatInt count)
       else ret tt) in
    let* node := loadN schema in
    assignTitle (Some items) (Name node +:+ "Item")
  else ret tt.

Fixpoint setTitle (s : SchemaProcessor) (fuel : nat) (reference : string)
    (schema : option loc) : M NameState unit :=
  match fuel with
  | O => stop OutOfFuel
  | S fuel' =>
      let* node := loadN schema in
      let* _ := forEntries (Definitions node)
                  (fun k v => let* _ := titleFromKey k v in
                              setTitle s fuel' reference (Some v)) in
      let* node := loadN schema in
      let* _ := forEntries (Properties node)
                  (fun k v => let* _ := titleFromKey k v in
                              setTitle s fuel' reference (Some v)) in
      let* node := loadN schema in
      let* _ := forEntries (PatternProperties node)
                  (fun k v => let* _ := titleFromKey k v in
                              setTitle s fuel' reference (Some v)) in
      let* node := loadN schema in
      match Items node with
      | None => ret tt
      | Some items =>
          let* _ := titleFromArray schema items in
          setTitle s fuel' reference (Some items)
      end
  end.

(** Running a heap computation inside the name assigner's state. *)
Definition onHeap {A} (m : M heap A) : M NameState A :=
  fun st => let (r, h) := m (fst st) in (r, (h, snd st)).

(** [ParseSchema]: resolve, then assign names. *)
Definition ParseSchema (s : SchemaProcessor) (fuel : nat) (reference : string)
    (schema : option loc) : M NameState (option loc) :=
  let* _ := onHeap (resolveRefs s fuel reference schema) in
  let* _ := setTitle s fuel reference schema in
  ret schema.

(** ** Type synthesizer *)

(** [sort.Strings]: ascending byte-wise order.  A sorted list is
    determined by its elements, so insertion sort gives what the library
    sort gives. *)
Fixpoint insertString (k : string) (sorted : list string) : list string :=
  match sorted with
  | [] => [k]
  | k' :: rest => if String.leb k k' then k :: sorted else k' :: insertString k rest
  end.

Fixpoint sortStrings (keys : list string) : list string :=
  match keys with
  | [] => []
  | k :: rest => insertString k (sortStrings rest)
  end.

(** [for k := range m { keys = append(keys, k) }; sort.Strings(keys)] *)
Definition sortedKeys {V} (m : list (string * V)) : list string :=
  sortStrings (List.map fst m).

Definition quote : string := String "034" EmptyString.
Definition backquote : string := String "096" EmptyString.
Definition newline : string := String "010" EmptyString.

(** The state of the synthesizer: the cache [s.processed] (nil until the
    first write) and the declarations handed to the output stage so far,
    oldest first. *)
Record SynthState : Type := mkSynth {
  processed : option (gmap string bool);
  emitted : list (string * string)
}.

Definition initialSynth : SynthState := mkSynth None [].

(** [seen, ok := s.processed[typeName]; ok && seen] *)
Definition alreadyProcessed (st : SynthState) (typeName : string) : bool :=
  match processed st with
  | None => false
  | Some cache => match cache !! typeName with
                  | Some seen => seen
                  | None => false
                  end
  end.

(** The struct field lines, the map and the slice declarations. *)
Definition fieldLine (k subTypeName : string) : string :=
  "    " +:+ camelCase k +:+ " " +:+ subTypeName +:+ " " +:+ backquote
  +:+ "json:" +:+ quote +:+ k +:+ ",omitempty" +:+ quote
  +:+ " yaml:" +:+ quote +:+ k +:+ ",omitempty" +:+ quote +:+ backquote +:+ newline.

Definition structHeader (comment typeName : string) : string :=
  comment +:+ "type " +:+ typeName +:+ " struct {" +:+ newline.

Definition structFooter : string := "}" +:+ newline +:+ newline.

Definition mapDecl (comment typeName subTypeName : string) : string :=
  comment +:+ "type " +:+ typeName +:+ " map[string]" +:+ subTypeName +:+ newline +:+ newline.

Definition sliceDecl (comment typeName subTypeName : string) : string :=
  comment +:+ "type " +:+ typeName +:+ " []" +:+ subTypeName +:+ newline +:+ newline.

(** [strings.Title(subTypeName) == subTypeName] *)
Definition isTitled (subTypeName : string) : bool :=
  String.eqb (GoStrings.Title subTypeName) subTypeName.

Section Synthesizer.

(** The two collaborators outside the core: [json.MarshalIndent(schema,
    "// ", "  ")] as a string, and the output stage of [writeGoCode]
    (everything after the cache is updated: gofmt, standard output or the
    file), which gets the declarations handed over before, the type name
    and the code, and gives the error it returns, if any. *)
Variable marshalIndent : heap -> option loc -> string.
Variable sink : list (string * string) -> string -> string -> option string.

Definition structComment (s : SchemaProcessor) (h : heap) (schema : option loc)
    (typeName : string) : string :=
  if negb (Comment s) then ""
  else "// " +:+ typeName +:+ " defined from schema:" +:+ newline
       +:+ "// " +:+ marshalIndent h schema +:+ newline.

(** [writeGoCode]: the returned error and the new state. *)
Definition writeGoCode (typeName code : string) (st : SynthState)
  : option string * SynthState :=
  if alreadyProcessed st typeName then (None, st)
  else
    let cache := match processed st with
                 | None => {[ typeName := true ]}
                 | Some cache => <[ typeName := true ]> cache
                 end in
    (sink (emitted st) typeName code,
     mkSynth (Some cache) (emitted st ++ [(typeName, code)])).

(** [if err := s.writeGoCode(typeName, typeData); err != nil { return "", err }] *)
Definition emit (typeName code : string) : M SynthState unit :=
  fun st =>
    match writeGoCode typeName code st with
    | (None, st') => (Ok tt, st')
    | (Some err, st') => (Err err, st')
    end.

(** The loop over the sorted property keys: [typeData] grows by one
    field line for each key. *)
Fixpoint structFields (rec : option loc -> M SynthState string)
    (props : list (string * loc)) (keys : list string) (typeData : string)
  : M SynthState string :=
  match keys with
  | [] => ret typeData
  | k :: rest =>
      let v := lookupKey k props in
      let* subTypeName := rec v in
      structFields rec props rest (typeData +:+ fieldLine k subTypeName)
  end.

(** The loop over the sorted pattern keys: [typeName] is overwritten in
    every round. *)
Fixpoint patternTypes (rec : option loc -> M SynthState string)
    (comment : string -> string) (pats : list (string * loc)) (keys : list string)
    (typeName : string) : M SynthState string :=
  match keys with
  | [] => ret typeName
  | k :: rest =>
      let v := lookupKey k pats in
      let* subTypeName := rec v in
      let* typeName' :=
        (if isTitled subTypeName then
           let typeName := GoStrings.TrimPrefix (subTypeName +:+ "Map") "*" in
           let* _ := emit typeName (mapDecl (comment typeName) typeName subTypeName) in
           ret typeName
         else ret ("map[string]" +:+ subTypeName)) in
      patternTypes rec comment pats rest typeName'
  end.

(** The body of [processSchema] for a non-nil [schema]; [rec] is the
    recursive call and [comment] is [s.structComment(schema, _)]. *)
Definition processNode (rec : option loc -> M SynthState string)
    (comment : string -> string) (schema : Schema) : M SynthState string :=
  match Type_ schema with
  | OBJECT =>
      let typeName := camelCase (Name schema) in
      match Properties schema with
      | Some props =>
          let* typeData :=
            structFields rec props (sortedKeys props) (structHeader (comment typeName) typeName) in
          let typeData := typeData +:+ structFooter in
          let* _ := emit typeName typeData in
          ret ("*" +:+ typeName)
      | None =>
          match PatternProperties schema with
          | Some pats => patternTypes rec comment pats (sortedKeys pats) typeName
          | None => ret "map[string]interface{}"
          end
      end
  | ARRAY =>
      let* subTypeName := rec (Items schema) in
      let typeName := camelCase (Name schema) in
      let typeName :=
        if String.eqb typeName "" then
          if isTitled subTypeName then
            if GoStrings.HasSuffix subTypeName "s" then subTypeName +:+ "es"
            else subTypeName +:+ "s"
          else typeName
        else typeName in
      if negb (String.eqb typeName "") then
        let typeName := GoStrings.TrimPrefix typeName "*" in
        let* _ := emit typeName (sliceDecl (comment typeName) typeName subTypeName) in
        ret typeName
      else ret ("[]" +:+ subTypeName)
  | BOOLEAN => ret "bool"
  | INTEGER => ret "int"
  | NUMBER => ret "float64"
  | NULL | ANY => ret "interface{}"
  | STRING => ret "string"
  end.

(** [processSchema]: the heap is only read. *)
Fixpoint processSchema (s : SchemaProcessor) (fuel : nat) (h : heap)
    (schema : option loc) : M SynthState string :=
  match fuel with
  | O => stop OutOfFuel
  | S fuel' =>
      match deref h schema with
      | Ok node => processNode (processSchema s fuel' h) (structComment s h schema) node
      | _ => stop Panic
      end
  end.

(** ** The run: [Process] and [main] after the flags are read *)

(** The whole mutable state of a run. *)
Definition RunState : Type := NameState * SynthState.

Definition onNames {A} (m : M NameState A) : M RunState A :=
  fun st => let (r, ns) := m (fst st) in (r, (ns, snd st)).

Definition onSynth {A} (m : heap -> M SynthState A) : M RunState A :=
  fun st => let (r, ss) := m (fst (fst st)) (snd st) in (r, (fst st, ss)).

(** [targetSchemas = append(targetSchemas, targetSchema)] for every
    loaded schema, in the iteration order of [s.schemas]. *)
Fixpoint parseAll (s : SchemaProcessor) (fuel : nat) (todo : list (string * loc))
  : M RunState (list (option loc)) :=
  match todo with
  | [] => ret []
  | (key, schema) :: rest =>
      let* targetSchema := onNames (ParseSchema s fuel key (Some schema)) in
      let* targetSchemas := parseAll s fuel rest in
      ret (targetSchema :: targetSchemas)
  end.

Definition Process (s : SchemaProcessor) (fuel : nat) : M RunState unit :=
  let* targetSchemas := parseAll s fuel (schemas s) in
  forEach (fun targetSchema =>
             let* _ := onSynth (fun h => processSchema s fuel h targetSchema) in ret tt)
          targetSchemas.

(** [main] from [Load] on: the outcome and the final state. *)
Definition run (comment : bool) (fuel : nat) (files : list (string * Tree))
  : outcome unit * RunState :=
  let (loaded, h) := Load files in
  Process (mkProcessor comment loaded) fuel ((h, 0%Z), initialSynth).

End Synthesizer.

(** ** Definitions used to state the properties *)

(** Canonical words, after the description of the name canonicalization:
    a character that is no ASCII letter or digit is a word boundary; it
    is dropped and the character after it is upper-cased.  The start of
    the name is a boundary too. *)
Fixpoint capitalizeWords (atBoundary : bool) (name : string) : string :=
  match name with
  | EmptyString => EmptyString
  | String c rest =>
      if isAlnum c
      then String (if atBoundary then GoStrings.toUpperChar c else c) (capitalizeWords false rest)
      else capitalizeWords true rest
  end.

(** Whether the first piece of a reference, up to its first slash, is
    exactly ["#"]: a reference into the same document. *)
Definition startsAtHash (ref : string) : bool :=
  String.eqb ref "#" || GoStrings.HasPrefix ref "#/".

Fixpoint containsHash (ref : string) : bool :=
  match ref with
  | EmptyString => false
  | String c rest => Ascii.eqb c "#" || containsHash rest
  end.

(** Addresses of the nodes of a decoded document. *)
Inductive Step : Set :=
| InDefinitions (k : string)
| InProperties (k : string)
| InPatternProperties (k : string)
| InItems.

Definition child (step : Step) (schema : SchemaOf Tree) : option Tree :=
  match step with
  | InDefinitions k => mapIndex (Definitions schema) k
  | InProperties k => mapIndex (Properties schema) k
  | InPatternProperties k => mapIndex (PatternProperties schema) k
  | InItems => Items schema
  end.

Fixpoint nodeAt (path : list Step) (t : Tree) : option Tree :=
  match path with
  | [] => Some t
  | step :: rest =>
      match child step (nodeOf t) with
      | Some c => nodeAt rest c
      | None => None
      end
  end.

Definition refAt (path : list Step) (t : Tree) : option string :=
  option_map (fun n => Ref (nodeOf n)) (nodeAt path t).

(** A relation that every step of a computation respects: when it is a
    preorder, whole computations respect it. *)
Definition respects {S A} (R : S -> S -> Prop) (m : M S A) : Prop :=
  forall s r s', m s = (r, s') -> R s s'.

(** What holds of the synthesizer state at any time: no type name was
    handed to the output stage twice, and every name handed over is
    marked in the cache. *)
Definition synthInv (st : SynthState) : Prop :=
  NoDup (List.map fst (emitted st))
  /\ forall name, In name (List.map fst (emitted st)) -> alreadyProcessed st name = true.

Definition keepsInv (st st' : SynthState) : Prop := synthInv st -> synthInv st'.

(** A path segment that the walk treats as a key: not "#", not a document
    name (a trailing "#"), and none of the four field names. *)
Definition isKeySegment (part : string) : bool :=
  negb (String.eqb part "#")
  && negb (GoStrings.HasSuffix part "#")
  && negb (String.eqb part "definitions")
  && negb (String.eqb part "properties")
  && negb (String.eqb part "patternProperties")
  && negb (String.eqb part "items").

(** Example documents: a schema of one type and nothing else, a bare
    reference, the Widget object, a document that defines Widget, and an
    object with one property [w] that refers to [ref]. *)
Definition leafDoc (ty : SchemaType) : Tree :=
  Node (mkSchema "" "" ty "" None None None "" None).

Definition refDoc (ref : string) : Tree :=
  Node (mkSchema "" "" ANY "" None None None ref None).

Definition widgetDoc : Tree :=
  Node (mkSchema "" "" OBJECT "" None
          (Some [("id", leafDoc STRING); ("count", leafDoc INTEGER)]) None "" None).

Definition definesWidget : Tree :=
  Node (mkSchema "" "" ANY "" (Some [("Widget", widgetDoc)]) None None "" None).

Definition usesWidget (title ref : string) : Tree :=
  Node (mkSchema title "" OBJECT "" None (Some [("w", refDoc ref)]) None "" None).

(** The output stage that always succeeds, and no schema text in the
    comments. *)
Definition sinkOk : list (string * string) -> string -> string -> option string :=
  fun _ _ _ => None.

Definition noMarshal : heap -> option loc -> string := fun _ _ => EmptyString.

(** The schema [{"type":"string"}] as a heap node, and an array document
    without a title whose items are that schema. *)
Definition stringSchema : Schema := mkSchema "" "" STRING "" None None None "" None.

Definition stringArrayDoc : Tree :=
  Node (mkSchema "" "" ARRAY "" None None None "" (Some (leafDoc STRING))).

(** The two declarations of the Widget scenario, without comments. *)
Definition widgetDecl : string :=
  "type Widget struct {" +:+ newline
  +:+ "    Count int " +:+ backquote +:+ "json:" +:+ quote +:+ "count,omitempty" +:+ quote
  +:+ " yaml:" +:+ quote +:+ "count,omitempty" +:+ quote +:+ backquote +:+ newline
  +:+ "    ID string " +:+ backquote +:+ "json:" +:+ quote +:+ "id,omitempty" +:+ quote
  +:+ " yaml:" +:+ quote +:+ "id,omitempty" +:+ quote +:+ backquote +:+ newline
  +:+ "}" +:+ newline +:+ newline.

Definition holderDecl (typeName : string) : string :=
  "type " +:+ typeName +:+ " struct {" +:+ newline
  +:+ "    W *Widget " +:+ backquote +:+ "json:" +:+ quote +:+ "w,omitempty" +:+ quote
  +:+ " yaml:" +:+ quote +:+ "w,omitempty" +:+ quote +:+ backquote +:+ newline
  +:+ "}" +:+ newline +:+ newline.

(** Ascending order of strings, as [sort.Strings] leaves them. *)
Definition ascending (keys : list string) : Prop :=
  StronglySorted (fun a b => String.leb a b = true) keys.

(** A schema with another order of its property map. *)
Definition withProperties {P} (schema : SchemaOf P) (props : list (string * P)) : SchemaOf P :=
  mkSchema (Title schema) (ID schema) (Type_ schema) (Description schema)
           (Definitions schema) (Some props) (PatternProperties schema)
           (Ref schema) (Items schema).

(** The field lines of a struct, one for each key and the type reference
    found for it. *)
Fixpoint fieldLines (keys subTypeNames : list string) : string :=
  match keys, subTypeNames with
  | k :: keys', t :: subTypeNames' => fieldLine k t +:+ fieldLines keys' subTypeNames'
  | _, _ => EmptyString
  end.

(** The name of the map type made for a titled value type, and the type
    reference one round of the pattern loop leaves in [typeName]. *)
Definition mapName (subTypeName : string) : string :=
  GoStrings.TrimPrefix (subTypeName +:+ "Map") "*".

Definition patternRef (subTypeName : string) : string :=
  if isTitled subTypeName then mapName subTypeName else "map[string]" +:+ subTypeName.

(** The rounds of the pattern loop as a relation: for every key in turn,
    the value schema is synthesized in the state the round before left,
    giving [sub], and when [sub] is a titled type name the map declaration
    is requested right after. *)
Fixpoint patternRounds (sink : list (string * string) -> string -> string -> option string)
    (rec : option loc -> M SynthState string) (comment : string -> string)
    (pats : list (string * loc)) (keys subs : list string) (st st' : SynthState) : Prop :=
  match keys, subs with
  | [], [] => st' = st
  | k :: keys', sub :: subs' =>
      exists st1 st2,
        rec (lookupKey k pats) st = (Ok sub, st1)
        /\ (if isTitled sub
            then writeGoCode sink (mapName sub)
                   (mapDecl (comment (mapName sub)) (mapName sub) sub) st1 = (None, st2)
            else st2 = st1)
        /\ patternRounds sink rec comment pats keys' subs' st2 st'
  | _, _ => False
  end.

(** The cache only grows. *)
Definition cacheGrows (st st' : SynthState) : Prop :=
  forall name, alreadyProcessed st name = true -> alreadyProcessed st' name = true.

(** Example heaps: the Widget object with its two properties, and an
    object with two patterns, one for integers and one for the object
    Tag. *)
Definition widgetHeap : heap :=
  [mkSchema "id" "" STRING "" None None None "" None;
   mkSchema "count" "" INTEGER "" None None None "" None;
   mkSchema "Widget" "" OBJECT "" None (Some [("id", 0); ("count", 1)]) None "" None].

Definition patternHeap : heap :=
  [mkSchema "^a" "" INTEGER "" None None None "" None;
   mkSchema "Tag" "" OBJECT "" None (Some []) None "" None;
   mkSchema "Tags" "" OBJECT "" None None (Some [("^b", 1); ("^a", 0)]) "" None].

(** What the name assigner may do to a node: change its title, and never
    take a name away. *)
Definition shapeKept (node node' : Schema) : Prop :=
  node' = withTitle node (Title node') /\ (Name node <> "" -> Name node' <> "").

Definition titlesGrow (st st' : NameState) : Prop :=
  forall l node, fst st !! l = Some node ->
                 exists node', fst st' !! l = Some node' /\ shapeKept node node'.

(** A member under key [k] needs no title from its key; an item needs no
    title from its array. *)
Definition childNamed (h : heap) (k : string) (v : loc) : Prop :=
  exists member, h !! v = Some member /\ (Name member = "" -> k = "").

Definition itemNamed (h : heap) (i : loc) : Prop :=
  exists item, h !! i = Some item /\ Name item <> "".

Definition entriesSettled (P : loc -> Prop) (h : heap) (m : option (list (string * loc)))
  : Prop :=
  match m with
  | None => True
  | Some entries => Forall (fun kv => childNamed h (fst kv) (snd kv) /\ P (snd kv)) entries
  end.

(** Below [l], down to depth [fuel], every member and every item has the
    name the assigner would give it. *)
Fixpoint settled (fuel : nat) (h : heap) (l : loc) : Prop :=
  match fuel with
  | O => False
  | S fuel' =>
      exists node,
        h !! l = Some node
        /\ entriesSettled (settled fuel' h) h (Definitions node)
        /\ entriesSettled (settled fuel' h) h (Properties node)
        /\ entriesSettled (settled fuel' h) h (PatternProperties node)
        /\ match Items node with
           | None => True
           | Some i => itemNamed h i /\ settled fuel' h i
           end
  end.

(** *** Acyclic references

    A reference is followed through nodes that are no references
    themselves.  [frozenWalk] is the walk of [resolveRefs] restricted to
    such nodes: [cur] is [None] while the walk is still at the node that
    holds the reference, whose struct is [holder]; a field name read
    there gives the holder's own field (a path without a document name).
    The walk fails where [walkPath] would fail or would read another
    node with a reference of its own. *)
Definition frozenNode (h : heap) (p : option loc) : option Schema :=
  match deref h p with
  | Ok node => if String.eqb (Ref node) "" then Some node else None
  | _ => None
  end.

Definition frozenField (h : heap) (holder : Schema) (cur : option Ctx)
    (field : Schema -> Ctx) : option (option Ctx) :=
  match cur with
  | None => Some (Some (field holder))
  | Some (CtxSchema p) =>
      match frozenNode h p with
      | Some node => Some (Some (field node))
      | None => None
      end
  | Some (CtxMap _) => None
  end.

Definition frozenStep (s : SchemaProcessor) (h : heap) (holder : Schema)
    (cur : option Ctx) (part : string) : option (option Ctx) :=
  if String.eqb part "#" then None
  else if GoStrings.HasSuffix part "#" then
    match lookupKey (dropLast part) (schemas s) with
    | None => None
    | Some referenceSchema => Some (Some (CtxSchema (Some referenceSchema)))
    end
  else if String.eqb part "definitions" then
    frozenField h holder cur (fun node => CtxMap (Definitions node))
  else if String.eqb part "properties" then
    frozenField h holder cur (fun node => CtxMap (Properties node))
  else if String.eqb part "patternProperties" then
    frozenField h holder cur (fun node => CtxMap (PatternProperties node))
  else if String.eqb part "items" then
    frozenField h holder cur (fun node => CtxSchema (Items node))
  else
    match cur with
    | Some (CtxMap m) => Some (Some (CtxSchema (mapIndex m part)))
    | _ => Some cur
    end.

Fixpoint frozenWalk (s : SchemaProcessor) (h : heap) (holder : Schema)
    (cur : option Ctx) (schemaPath : list string) : option (option Ctx) :=
  match schemaPath with
  | [] => Some cur
  | part :: rest =>
      match frozenStep s h holder cur part with
      | Some cur' => frozenWalk s h holder cur' rest
      | None => None
      end
  end.

(** The node the reference of [holder] leads to, when the walk ends at a
    node. *)
Definition frozenTarget (s : SchemaProcessor) (h : heap) (holder : Schema) : option loc :=
  match frozenWalk s h holder None (GoStrings.splitSlash (Ref holder)) with
  | Some (Some (CtxSchema (Some t))) => Some t
  | _ => None
  end.

Definition entryValues (m : option (list (string * loc))) : list loc :=
  match m with
  | None => []
  | Some entries => List.map snd entries
  end.

(** The nodes a node points to. *)
Definition children (node : Schema) : list loc :=
  entryValues (Definitions node) ++ entryValues (Properties node)
  ++ entryValues (PatternProperties node)
  ++ match Items node with
     | None => []
     | Some i => [i]
     end.

(** One level of [acyclic]: a node that is no reference has all its
    children below it; a node that is a reference leads to a node below
    it (its own members are dropped by the copy and do not count). *)
Definition acyclicNode (s : SchemaProcessor) (h : heap) (below : loc -> bool)
    (node : Schema) : bool :=
  if String.eqb (Ref node) "" then forallb below (children node)
  else match frozenTarget s h node with
       | Some t => below t
       | None => false
       end.

(** No cycle, within depth [N]: from the node at [l], following
    references to their targets and members and items of nodes that are
    no references, every chain ends after at most [N] nodes.  Only the
    nodes reached from [l] count; the rest of the heap is arbitrary. *)
Fixpoint acyclic (s : SchemaProcessor) (h : heap) (N : nat) (l : loc) : bool :=
  match N with
  | O => false
  | S n =>
      match h !! l with
      | Some node => acyclicNode s h (acyclic s h n) node
      | None => false
      end
  end.

(** Two heaps that hold the same nodes wherever the first holds a node
    without a reference. *)
Definition agree (h h' : heap) : Prop :=
  forall l node, h !! l = Some node -> Ref node = "" -> h' !! l = Some node.

(** What a resolution keeps: the size of the heap, the nodes that are no
    references, and every chain as short as it was. *)
Definition keepsAcyclic (s : SchemaProcessor) (h h' : heap) : Prop :=
  length h' = length h
  /\ agree h h'
  /\ forall m r, acyclic s h m r = true -> acyclic s h' m r = true.

Definition realCtx (cur : option Ctx) (start : Ctx) : Ctx :=
  match cur with
  | Some ctx => ctx
  | None => start
  end.

(** Nodes of one document [x]: [c] refers to [b], [b] to [a], and [a] is
    an object; [d] refers to its own definition [inner] by a path without
    a document name; [stray] refers to a document that is not loaded;
    [top] has [c] and [d] as properties; the root defines [a], [b], [c]
    and [stray]. *)
Definition chainHeap : heap :=
  [mkSchema "a" "" OBJECT "" None None None "" None;
   mkSchema "b" "" ANY "" None None None "x#/definitions/a" None;
   mkSchema "c" "" ANY "" None None None "x#/definitions/b" None;
   mkSchema "d" "" ANY "" (Some [("inner", 4)]) None None "definitions/inner" None;
   mkSchema "inner" "" STRING "" None None None "" None;
   mkSchema "stray" "" ANY "" None None None "nowhere#/x" None;
   mkSchema "top" "" OBJECT "" None (Some [("c", 2); ("d", 3)]) None "" None;
   mkSchema "" "" ANY "" (Some [("a", 0); ("b", 1); ("c", 2); ("stray", 5)]) None None "" None].

(** A document without a cycle in which the path of one reference passes
    through a node that is a reference itself: [P] refers to the property
    [q] of [X], and [X] refers to [Y].  [entries] gives the order of the
    three definitions. *)
Definition crossX : string * Tree :=
  ("X", Node (mkSchema "" "" ANY "" None (Some [("q", leafDoc STRING)]) None
                       "#/definitions/Y" None)).

Definition crossY : string * Tree := ("Y", leafDoc OBJECT).

Definition crossP : string * Tree := ("P", refDoc "#/definitions/X/properties/q").

Definition crossDoc (entries : list (string * Tree)) : Tree :=
  Node (mkSchema "" "" ANY "" (Some entries) None None "" None).

(** More fuel never changes an outcome other than [OutOfFuel]: whatever
    [m] gives without running out of fuel, [m'] gives too. *)
Definition settlesTo {S A} (m m' : M S A) : Prop :=
  forall st r st', m st = (r, st') -> r <> OutOfFuel -> m' st = (r, st').

(** *** Further definitions of the program and of its properties *)

(** [UnmarshalJSON] of [SchemaType]: [schemaType] is the string that
    [json.Unmarshal(b, &schemaType)] decoded; what follows is the lookup
    in the table [types]. *)
Definition types : list (string * SchemaType) :=
  [("array", ARRAY); ("boolean", BOOLEAN); ("integer", INTEGER); ("number", NUMBER);
   ("null", NULL); ("object", OBJECT); ("string", STRING)].

Definition UnmarshalJSON (schemaType : string) : outcome SchemaType :=
  match lookupKey schemaType types with
  | Some val => Ok val
  | None => Err ("Unknown schema type " +:+ quote +:+ schemaType +:+ quote)
  end.

(** A JSON string literal without escapes. *)
Definition jsonString (content : string) : string := quote +:+ content +:+ quote.

(** [MarshalJSON] of [SchemaType]: the bytes it returns. *)
Definition MarshalJSON (s : SchemaType) : string :=
  match s with
  | ANY => jsonString "object"
  | ARRAY => jsonString "array"
  | BOOLEAN => jsonString "boolean"
  | INTEGER => jsonString "integer"
  | NUMBER => jsonString "number"
  | NULL => jsonString "null"
  | OBJECT => jsonString "object"
  | STRING => jsonString "string"
  end.

Fixpoint hasSlash (s : string) : bool :=
  match s with
  | EmptyString => false
  | String c rest => Ascii.eqb c "/" || hasSlash rest
  end.

(** Only ASCII letters and digits. *)
Fixpoint allAlnum (s : string) : bool :=
  match s with
  | EmptyString => true
  | String c rest => isAlnum c && allAlnum rest
  end.

(** Whether a string starts with an ASCII lower-case letter. *)
Definition startsLower (s : string) : bool :=
  match s with
  | EmptyString => false
  | String c _ => GoStrings.isLower c
  end.

(** A property of every member of a map field of a decoded document. *)
Definition entriesAll (P : Tree -> Prop) (m : option (list (string * Tree))) : Prop :=
  match m with
  | None => True
  | Some entries => Forall (fun kv => P (snd kv)) entries
  end.

(** Down to depth [fuel] below [l], no node is a reference. *)
Fixpoint refFree (fuel : nat) (h : heap) (l : loc) : Prop :=
  match fuel with
  | O => False
  | S fuel' =>
      exists node,
        h !! l = Some node /\ Ref node = "" /\ Forall (refFree fuel' h) (children node)
  end.

(** The heaps keep their size and every node that is no reference. *)
Definition keepsResolved (h h' : heap) : Prop :=
  length h' = length h /\ agree h h'.

(** A node that has a name is left as it is. *)
Definition keepsNamed (st st' : NameState) : Prop :=
  forall l node, fst st !! l = Some node -> Name node <> "" -> fst st' !! l = Some node.

(** The declarations handed over so far stay, in their order. *)
Definition emittedGrows (st st' : SynthState) : Prop :=
  exists more, emitted st' = emitted st ++ more.

(** Two computations that give the same value whenever both return. *)
Definition sameValue {S1 S2 A} (m1 : M S1 A) (m2 : M S2 A) : Prop :=
  forall st1 st2 a1 a2 st1' st2',
    m1 st1 = (Ok a1, st1') -> m2 st2 = (Ok a2, st2') -> a1 = a2.

(** A computation whose errors are errors of the output stage. *)
Definition errorsFrom {S A} (sink : list (string * string) -> string -> string -> option string)
    (m : M S A) : Prop :=
  forall st msg st', m st = (Err msg, st') ->
                     exists out typeName code, sink out typeName code = Some msg.

(** The same outcome and the same final state from every state. *)
Definition sameRun {S A} (m1 m2 : M S A) : Prop := forall st, m1 st = m2 st.

(** An output stage that refuses everything. *)
Definition sinkFull : list (string * string) -> string -> string -> option string :=
  fun _ _ _ => Some "disk full".

(** Whether a name holds an ASCII letter or digit. *)
Fixpoint hasAlnum (s : string) : bool :=
  match s with
  | EmptyString => false
  | String c rest => isAlnum c || hasAlnum rest
  end.

(** * Properties *)

(** ** Strings *)

Lemma append_cons (c : ascii) (a b : string) : String c a +:+ b = String c (a +:+ b).
Proof. reflexivity. Qed.

Lemma append_nil_r (s : string) : s +:+ "" = s.
Proof. induction s as [|c s IH]; [reflexivity|]. now rewrite append_cons, IH. Qed.

Lemma append_assoc (a b c : string) : (a +:+ b) +:+ c = a +:+ (b +:+ c).
Proof. induction a as [|x a IH]; [reflexivity|]. now rewrite !append_cons, IH. Qed.

Lemma length_append (a b : string) :
  String.length (a +:+ b) = String.length a + String.length b.
Proof. induction a as [|x a IH]; [reflexivity|]. rewrite append_cons. cbn. now rewrite IH. Qed.

Lemma substring_all (s : string) : substring 0 (String.length s) s = s.
Proof. induction s as [|c s IH]; [reflexivity|]. cbn. now rewrite IH. Qed.

Lemma substring_append_l (p t : string) :
  substring 0 (String.length p) (p +:+ t) = p.
Proof.
  induction p as [|c p IH].
  - destruct t; reflexivity.
  - rewrite append_cons. cbn. now rewrite IH.
Qed.

Lemma substring_append_r (p t : string) :
  substring (String.length p) (String.length t) (p +:+ t) = t.
Proof.
  induction p as [|c p IH].
  - apply substring_all.
  - rewrite append_cons. cbn. exact IH.
Qed.

Lemma HasSuffix_append (p t : string) : GoStrings.HasSuffix (p +:+ t) t = true.
Proof.
  unfold GoStrings.HasSuffix. rewrite length_append.
  replace (String.length p + String.length t - String.length t) with (String.length p) by lia.
  rewrite substring_append_r, String.eqb_refl.
  apply andb_true_iff. split; [apply Nat.leb_le; lia | reflexivity].
Qed.

Lemma TrimSuffix_append (p t : string) : GoStrings.TrimSuffix (p +:+ t) t = p.
Proof.
  unfold GoStrings.TrimSuffix. rewrite HasSuffix_append, length_append.
  replace (String.length p + String.length t - String.length t) with (String.length p) by lia.
  apply substring_append_l.
Qed.

Lemma HasPrefix_append (p t : string) : GoStrings.HasPrefix (p +:+ t) p = true.
Proof.
  induction p as [|c p IH]; [reflexivity|].
  rewrite append_cons. cbn. now rewrite Ascii.eqb_refl, IH.
Qed.

Lemma TrimPrefix_append (p t : string) : GoStrings.TrimPrefix (p +:+ t) p = t.
Proof.
  unfold GoStrings.TrimPrefix. rewrite HasPrefix_append, length_append.
  replace (String.length p + String.length t - String.length p) with (String.length t) by lia.
  apply substring_append_r.
Qed.

Lemma substring_skip (p t : string) (n m : nat) :
  substring (String.length p + n) m (p +:+ t) = substring n m t.
Proof.
  induction p as [|c p IH]; [reflexivity|].
  rewrite append_cons. cbn. exact IH.
Qed.

Lemma HasSuffix_short (p t u : string) :
  String.length u <= String.length t ->
  GoStrings.HasSuffix (p +:+ t) u = GoStrings.HasSuffix t u.
Proof.
  intros Hle. unfold GoStrings.HasSuffix. rewrite length_append.
  replace (String.length p + String.length t - String.length u)
    with (String.length p + (String.length t - String.length u)) by lia.
  rewrite substring_skip.
  replace (String.length u <=? String.length p + String.length t) with true
    by (symmetry; apply Nat.leb_le; lia).
  replace (String.length u <=? String.length t) with true
    by (symmetry; apply Nat.leb_le; lia).
  reflexivity.
Qed.

Lemma substring_tail (x : string) : forall (n m : nat) (c : ascii) (u : string),
  substring n (S m) x = String c u -> substring (S n) m x = u.
Proof.
  induction x as [|a x IH]; intros n m c u H.
  - destruct n; discriminate H.
  - destruct n as [|n].
    + cbn in H. injection H as _ H. cbn. exact H.
    + cbn in H. cbn. apply (IH n m c u H).
Qed.

Lemma HasSuffix_tail (x : string) (c : ascii) (u : string) :
  GoStrings.HasSuffix x (String c u) = true -> GoStrings.HasSuffix x u = true.
Proof.
  unfold GoStrings.HasSuffix. cbn [String.length].
  intros H. apply andb_true_iff in H as [Hlen Heq].
  apply Nat.leb_le in Hlen. apply String.eqb_eq in Heq.
  apply substring_tail in Heq.
  replace (S (String.length x - S (String.length u)))
    with (String.length x - String.length u) in Heq by lia.
  rewrite Heq, String.eqb_refl.
  apply andb_true_iff. split; [apply Nat.leb_le; lia | reflexivity].
Qed.

(** ** Name canonicalization *)

Lemma alnum_facts (c : ascii) :
  isAlnum c = true ->
  GoStrings.isSeparator c = false
  /\ Ascii.eqb c " " = false
  /\ Ascii.eqb (GoStrings.toUpperChar c) " " = false.
Proof.
  destruct c as [[] [] [] [] [] [] [] []]; vm_compute; intros H;
    first [discriminate H | repeat split].
Qed.

Lemma caseName_from (name : string) : forall prev : ascii,
  GoStrings.removeSpaces (GoStrings.titleFrom prev (GoStrings.Map alnumOrSpace name))
  = capitalizeWords (GoStrings.isSeparator prev) name.
Proof.
  induction name as [|c name IH]; intros prev; [reflexivity|].
  cbn [GoStrings.Map GoStrings.titleFrom capitalizeWords].
  destruct (isAlnum c) eqn:Hc.
  - destruct (alnum_facts c Hc) as (Hsep & Hsp & Hup).
    assert (Hmap : alnumOrSpace c = c) by (unfold alnumOrSpace; now rewrite Hc).
    rewrite Hmap. cbn [GoStrings.removeSpaces].
    destruct (GoStrings.isSeparator prev);
      [rewrite Hup | rewrite Hsp]; now rewrite IH, Hsep.
  - assert (Hmap : alnumOrSpace c = " "%char) by (unfold alnumOrSpace; now rewrite Hc).
    rewrite Hmap. cbn [GoStrings.removeSpaces].
    destruct (GoStrings.isSeparator prev); cbn; now rewrite IH.
Qed.

Lemma caseNameOf_words (name : string) : caseNameOf name = capitalizeWords true name.
Proof. unfold caseNameOf, GoStrings.Title. now rewrite caseName_from. Qed.

Lemma acronym_Id (p : string) : normalizeAcronym (p +:+ "Id") = p +:+ "ID".
Proof.
  unfold normalizeAcronym, acronymSuffixes. cbn [find].
  now rewrite HasSuffix_append, TrimSuffix_append.
Qed.

Lemma acronym_Url (p : string) : normalizeAcronym (p +:+ "Url") = p +:+ "URL".
Proof.
  unfold normalizeAcronym, acronymSuffixes. cbn [find].
  rewrite (HasSuffix_short p "Url" "Id") by (cbn; lia).
  change (GoStrings.HasSuffix "Url" "Id") with false. cbv iota.
  now rewrite HasSuffix_append, TrimSuffix_append.
Qed.

Lemma acronym_Json (p : string) : normalizeAcronym (p +:+ "Json") = p +:+ "JSON".
Proof.
  unfold normalizeAcronym, acronymSuffixes. cbn [find].
  rewrite (HasSuffix_short p "Json" "Id") by (cbn; lia).
  rewrite (HasSuffix_short p "Json" "Url") by (cbn; lia).
  change (GoStrings.HasSuffix "Json" "Id") with false.
  change (GoStrings.HasSuffix "Json" "Url") with false. cbv iota.
  now rewrite HasSuffix_append, TrimSuffix_append.
Qed.

Lemma acronym_Xml (p : string) : normalizeAcronym (p +:+ "Xml") = p +:+ "XML".
Proof.
  unfold normalizeAcronym, acronymSuffixes. cbn [find].
  rewrite (HasSuffix_short p "Xml" "Id") by (cbn; lia).
  rewrite (HasSuffix_short p "Xml" "Url") by (cbn; lia).
  change (GoStrings.HasSuffix "Xml" "Id") with false.
  change (GoStrings.HasSuffix "Xml" "Url") with false. cbv iota.
  destruct (GoStrings.HasSuffix (p +:+ "Xml") "Json") eqn:HJ.
  - apply HasSuffix_tail in HJ.
    rewrite (HasSuffix_short p "Xml" "son") in HJ by (cbn; lia).
    discriminate HJ.
  - now rewrite HasSuffix_append, TrimSuffix_append.
Qed.

Lemma acronym_prefix (prefix rest : string) :
  find (GoStrings.HasPrefix (prefix +:+ rest)) acronymPrefixes = Some prefix ->
  normalizeAcronym (prefix +:+ rest)
  = match find (GoStrings.HasSuffix (prefix +:+ rest)) acronymSuffixes with
    | Some suffix => GoStrings.TrimSuffix (prefix +:+ rest) suffix +:+ GoStrings.ToUpper suffix
    | None => GoStrings.ToUpper prefix +:+ rest
    end.
Proof.
  intros H. unfold normalizeAcronym. rewrite H.
  destruct (find _ acronymSuffixes); [reflexivity|].
  now rewrite TrimPrefix_append.
Qed.

Lemma find_prefix_Url (rest : string) :
  find (GoStrings.HasPrefix ("Url" +:+ rest)) acronymPrefixes = Some "Url".
Proof. reflexivity. Qed.

Lemma find_prefix_Json (rest : string) :
  find (GoStrings.HasPrefix ("Json" +:+ rest)) acronymPrefixes = Some "Json".
Proof. reflexivity. Qed.

Lemma find_prefix_Xml (rest : string) :
  find (GoStrings.HasPrefix ("Xml" +:+ rest)) acronymPrefixes = Some "Xml".
Proof. reflexivity. Qed.

(** C8 as the code has it: the two examples hold; a non-alphanumeric
    character is a word boundary (it is dropped and the next character is
    upper-cased); an identifier that ends in Id, Url, Json or Xml gets
    that suffix upper-cased; an identifier that starts with Url, Json or
    Xml gets that prefix upper-cased only when none of the four suffixes
    matched, because the suffix loop returns first. *)
Theorem camelCase_canonical :
  camelCase "user_id" = "UserID"
  /\ camelCase "image_url" = "ImageURL"
  /\ (forall name, camelCase name = normalizeAcronym (capitalizeWords true name))
  /\ (forall p, normalizeAcronym (p +:+ "Id") = p +:+ "ID")
  /\ (forall p, normalizeAcronym (p +:+ "Url") = p +:+ "URL")
  /\ (forall p, normalizeAcronym (p +:+ "Json") = p +:+ "JSON")
  /\ (forall p, normalizeAcronym (p +:+ "Xml") = p +:+ "XML")
  /\ (forall prefix rest, In prefix acronymPrefixes ->
        normalizeAcronym (prefix +:+ rest)
        = match find (GoStrings.HasSuffix (prefix +:+ rest)) acronymSuffixes with
          | Some suffix =>
              GoStrings.TrimSuffix (prefix +:+ rest) suffix +:+ GoStrings.ToUpper suffix
          | None => GoStrings.ToUpper prefix +:+ rest
          end).
Proof.
  split; [reflexivity|]. split; [reflexivity|].
  split; [intros name; unfold camelCase; now rewrite caseNameOf_words|].
  split; [exact acronym_Id|]. split; [exact acronym_Url|].
  split; [exact acronym_Json|]. split; [exact acronym_Xml|].
  intros prefix rest Hin. apply acronym_prefix.
  destruct Hin as [<- | [<- | [<- | []]]].
  - apply find_prefix_Url.
  - apply find_prefix_Json.
  - apply find_prefix_Xml.
Qed.

Lemma camelCase_canonical_witness :
  In "Json" acronymPrefixes
  /\ normalizeAcronym ("Json" +:+ "Body") = "JSONBody"
  /\ normalizeAcronym ("Json" +:+ "Id") = "JsonID".
Proof.
  assert (Hin : In "Json" acronymPrefixes) by (right; left; reflexivity).
  split; [exact Hin|].
  destruct camelCase_canonical as (_ & _ & _ & _ & _ & _ & _ & Hprefix).
  split.
  - rewrite (Hprefix "Json" "Body" Hin). reflexivity.
  - rewrite (Hprefix "Json" "Id" Hin). reflexivity.
Defined.

(** C8 as stated fails: ["url_id"] canonicalizes to an identifier that
    starts with Url, and that prefix is not upper-cased. *)
Lemma camelCase_prefix_counterexample :
  caseNameOf "url_id" = "UrlId"
  /\ GoStrings.HasPrefix (caseNameOf "url_id") "Url" = true
  /\ camelCase "url_id" = "UrlID"
  /\ camelCase "url_id" <> "URLID".
Proof. repeat split; try reflexivity. discriminate. Qed.

(** ** Schema loader: reference-path qualification *)

Lemma splitSlash_cons (s : string) : exists w ws, GoStrings.splitSlash s = w :: ws.
Proof.
  destruct s as [|c s]; cbn; [eauto|].
  destruct (Ascii.eqb c "/"); [eauto|].
  destruct (GoStrings.splitSlash s); eauto.
Qed.

Lemma qualifyRef_spec (reference ref : string) :
  qualifyRef reference ref = if startsAtHash ref then reference +:+ ref else ref.
Proof.
  unfold qualifyRef, startsAtHash.
  destruct ref as [|c rest]; [reflexivity|].
  change (String.eqb (String c rest) "") with false. cbv iota.
  cbn [GoStrings.splitSlash GoStrings.HasPrefix String.eqb].
  destruct (Ascii.eqb c "/") eqn:Hslash.
  - apply Ascii.eqb_eq in Hslash. subst c. reflexivity.
  - destruct rest as [|d rest'].
    + cbn. destruct (Ascii.eqb c "#"); reflexivity.
    + cbn [GoStrings.splitSlash].
      destruct (Ascii.eqb d "/") eqn:Hd.
      * cbn. destruct (Ascii.eqb c "#"); reflexivity.
      * destruct (splitSlash_cons rest') as (w & ws & Hw).
        assert (Hfirst : exists w' ws',
                   match GoStrings.splitSlash rest' with
                   | [] => [String d EmptyString]
                   | w0 :: ws0 => String d w0 :: ws0
                   end = String d w' :: ws').
        { rewrite Hw. eauto. }
        destruct Hfirst as (w' & ws' & ->).
        cbn. destruct (Ascii.eqb c "#"); reflexivity.
Qed.

Lemma lookupKey_mapEntries {A B} (f : string -> A -> B) (k : string)
    (entries : list (string * A)) :
  lookupKey k (List.map (fun kv => (fst kv, f (fst kv) (snd kv))) entries)
  = option_map (f k) (lookupKey k entries).
Proof.
  induction entries as [|[k' v] entries IH]; [reflexivity|].
  cbn. destruct (String.eqb k' k) eqn:Hk.
  - apply String.eqb_eq in Hk. now subst k'.
  - exact IH.
Qed.

Lemma mapIndex_mapEntries {A B} (f : string -> A -> B) (k : string)
    (m : option (list (string * A))) :
  mapIndex (mapEntries f m) k = option_map (f k) (mapIndex m k).
Proof. destruct m; [apply lookupKey_mapEntries | reflexivity]. Qed.

Lemma child_updateReferencePath (step : Step) (t : Tree) (reference : string) :
  child step (nodeOf (updateReferencePath t reference))
  = option_map (fun v => updateReferencePath v reference) (child step (nodeOf t)).
Proof.
  destruct t as [schema], step; cbn;
    try apply (mapIndex_mapEntries (fun _ v => updateReferencePath v reference)).
  reflexivity.
Qed.

(** C1 as the code has it: the node at every address of the document
    keeps its reference unless the first piece of the reference is exactly
    "#"; in that case the reference key is put in front of it. *)
Theorem updateReferencePath_qualifies (reference : string) (path : list Step) :
  forall t : Tree,
    refAt path (updateReferencePath t reference)
    = option_map (fun ref => if startsAtHash ref then reference +:+ ref else ref)
                 (refAt path t).
Proof.
  unfold refAt. induction path as [|step path IH]; intros t.
  - destruct t as [schema]. cbn. now rewrite qualifyRef_spec.
  - cbn [nodeAt]. rewrite child_updateReferencePath.
    destruct (child step (nodeOf t)) as [c|]; [apply IH | reflexivity].
Qed.

(** C1 as stated fails both ways: a reference without any '#' is left
    as it is, and a reference that starts with '#' is rewritten, to the
    key followed by the reference (no '#' is added). *)
Lemma updateReferencePath_counterexample :
  containsHash "definitions/Foo" = false
  /\ refAt [] (updateReferencePath
                 (Node (mkSchema "" "" ANY "" None None None "definitions/Foo" None)) "a.json")
     = Some "definitions/Foo"
  /\ "definitions/Foo" <> "a.json" +:+ "#" +:+ "definitions/Foo"
  /\ containsHash "#/definitions/Foo" = true
  /\ refAt [InProperties "p"]
       (updateReferencePath
          (Node (mkSchema "" "" OBJECT "" None
                   (Some [("p", Node (mkSchema "" "" ANY "" None None None "#/definitions/Foo" None))])
                   None "" None)) "a.json")
     = Some "a.json#/definitions/Foo".
Proof. repeat split; try reflexivity. discriminate. Qed.

(** ** Computations and relations on the state *)

Section Respects.
Context {S : Type} (R : S -> S -> Prop) {HR : PreOrder R}.

Lemma respects_ret {A} (a : A) : respects R (@ret S A a).
Proof. intros s r s' H. injection H as _ <-. reflexivity. Qed.

Lemma respects_stop {A} (o : outcome False) : respects R (@stop S A o).
Proof. intros s r s' H. injection H as _ <-. reflexivity. Qed.

Lemma respects_bind {A B} (m : M S A) (k : A -> M S B) :
  respects R m -> (forall a, respects R (k a)) -> respects R (bind m k).
Proof.
  intros Hm Hk s r s' H. unfold bind in H.
  destruct (m s) as [o s1] eqn:Hms. specialize (Hm _ _ _ Hms).
  destruct o; try (injection H as _ <-; exact Hm).
  etransitivity; [exact Hm | exact (Hk _ _ _ _ H)].
Qed.

Lemma respects_forEach {A} (body : A -> M S unit) (xs : list A) :
  (forall x, In x xs -> respects R (body x)) -> respects R (forEach body xs).
Proof.
  induction xs as [|x xs IH]; intros Hbody; cbn [forEach].
  - apply respects_ret.
  - apply respects_bind; [apply Hbody; now left|].
    intros _. apply IH. intros y Hy. apply Hbody. now right.
Qed.

Lemma respects_forEntries {V} (m : option (list (string * V)))
    (body : string -> V -> M S unit) :
  (forall k v, respects R (body k v)) -> respects R (forEntries m body).
Proof.
  intros Hbody. destruct m as [entries|]; cbn; [|apply respects_ret].
  apply respects_forEach. intros kv _. apply Hbody.
Qed.

End Respects.

Ltac rsp_ret := apply respects_ret; exact _.
Ltac rsp_stop := apply respects_stop; exact _.
Ltac rsp_bind := apply respects_bind; [exact _ | | ].
Ltac rsp_forEntries := apply respects_forEntries; [exact _ | ].

(** ** Emission: at most one declaration for a name *)

Section SynthesizerProperties.
Variable marshalIndent : heap -> option loc -> string.
Variable sink : list (string * string) -> string -> string -> option string.

Lemma writeGoCode_seen (typeName code : string) (st : SynthState) :
  alreadyProcessed st typeName = true -> writeGoCode sink typeName code st = (None, st).
Proof. intros H. unfold writeGoCode. now rewrite H. Qed.

Lemma writeGoCode_fresh (typeName code : string) (st : SynthState) :
  alreadyProcessed st typeName = false ->
  snd (writeGoCode sink typeName code st)
  = mkSynth (Some (<[typeName := true]> (default ∅ (processed st))))
            (emitted st ++ [(typeName, code)]).
Proof.
  intros H. unfold writeGoCode. rewrite H. cbn.
  destruct (processed st); reflexivity.
Qed.

Lemma alreadyProcessed_insert (cache : option (gmap string bool)) (out : list (string * string))
    (typeName name : string) :
  alreadyProcessed (mkSynth (Some (<[typeName := true]> (default ∅ cache))) out) name
  = String.eqb typeName name || alreadyProcessed (mkSynth cache out) name.
Proof.
  unfold alreadyProcessed. cbn.
  destruct (String.eqb_spec typeName name) as [->|Hne].
  - now rewrite lookup_insert_eq.
  - rewrite lookup_insert_ne by exact Hne.
    destruct cache; cbn; [reflexivity | now rewrite lookup_empty].
Qed.

Lemma writeGoCode_marks (typeName code : string) (st : SynthState) :
  alreadyProcessed (snd (writeGoCode sink typeName code st)) typeName = true.
Proof.
  destruct (alreadyProcessed st typeName) eqn:H.
  - now rewrite writeGoCode_seen.
  - rewrite writeGoCode_fresh by exact H.
    rewrite (alreadyProcessed_insert (processed st) _ typeName typeName).
    now rewrite String.eqb_refl.
Qed.

Lemma writeGoCode_keepsInv (typeName code : string) (st : SynthState) :
  synthInv st -> synthInv (snd (writeGoCode sink typeName code st)).
Proof.
  intros [Hnd Hin].
  destruct (alreadyProcessed st typeName) eqn:H.
  - rewrite writeGoCode_seen by exact H. now split.
  - rewrite writeGoCode_fresh by exact H. destruct st as [cache out].
    cbn [processed emitted] in *. split.
    + cbn [emitted]. rewrite map_app. cbn [List.map fst].
      apply NoDup_app. split; [exact Hnd|].
      split; [|apply NoDup_singleton].
      intros x Hx Hx'. apply list_elem_of_In in Hx.
      apply list_elem_of_singleton in Hx'. subst x.
      apply Hin in Hx. congruence.
    + intros name Hname. cbn [emitted] in Hname.
      rewrite (alreadyProcessed_insert cache (out ++ [(typeName, code)]) typeName name).
      rewrite map_app in Hname. apply in_app_or in Hname as [Hname|Hname].
      * change (alreadyProcessed (mkSynth cache (out ++ [(typeName, code)])) name)
          with (alreadyProcessed (mkSynth cache out) name).
        rewrite (Hin name Hname). apply orb_true_r.
      * cbn in Hname. destruct Hname as [<-|[]]. now rewrite String.eqb_refl.
Qed.

#[local] Instance keepsInv_preorder : PreOrder keepsInv.
Proof.
  split.
  - intros st H. exact H.
  - intros a b c Hab Hbc H. exact (Hbc (Hab H)).
Qed.

Lemma emit_result (typeName code : string) (st : SynthState) (r : outcome unit)
    (st' : SynthState) :
  emit sink typeName code st = (r, st') -> st' = snd (writeGoCode sink typeName code st).
Proof.
  unfold emit. destruct (writeGoCode sink typeName code st) as [[err|] st1];
    intros H; now injection H as _ <-.
Qed.

Lemma emit_keepsInv (typeName code : string) : respects keepsInv (emit sink typeName code).
Proof.
  intros st r st' H Hinv. rewrite (emit_result _ _ _ _ _ H).
  now apply writeGoCode_keepsInv.
Qed.

Section SynthRespects.
Context (R : SynthState -> SynthState -> Prop) {HR : PreOrder R}.
Hypothesis emit_ok : forall typeName code, respects R (emit sink typeName code).

Lemma structFields_respects (rec : option loc -> M SynthState string)
    (props : list (string * loc)) (keys : list string) :
  (forall p, respects R (rec p)) ->
  forall typeData, respects R (structFields rec props keys typeData).
Proof.
  intros Hrec. induction keys as [|k keys IH]; intros typeData; cbn [structFields].
  - rsp_ret.
  - rsp_bind; [apply Hrec|]. intros sub. apply IH.
Qed.

Lemma patternTypes_respects (rec : option loc -> M SynthState string)
    (comment : string -> string) (pats : list (string * loc)) (keys : list string) :
  (forall p, respects R (rec p)) ->
  forall typeName, respects R (patternTypes sink rec comment pats keys typeName).
Proof.
  intros Hrec. induction keys as [|k keys IH]; intros typeName; cbn [patternTypes].
  - rsp_ret.
  - rsp_bind; [apply Hrec|]. intros sub.
    rsp_bind; [|intros t; apply IH].
    destruct (isTitled sub); [|rsp_ret].
    rsp_bind; [apply emit_ok|]. intros _. rsp_ret.
Qed.

Lemma processNode_respects (rec : option loc -> M SynthState string)
    (comment : string -> string) (schema : Schema) :
  (forall p, respects R (rec p)) -> respects R (processNode sink rec comment schema).
Proof.
  intros Hrec. unfold processNode.
  destruct (Type_ schema); try rsp_ret.
  - rsp_bind; [apply Hrec|]. intros sub.
    match goal with |- context [if negb ?b then _ else _] => destruct b end; cbn [negb].
    + rsp_ret.
    + rsp_bind; [apply emit_ok|]. intros _. rsp_ret.
  - destruct (Properties schema) as [props|].
    + rsp_bind; [now apply structFields_respects|]. intros typeData.
      rsp_bind; [apply emit_ok|]. intros _. rsp_ret.
    + destruct (PatternProperties schema) as [pats|]; [|rsp_ret].
      now apply patternTypes_respects.
Qed.

Lemma processSchema_respects (s : SchemaProcessor) (h : heap) (fuel : nat) :
  forall schema, respects R (processSchema marshalIndent sink s fuel h schema).
Proof.
  induction fuel as [|fuel IH]; intros schema; cbn [processSchema].
  - rsp_stop.
  - destruct (deref h schema); try rsp_stop.
    apply processNode_respects. exact IH.
Qed.

End SynthRespects.

Lemma processSchema_keepsInv (s : SchemaProcessor) (fuel : nat) (h : heap)
    (schema : option loc) (st : SynthState) :
  synthInv st -> synthInv (snd (processSchema marshalIndent sink s fuel h schema st)).
Proof.
  intros Hinv.
  destruct (processSchema marshalIndent sink s fuel h schema st) as [r st'] eqn:H.
  exact (processSchema_respects keepsInv emit_keepsInv s h fuel schema _ _ _ H Hinv).
Qed.

Lemma runInv_preorder :
  PreOrder (fun a b : RunState => keepsInv (snd a) (snd b)).
Proof.
  split.
  - intros a. reflexivity.
  - intros a b c Hab Hbc. etransitivity; eassumption.
Qed.

Lemma onNames_keeps {A} (m : M NameState A) :
  respects (fun a b : RunState => keepsInv (snd a) (snd b)) (onNames m).
Proof.
  intros st r st' H. unfold onNames in H.
  destruct (m (fst st)) as [r1 ns]. injection H as _ <-. cbn. reflexivity.
Qed.

Lemma parseAll_keeps (s : SchemaProcessor) (fuel : nat) (todo : list (string * loc)) :
  respects (fun a b : RunState => keepsInv (snd a) (snd b)) (parseAll s fuel todo).
Proof.
  pose proof runInv_preorder as HP.
  induction todo as [|[key schema] todo IH]; cbn [parseAll].
  - rsp_ret.
  - rsp_bind; [apply onNames_keeps|]. intros target.
    rsp_bind; [exact IH|]. intros targets. rsp_ret.
Qed.

Lemma Process_keeps (s : SchemaProcessor) (fuel : nat) :
  respects (fun a b : RunState => keepsInv (snd a) (snd b))
           (Process marshalIndent sink s fuel).
Proof.
  pose proof runInv_preorder as HP. unfold Process.
  rsp_bind; [apply parseAll_keeps|]. intros targets.
  apply respects_forEach; [exact _|]. intros target _.
  rsp_bind; [|intros _; rsp_ret].
  intros st r st' H. unfold onSynth in H.
  destruct (processSchema marshalIndent sink s fuel (fst (fst st)) target (snd st))
    as [r1 ss] eqn:Hp.
  injection H as _ <-. cbn.
  exact (processSchema_respects keepsInv emit_keepsInv s _ fuel target _ _ _ Hp).
Qed.

Lemma initialSynth_inv : synthInv initialSynth.
Proof. split; [constructor | intros name []]. Qed.

(** C3: a request for a name that is already in the cache returns nil and
    changes nothing; after any request the name is in the cache, and a
    request for a name not yet in the cache hands exactly that one
    declaration to the output stage; so in every run of the program, no
    name is handed to the output stage twice. *)
Theorem emission_at_most_once :
  (forall typeName code st,
      alreadyProcessed st typeName = true ->
      writeGoCode sink typeName code st = (None, st))
  /\ (forall typeName code st,
         alreadyProcessed (snd (writeGoCode sink typeName code st)) typeName = true)
  /\ (forall typeName code st,
         alreadyProcessed st typeName = false ->
         emitted (snd (writeGoCode sink typeName code st))
         = emitted st ++ [(typeName, code)])
  /\ (forall comment fuel files,
         NoDup (List.map fst
                  (emitted (snd (snd (run marshalIndent sink comment fuel files)))))).
Proof.
  split; [exact writeGoCode_seen|]. split; [exact writeGoCode_marks|].
  split.
  - intros typeName code st H. now rewrite writeGoCode_fresh.
  - intros comment fuel files. unfold run.
    destruct (Load files) as [loaded h].
    destruct (Process marshalIndent sink (mkProcessor comment loaded) fuel
                (h, 0%Z, initialSynth)) as [r st'] eqn:H.
    apply Process_keeps in H. cbn in H. apply H, initialSynth_inv.
Qed.

End SynthesizerProperties.

Lemma emission_at_most_once_witness :
  let sink := fun (_ : list (string * string)) (_ _ : string) => @None string in
  let st := snd (writeGoCode sink "Foo" "type Foo struct {}" initialSynth) in
  alreadyProcessed st "Foo" = true
  /\ writeGoCode sink "Foo" "type Foo struct { X int }" st = (None, st)
  /\ alreadyProcessed initialSynth "Foo" = false
  /\ emitted st = [("Foo", "type Foo struct {}")].
Proof.
  intros sink st.
  destruct (emission_at_most_once (fun _ _ => EmptyString) sink)
    as (Hseen & Hmark & Hfresh & _).
  assert (H1 : alreadyProcessed st "Foo" = true) by apply Hmark.
  assert (H0 : alreadyProcessed initialSynth "Foo" = false) by reflexivity.
  split; [exact H1|]. split; [apply Hseen; exact H1|].
  split; [exact H0|]. exact (Hfresh "Foo" "type Foo struct {}" initialSynth H0).
Defined.

(** ** Reference resolver: the walk along a reference *)

Lemma bind_ok {S A B} (m : M S A) (k : A -> M S B) (s s' : S) (a : A) :
  m s = (Ok a, s') -> bind m k s = k a s'.
Proof. intros H. unfold bind. now rewrite H. Qed.

Lemma walkPath_app (s : SchemaProcessor) (reference : string) (front back : list string) :
  forall (ctx ctx' : Ctx) (h h' : heap),
    walkPath s reference ctx front h = (Ok ctx', h') ->
    walkPath s reference ctx (front ++ back) h = walkPath s reference ctx' back h'.
Proof.
  induction front as [|part front IH]; intros ctx ctx' h h' H.
  - cbn in H. injection H as <- <-. reflexivity.
  - cbn [walkPath app] in *. unfold bind in *.
    destruct (walkStep s reference ctx part h) as [[c| | |] h1]; try discriminate H.
    now apply IH.
Qed.

Lemma walkStep_key (s : SchemaProcessor) (reference part : string)
    (m : option (list (string * loc))) (h : heap) :
  isKeySegment part = true ->
  walkStep s reference (CtxMap m) part h = (Ok (CtxSchema (mapIndex m part)), h).
Proof.
  unfold isKeySegment, walkStep. intros H.
  repeat (apply andb_true_iff in H as [H ?]).
  repeat match goal with
         | E : negb ?b = true |- _ => apply negb_true_iff in E; rewrite E
         end.
  reflexivity.
Qed.

(** When the walk has reached a map and the last segment is a key that
    the map does not hold, the walk raises no error and changes nothing;
    it ends with the nil [*Schema] as context. *)
Lemma walkPath_missing_key (s : SchemaProcessor) (reference : string)
    (start : Ctx) (front : list string) (last : string)
    (m : option (list (string * loc))) (h : heap) :
  walkPath s reference start front h = (Ok (CtxMap m), h) ->
  isKeySegment last = true ->
  mapIndex m last = None ->
  walkPath s reference start (front ++ [last]) h = (Ok (CtxSchema None), h).
Proof.
  intros Hfront Hkey Hmiss.
  rewrite (walkPath_app _ _ _ _ _ _ _ _ Hfront). cbn [walkPath].
  rewrite (bind_ok _ _ _ _ _ (walkStep_key s reference last m h Hkey)).
  now rewrite Hmiss.
Qed.

(** What [resolveRefs] then does with the nil context: it panics. *)
Lemma resolveRefs_nil_context (s : SchemaProcessor) (fuel : nat) (reference : string)
    (l : loc) (node : Schema) (h : heap) :
  h !! l = Some node ->
  Ref node <> "" ->
  walkPath s reference (CtxSchema (Some l)) (GoStrings.splitSlash (Ref node)) h
  = (Ok (CtxSchema None), h) ->
  resolveRefs s (S fuel) reference (Some l) h = (Panic, h).
Proof.
  intros Hl Href Hwalk. cbn [resolveRefs].
  unfold bind at 1. unfold load at 1. cbn [deref]. rewrite Hl.
  apply String.eqb_neq in Href. rewrite Href.
  unfold bind at 1. unfold bind at 1. rewrite Hwalk. reflexivity.
Qed.

(** C5, at the failing input: document [a.json] defines Widget only and
    the property [w] of document [b.json] refers to
    [a.json#/definitions/Missing], a loaded document and a key that its
    definitions do not hold.  The walk ends without an error at the nil
    pointer; the guard, a two-result type assertion of [ctx] to a
    [Schema] pointer, lets the nil pointer through and the struct copy
    reads through it.  So [resolveRefs]
    panics, on the property and on the document, where C5 says that it
    returns no error and leaves the node unchanged. *)
Theorem resolveRefs_missing_key_failing_input :
  let files := [("a.json", definesWidget);
                ("b.json", usesWidget "" "a.json#/definitions/Missing")] in
  let s := mkProcessor false (fst (Load files)) in
  let h := snd (Load files) in
  fst (Load files) = [("a.json", 3); ("b.json", 5)]
  /\ option_map Ref (h !! 4) = Some "a.json#/definitions/Missing"
  /\ walkPath s "b.json" (CtxSchema (Some 4))
        (GoStrings.splitSlash "a.json#/definitions/Missing") h
      = (Ok (CtxSchema None), h)
  /\ resolveRefs s 10 "b.json" (Some 4) h = (Panic, h)
  /\ resolveRefs s 10 "b.json" (Some 5) h = (Panic, h).
Proof. repeat split; vm_compute; reflexivity. Qed.

(** ** An array of strings without a name *)

Lemma normalizeAcronym_nonempty (caseName : string) :
  caseName <> "" -> normalizeAcronym caseName <> "".
Proof.
  intros Hne. unfold normalizeAcronym.
  destruct (find (GoStrings.HasSuffix caseName) acronymSuffixes) as [suffix|] eqn:Hs.
  - apply find_some in Hs as [Hin _].
    destruct (GoStrings.TrimSuffix caseName suffix) as [|c t]; [|discriminate].
    destruct Hin as [<- | [<- | [<- | [<- | []]]]]; discriminate.
  - destruct (find (GoStrings.HasPrefix caseName) acronymPrefixes) as [prefix|] eqn:Hp;
      [|exact Hne].
    apply find_some in Hp as [Hin _].
    destruct Hin as [<- | [<- | [<- | []]]]; discriminate.
Qed.

Lemma camelCase_anonymous (digits : string) : camelCase ("AnonymousObject" +:+ digits) <> "".
Proof.
  unfold camelCase. apply normalizeAcronym_nonempty.
  rewrite caseNameOf_words. discriminate.
Qed.

Lemma Name_empty {P} (schema : SchemaOf P) :
  Name schema = "" -> Title schema = "" /\ ID schema = "".
Proof.
  unfold Name. destruct (String.eqb_spec (Title schema) ""); intros H; [now split|].
  contradiction.
Qed.

Lemma bind_ret {S A B} (a : A) (k : A -> M S B) (s : S) : bind (ret a) k s = k a s.
Proof. reflexivity. Qed.

Lemma loadN_run (h : heap) (count : Z) (l : loc) (node : Schema) :
  h !! l = Some node -> loadN (Some l) (h, count) = (Ok node, (h, count)).
Proof. intros H. unfold loadN. cbn. now rewrite H. Qed.

Lemma assignTitle_run (h : heap) (count : Z) (l : loc) (node : Schema) (title : string) :
  h !! l = Some node ->
  assignTitle (Some l) title (h, count) = (Ok tt, (<[l := withTitle node title]> h, count)).
Proof. intros H. unfold assignTitle. cbn. now rewrite H. Qed.

Lemma setTitle_unfold (s : SchemaProcessor) (fuel : nat) (reference : string)
    (schema : option loc) :
  setTitle s (S fuel) reference schema
  = (let* node := loadN schema in
     let* _ := forEntries (Definitions node)
                 (fun k v => let* _ := titleFromKey k v in
                             setTitle s fuel reference (Some v)) in
     let* node := loadN schema in
     let* _ := forEntries (Properties node)
                 (fun k v => let* _ := titleFromKey k v in
                             setTitle s fuel reference (Some v)) in
     let* node := loadN schema in
     let* _ := forEntries (PatternProperties node)
                 (fun k v => let* _ := titleFromKey k v in
                             setTitle s fuel reference (Some v)) in
     let* node := loadN schema in
     match Items node with
     | None => ret tt
     | Some items =>
         let* _ := titleFromArray schema items in
         setTitle s fuel reference (Some items)
     end).
Proof. reflexivity. Qed.

Lemma setTitle_leaf (s : SchemaProcessor) (fuel : nat) (reference : string)
    (h : heap) (count : Z) (l : loc) (node : Schema) :
  h !! l = Some node ->
  Definitions node = None -> Properties node = None ->
  PatternProperties node = None -> Items node = None ->
  setTitle s (S fuel) reference (Some l) (h, count) = (Ok tt, (h, count)).
Proof.
  intros Hl Hd Hp Hpp Hi. rewrite setTitle_unfold.
  rewrite (bind_ok _ _ _ _ _ (loadN_run _ _ _ _ Hl)), Hd. cbn [forEntries]. rewrite bind_ret.
  rewrite (bind_ok _ _ _ _ _ (loadN_run _ _ _ _ Hl)), Hp. cbn [forEntries]. rewrite bind_ret.
  rewrite (bind_ok _ _ _ _ _ (loadN_run _ _ _ _ Hl)), Hpp. cbn [forEntries]. rewrite bind_ret.
  rewrite (bind_ok _ _ _ _ _ (loadN_run _ _ _ _ Hl)), Hi. reflexivity.
Qed.

Lemma Name_withTitle {P} (schema : SchemaOf P) (title : string) :
  String.eqb title "" = false -> Name (withTitle schema title) = title.
Proof. intros H. unfold Name. cbn. now rewrite H. Qed.

Section ArrayOfStrings.
Variable marshalIndent : heap -> option loc -> string.
Variable sink : list (string * string) -> string -> string -> option string.

(** C7 as the code has it.  Synthesis of an array node without a name
    whose items are [{"type":"string"}] returns the inline type []string
    and emits nothing.  In the pipeline the name assigner comes first: it
    gives the array the title AnonymousObject<N>, N being the incremented
    counter, and its item the title AnonymousObject<N>Item; synthesis then
    requests the declaration of a slice of strings under the canonical
    form of that title and returns that name. *)
Theorem unnamed_string_array (s : SchemaProcessor) (reference : string) (h : heap)
    (count : Z) (l i : loc) (arr : Schema) (st : SynthState) (fuel : nat) :
  h !! l = Some arr ->
  Type_ arr = ARRAY ->
  Name arr = "" ->
  Definitions arr = None ->
  Properties arr = None ->
  PatternProperties arr = None ->
  Items arr = Some i ->
  i <> l ->
  h !! i = Some stringSchema ->
  let name := "AnonymousObject" +:+ formatInt (wrapInt (count + 1)) in
  let h' := <[i := withTitle stringSchema (name +:+ "Item")]> (<[l := withTitle arr name]> h) in
  let typeName := GoStrings.TrimPrefix (camelCase name) "*" in
  processSchema marshalIndent sink s (2 + fuel) h (Some l) st = (Ok "[]string", st)
  /\ setTitle s (2 + fuel) reference (Some l) (h, count) = (Ok tt, (h', wrapInt (count + 1)))
  /\ processSchema marshalIndent sink s (2 + fuel) h' (Some l) st
     = (match fst (writeGoCode sink typeName
                     (sliceDecl (structComment marshalIndent s h' (Some l) typeName)
                                typeName "string") st) with
        | None => Ok typeName
        | Some err => Err err
        end,
        snd (writeGoCode sink typeName
               (sliceDecl (structComment marshalIndent s h' (Some l) typeName)
                          typeName "string") st)).
Proof.
  intros Hl Hty Hname Hdefs Hprops Hpats Hitems Hne Hi name h' typeName.
  destruct (Name_empty _ Hname) as [Htitle Hid].
  destruct arr as [title id ty descr defs props pats ref items].
  cbn in Hty, Hdefs, Hprops, Hpats, Hitems, Htitle, Hid. subst.
  assert (Hll : l < length h) by (eapply lookup_lt_Some; exact Hl).
  assert (Hil : i < length h) by (eapply lookup_lt_Some; exact Hi).
  assert (Hname1 : String.eqb name "" = false) by reflexivity.
  assert (Hl1 : <[l := withTitle (mkSchema "" "" ARRAY descr None None None ref (Some i)) name]> h
                !! l
                = Some (withTitle (mkSchema "" "" ARRAY descr None None None ref (Some i)) name))
    by (now apply list_lookup_insert_eq).
  assert (Hi1 : <[l := withTitle (mkSchema "" "" ARRAY descr None None None ref (Some i)) name]> h
                !! i = Some stringSchema)
    by (rewrite list_lookup_insert_ne by congruence; exact Hi).
  assert (Hl' : h' !! l
                = Some (withTitle (mkSchema "" "" ARRAY descr None None None ref (Some i)) name))
    by (unfold h'; rewrite list_lookup_insert_ne by congruence; exact Hl1).
  assert (Hi' : h' !! i = Some (withTitle stringSchema (name +:+ "Item")))
    by (unfold h'; apply list_lookup_insert_eq; now rewrite length_insert).
  split; [|split].
  - change (2 + fuel) with (S (S fuel)). cbn [processSchema deref].
    rewrite Hl. unfold processNode. cbn [Type_ Items].
    unfold bind. cbn [processSchema deref]. rewrite Hi. reflexivity.
  - change (2 + fuel) with (S (S fuel)). rewrite setTitle_unfold.
    rewrite (bind_ok _ _ _ _ _ (loadN_run _ _ _ _ Hl)).
    cbn [Definitions forEntries]. rewrite bind_ret.
    rewrite (bind_ok _ _ _ _ _ (loadN_run _ _ _ _ Hl)).
    cbn [Properties forEntries]. rewrite bind_ret.
    rewrite (bind_ok _ _ _ _ _ (loadN_run _ _ _ _ Hl)).
    cbn [PatternProperties forEntries]. rewrite bind_ret.
    rewrite (bind_ok _ _ _ _ _ (loadN_run _ _ _ _ Hl)).
    cbn [Items].
    rewrite (bind_ok _ _ _
               (h', wrapInt (count + 1)) tt).
    + apply setTitle_leaf with (node := withTitle stringSchema (name +:+ "Item"));
        [exact Hi' | reflexivity..].
    + unfold titleFromArray.
      rewrite (bind_ok _ _ _ _ _ (loadN_run _ _ _ _ Hi)).
      change (String.eqb (Name stringSchema) "") with true. cbv iota.
      rewrite (bind_ok _ _ _ _ _ (loadN_run _ _ _ _ Hl)).
      change (String.eqb (Name (mkSchema "" "" ARRAY descr None None None ref (Some i))) "")
        with true. cbv iota.
      rewrite (bind_ok _ _ _
                 (<[l := withTitle (mkSchema "" "" ARRAY descr None None None ref (Some i)) name]> h,
                  wrapInt (count + 1)) tt).
      * rewrite (bind_ok _ _ _ _ _ (loadN_run _ _ _ _ Hl1)).
        rewrite (assignTitle_run _ _ _ _ _ Hi1).
        change (Name (withTitle (mkSchema "" "" ARRAY descr None None None ref (Some i)) name))
          with (if String.eqb name "" then "" else name).
        rewrite Hname1. reflexivity.
      * unfold nextAnonymous at 1. unfold bind at 1. cbn [fst snd].
        exact (assignTitle_run _ _ _ _ _ Hl).
  - change (2 + fuel) with (S (S fuel)). cbn [processSchema deref].
    rewrite Hl'. unfold processNode. cbn [Type_ Items withTitle].
    unfold bind at 1. cbn [processSchema deref]. rewrite Hi'.
    cbn [processNode Type_ withTitle stringSchema]. unfold ret at 1.
    rewrite (Name_withTitle _ name Hname1).
    pose proof (camelCase_anonymous (formatInt (wrapInt (count + 1)))) as Hcc.
    fold name in Hcc. apply String.eqb_neq in Hcc. rewrite Hcc. cbv iota.
    rewrite Hcc. cbn [negb]. fold typeName. unfold bind, emit.
    destruct (writeGoCode sink typeName _ st) as [[err|] st']; reflexivity.
Qed.

End ArrayOfStrings.

Lemma unnamed_string_array_witness :
  let arr := mkSchema "" "" ARRAY "" None None None "" (Some 0) in
  let s := mkProcessor false [("c.json", 1)] in
  processSchema noMarshal sinkOk s 2 [stringSchema; arr] (Some 1) initialSynth
  = (Ok "[]string", initialSynth)
  /\ setTitle s 2 "c.json" (Some 1) ([stringSchema; arr], 0%Z)
     = (Ok tt, ([withTitle stringSchema "AnonymousObject1Item";
                 withTitle arr "AnonymousObject1"], 1%Z)).
Proof.
  intros arr s.
  assert (Hne : 0 <> 1) by discriminate.
  pose proof (unnamed_string_array noMarshal sinkOk s "c.json" [stringSchema; arr] 0%Z 1 0
                arr initialSynth 0 eq_refl eq_refl eq_refl eq_refl eq_refl eq_refl eq_refl
                Hne eq_refl) as (H1 & H2 & _).
  split; [exact H1 | exact H2].
Defined.

(** C7 as stated fails: in the pipeline the array of strings without a
    title gets the name AnonymousObject1, synthesis returns that name and
    not []string, and a declaration is emitted for the array. *)
Lemma unnamed_string_array_counterexample :
  Load [("c.json", stringArrayDoc)]
  = ([("c.json", 1)],
     [stringSchema; mkSchema "" "" ARRAY "" None None None "" (Some 0)])
  /\ ParseSchema (mkProcessor false [("c.json", 1)]) 10 "c.json" (Some 1)
       ([stringSchema; mkSchema "" "" ARRAY "" None None None "" (Some 0)], 0%Z)
     = (Ok (Some 1),
        ([withTitle stringSchema "AnonymousObject1Item";
          mkSchema "AnonymousObject1" "" ARRAY "" None None None "" (Some 0)], 1%Z))
  /\ fst (processSchema noMarshal sinkOk (mkProcessor false [("c.json", 1)]) 10
            [withTitle stringSchema "AnonymousObject1Item";
             mkSchema "AnonymousObject1" "" ARRAY "" None None None "" (Some 0)]
            (Some 1) initialSynth)
     = Ok "AnonymousObject1"
  /\ emitted (snd (snd (run noMarshal sinkOk false 10 [("c.json", stringArrayDoc)])))
     = [("AnonymousObject1", "type AnonymousObject1 []string" +:+ newline +:+ newline)].
Proof. repeat split; vm_compute; reflexivity. Qed.

(** ** Sorting the keys *)

Lemma leb_refl (a : string) : String.leb a a = true.
Proof. destruct (String.leb_total a a); assumption. Qed.

Lemma leb_cases (a b : string) :
  String.leb a b = true <-> a = b \/ String_as_OT.lt a b.
Proof.
  unfold String.leb. change (String.compare a b) with (String_as_OT.compare a b).
  destruct (String_as_OT.compare_spec a b) as [Heq|Hlt|Hgt]; split; intros H;
    try discriminate; auto.
  destruct H as [->|H].
  - exfalso. exact (StrictOrder_Irreflexive _ Hgt).
  - exfalso. exact (StrictOrder_Irreflexive _ (StrictOrder_Transitive _ _ _ H Hgt)).
Qed.

Lemma leb_trans (a b c : string) :
  String.leb a b = true -> String.leb b c = true -> String.leb a c = true.
Proof.
  rewrite !leb_cases. intros [->|Hab] [->|Hbc]; auto.
  right. exact (StrictOrder_Transitive _ _ _ Hab Hbc).
Qed.

Lemma leb_false (a b : string) : String.leb a b = false -> String.leb b a = true.
Proof. intros H. destruct (String.leb_total a b) as [H'|H']; congruence. Qed.

Lemma insertString_perm (k : string) (keys : list string) :
  Permutation (insertString k keys) (k :: keys).
Proof.
  induction keys as [|k' keys IH]; cbn; [reflexivity|].
  destruct (String.leb k k'); [reflexivity|].
  rewrite IH. apply perm_swap.
Qed.

Lemma sortStrings_perm (keys : list string) : Permutation (sortStrings keys) keys.
Proof.
  induction keys as [|k keys IH]; cbn; [reflexivity|].
  rewrite insertString_perm. now constructor.
Qed.

Lemma insertString_ascending (k : string) (keys : list string) :
  ascending keys -> ascending (insertString k keys).
Proof.
  unfold ascending. induction keys as [|k' keys IH]; intros Hs; cbn.
  - repeat constructor.
  - apply StronglySorted_inv in Hs as [Hs Hall].
    destruct (String.leb k k') eqn:Hk.
    + constructor; [now constructor|]. constructor; [exact Hk|].
      eapply Forall_impl; [exact Hall|]. intros x Hx. cbn in Hx. now apply leb_trans with k'.
    + constructor; [now apply IH|].
      apply leb_false in Hk.
      eapply Permutation_Forall; [symmetry; apply insertString_perm|].
      now constructor.
Qed.

Lemma sortStrings_ascending (keys : list string) : ascending (sortStrings keys).
Proof.
  induction keys as [|k keys IH]; cbn; [constructor|].
  now apply insertString_ascending.
Qed.

Lemma insertString_comm (a b : string) (keys : list string) :
  insertString a (insertString b keys) = insertString b (insertString a keys).
Proof.
  induction keys as [|c keys IH]; cbn.
  - destruct (String.leb a b) eqn:Hab, (String.leb b a) eqn:Hba; try reflexivity.
    + now rewrite (String.leb_antisym _ _ Hab Hba).
    + apply leb_false in Hab. congruence.
  - destruct (String.leb b c) eqn:Hbc, (String.leb a c) eqn:Hac; cbn;
      rewrite ?Hbc, ?Hac.
    + destruct (String.leb a b) eqn:Hab, (String.leb b a) eqn:Hba; try reflexivity.
      * now rewrite (String.leb_antisym _ _ Hab Hba).
      * apply leb_false in Hab. congruence.
    + destruct (String.leb a b) eqn:Hab; [|reflexivity].
      rewrite (leb_trans _ _ _ Hab Hbc) in Hac. discriminate.
    + destruct (String.leb b a) eqn:Hba; [|reflexivity].
      rewrite (leb_trans _ _ _ Hba Hac) in Hbc. discriminate.
    + now rewrite IH.
Qed.

Lemma sortStrings_permutation (keys keys' : list string) :
  Permutation keys keys' -> sortStrings keys = sortStrings keys'.
Proof.
  induction 1 as [|x l l' _ IH|x y l|l l' l'' _ IH1 _ IH2]; cbn.
  - reflexivity.
  - now rewrite IH.
  - apply insertString_comm.
  - congruence.
Qed.

Lemma sortedKeys_permutation {V} (m m' : list (string * V)) :
  Permutation m m' -> sortedKeys m = sortedKeys m'.
Proof.
  intros H. unfold sortedKeys. apply sortStrings_permutation.
  now apply Permutation_map.
Qed.

Lemma lookupKey_permutation {V} (k : string) (m m' : list (string * V)) :
  NoDup (List.map fst m) -> Permutation m m' -> lookupKey k m = lookupKey k m'.
Proof.
  intros Hnd Hp. induction Hp as [|[k1 v1] l l' Hp IH|[k1 v1] [k2 v2] l|l l' l'' Hp1 IH1 Hp2 IH2].
  - reflexivity.
  - cbn in *. apply NoDup_cons in Hnd as [_ Hnd]. now rewrite IH.
  - cbn in *. apply NoDup_cons in Hnd as [Hin _].
    destruct (String.eqb_spec k2 k) as [->|], (String.eqb_spec k1 k) as [->|]; try reflexivity.
    exfalso. apply Hin. now left.
  - rewrite IH1 by exact Hnd. apply IH2.
    assert (Hm : List.map fst l ≡ₚ List.map fst l') by now apply Permutation_map.
    now rewrite <- Hm.
Qed.

(** ** Objects with properties: the fields of the struct *)

Lemma bind_inv_ok {S A B} (m : M S A) (k : A -> M S B) (s s' : S) (b : B) :
  bind m k s = (Ok b, s') -> exists a s1, m s = (Ok a, s1) /\ k a s1 = (Ok b, s').
Proof.
  unfold bind. destruct (m s) as [[a| | |] s1]; intros H; try discriminate H.
  now exists a, s1.
Qed.

Section ObjectProperties.
Variable marshalIndent : heap -> option loc -> string.
Variable sink : list (string * string) -> string -> string -> option string.

Lemma processSchema_unfold (s : SchemaProcessor) (fuel : nat) (h : heap) (schema : option loc) :
  processSchema marshalIndent sink s (S fuel) h schema
  = match deref h schema with
    | Ok node => processNode sink (processSchema marshalIndent sink s fuel h)
                             (structComment marshalIndent s h schema) node
    | _ => stop Panic
    end.
Proof. reflexivity. Qed.

Lemma emit_inv_ok (typeName code : string) (st st' : SynthState) (u : unit) :
  emit sink typeName code st = (Ok u, st') ->
  writeGoCode sink typeName code st = (None, st').
Proof.
  unfold emit. destruct (writeGoCode sink typeName code st) as [[err|] st1];
    intros H; [discriminate H | injection H as _ <-; reflexivity].
Qed.

Lemma structFields_text (rec : option loc -> M SynthState string)
    (props : list (string * loc)) (keys : list string) :
  forall typeData st text st',
    structFields rec props keys typeData st = (Ok text, st') ->
    exists subs,
      Forall2 (fun k sub => exists sa sb, rec (lookupKey k props) sa = (Ok sub, sb)) keys subs
      /\ text = typeData +:+ fieldLines keys subs.
Proof.
  induction keys as [|k keys IH]; intros typeData st text st' H; cbn [structFields] in H.
  - injection H as <- <-. exists []. split; [constructor|]. cbn. now rewrite append_nil_r.
  - apply bind_inv_ok in H as (sub & st1 & Hrec & H).
    apply IH in H as (subs & Hall & ->).
    exists (sub :: subs). split.
    + constructor; [now exists st, st1 | exact Hall].
    + cbn [fieldLines]. apply append_assoc.
Qed.

Lemma structFields_same_lookups (rec : option loc -> M SynthState string)
    (props props' : list (string * loc)) (keys : list string) :
  (forall k, lookupKey k props' = lookupKey k props) ->
  forall typeData st,
    structFields rec props' keys typeData st = structFields rec props keys typeData st.
Proof.
  intros Hsame. induction keys as [|k keys IH]; intros typeData st; cbn [structFields].
  - reflexivity.
  - rewrite Hsame. unfold bind. destruct (rec (lookupKey k props) st) as [[sub| | |] st1];
      try reflexivity.
    apply IH.
Qed.

(** C4: for an object node with properties, the keys that the synthesizer
    walks are the property keys in ascending order; the declaration it
    requests is the header, one field line for each key in that order
    (with the type reference synthesis gave for the schema under that
    key) and the footer; and another order of the entries of the property
    map gives the same outcome and the same state. *)
Theorem struct_fields_sorted (s : SchemaProcessor) (fuel : nat) (h : heap) (l : loc)
    (schema : Schema) (props : list (string * loc)) :
  h !! l = Some schema ->
  Type_ schema = OBJECT ->
  Properties schema = Some props ->
  NoDup (List.map fst props) ->
  let keys := sortedKeys props in
  let typeName := camelCase (Name schema) in
  let rec := processSchema marshalIndent sink s fuel h in
  let comment := structComment marshalIndent s h (Some l) in
  ascending keys
  /\ Permutation keys (List.map fst props)
  /\ (forall st ty st',
         processSchema marshalIndent sink s (S fuel) h (Some l) st = (Ok ty, st') ->
         ty = "*" +:+ typeName
         /\ exists subs st1,
              Forall2 (fun k sub => exists sa sb, rec (lookupKey k props) sa = (Ok sub, sb))
                      keys subs
              /\ writeGoCode sink typeName
                   (structHeader (comment typeName) typeName
                    +:+ fieldLines keys subs +:+ structFooter) st1
                 = (None, st'))
  /\ (forall props' st,
         Permutation props props' ->
         processNode sink rec comment (withProperties schema props') st
         = processSchema marshalIndent sink s (S fuel) h (Some l) st).
Proof.
  intros Hl Hty Hprops Hnd keys typeName rec comment.
  split; [apply sortStrings_ascending|].
  split; [apply sortStrings_perm|].
  split.
  - intros st ty st' H. rewrite processSchema_unfold in H. cbn [deref] in H.
    rewrite Hl in H. unfold processNode in H. rewrite Hty, Hprops in H.
    apply bind_inv_ok in H as (text & st1 & Hfields & H).
    apply bind_inv_ok in H as (u & st2 & Hemit & H).
    injection H as <- <-. split; [reflexivity|].
    apply structFields_text in Hfields as (subs & Hall & ->).
    exists subs, st1. split; [exact Hall|].
    apply emit_inv_ok in Hemit. rewrite <- append_assoc. exact Hemit.
  - intros props' st Hperm. rewrite processSchema_unfold. cbn [deref]. rewrite Hl.
    unfold processNode. cbn [withProperties Type_ Properties Name Title ID].
    rewrite Hty, Hprops. fold (Name schema).
    rewrite <- (sortedKeys_permutation _ _ Hperm). fold rec comment.
    unfold bind.
    rewrite (structFields_same_lookups rec props props' (sortedKeys props)
               (fun k => eq_sym (lookupKey_permutation k props props' Hnd Hperm))).
    reflexivity.
Qed.

End ObjectProperties.

(** ** Objects with pattern properties: the last pattern decides *)

Lemma last_cons {A} (a d : A) (xs : list A) : List.last (a :: xs) d = List.last xs a.
Proof.
  revert a d. induction xs as [|x xs IH]; intros a d; [reflexivity|].
  change (List.last (a :: x :: xs) d) with (List.last (x :: xs) d).
  now rewrite (IH x d), (IH x a).
Qed.

Lemma last_map_cons {A B} (f : A -> B) (a d : A) (xs : list A) (d' : B) :
  List.last (List.map f (a :: xs)) d' = f (List.last (a :: xs) d).
Proof.
  revert a. induction xs as [|x xs IH]; intros a; [reflexivity|].
  change (List.last (List.map f (a :: x :: xs)) d') with (List.last (List.map f (x :: xs)) d').
  change (List.last (a :: x :: xs) d) with (List.last (x :: xs) d).
  apply IH.
Qed.

Lemma ascending_last (keys : list string) (k : string) :
  ascending keys -> In k keys -> String.leb k (List.last keys "") = true.
Proof.
  unfold ascending. revert k. induction keys as [|a keys IH]; intros k Hs Hin; [destruct Hin|].
  apply StronglySorted_inv in Hs as [Hs Hall].
  destruct keys as [|b keys].
  - destruct Hin as [<-|[]]. apply leb_refl.
  - change (List.last (a :: b :: keys) "") with (List.last (b :: keys) "").
    destruct Hin as [<-|Hin]; [|now apply IH].
    apply leb_trans with b.
    + now apply Forall_inv in Hall.
    + apply IH; [exact Hs | now left].
Qed.

#[local] Instance cacheGrows_preorder : PreOrder cacheGrows.
Proof.
  split.
  - intros st name H. exact H.
  - intros a b c Hab Hbc name H. exact (Hbc _ (Hab _ H)).
Qed.

Section PatternProperties.
Variable marshalIndent : heap -> option loc -> string.
Variable sink : list (string * string) -> string -> string -> option string.

Lemma writeGoCode_cacheGrows (typeName code : string) (st : SynthState) :
  cacheGrows st (snd (writeGoCode sink typeName code st)).
Proof.
  intros name H. destruct (alreadyProcessed st typeName) eqn:Hseen.
  - now rewrite writeGoCode_seen.
  - rewrite writeGoCode_fresh by exact Hseen.
    destruct st as [cache out]. cbn [processed emitted].
    rewrite (alreadyProcessed_insert cache _ typeName name).
    change (alreadyProcessed (mkSynth cache (out ++ [(typeName, code)])) name)
      with (alreadyProcessed (mkSynth cache out) name).
    rewrite H. apply orb_true_r.
Qed.

Lemma emit_cacheGrows (typeName code : string) :
  respects cacheGrows (emit sink typeName code).
Proof.
  intros st r st' H. rewrite (emit_result _ _ _ _ _ _ H). apply writeGoCode_cacheGrows.
Qed.

Lemma patternTypes_rounds (rec : option loc -> M SynthState string)
    (comment : string -> string) (pats : list (string * loc)) (keys : list string) :
  forall typeName st ty st',
    patternTypes sink rec comment pats keys typeName st = (Ok ty, st') ->
    exists subs,
      patternRounds sink rec comment pats keys subs st st'
      /\ ty = List.last (List.map patternRef subs) typeName.
Proof.
  induction keys as [|k keys IH]; intros typeName st ty st' H; cbn [patternTypes] in H.
  - injection H as <- <-. now exists [].
  - apply bind_inv_ok in H as (sub & st1 & Hrec & H).
    apply bind_inv_ok in H as (typeName' & st2 & Hround & H).
    apply IH in H as (subs & Hrounds & ->).
    assert (Hst2 : typeName' = patternRef sub
                   /\ if isTitled sub
                      then writeGoCode sink (mapName sub)
                             (mapDecl (comment (mapName sub)) (mapName sub) sub) st1
                           = (None, st2)
                      else st2 = st1).
    { unfold patternRef. destruct (isTitled sub).
      - apply bind_inv_ok in Hround as (u & st3 & Hemit & Hret).
        injection Hret as <- <-. split; [reflexivity|]. now apply emit_inv_ok in Hemit.
      - injection Hround as <- <-. now split. }
    destruct Hst2 as [-> Hw].
    exists (sub :: subs). split.
    + cbn [patternRounds]. now exists st1, st2.
    + cbn [List.map]. now rewrite last_cons.
Qed.

Lemma patternRounds_last (rec : option loc -> M SynthState string)
    (comment : string -> string) (pats : list (string * loc)) (keys : list string) :
  forall subs st st',
    keys <> [] ->
    patternRounds sink rec comment pats keys subs st st' ->
    subs <> []
    /\ exists sa sb, rec (lookupKey (List.last keys "") pats) sa = (Ok (List.last subs ""), sb).
Proof.
  induction keys as [|k keys IH]; intros subs st st' Hne H; [contradiction|].
  destruct subs as [|sub subs]; [destruct H|].
  cbn [patternRounds] in H. destruct H as (st1 & st2 & Hrec & _ & Hrest).
  split; [discriminate|].
  destruct keys as [|k2 keys].
  - destruct subs; [|destruct Hrest]. now exists st, st1.
  - destruct (IH subs st2 st' ltac:(discriminate) Hrest) as (Hsubs & sa & sb & Hlast).
    destruct subs as [|sub2 subs]; [contradiction|].
    now exists sa, sb.
Qed.

Lemma patternRounds_cache (rec : option loc -> M SynthState string)
    (comment : string -> string) (pats : list (string * loc)) (keys : list string) :
  (forall p, respects cacheGrows (rec p)) ->
  forall subs st st',
    patternRounds sink rec comment pats keys subs st st' ->
    cacheGrows st st'
    /\ forall sub, In sub subs -> isTitled sub = true ->
                   alreadyProcessed st' (mapName sub) = true.
Proof.
  intros Hrec. induction keys as [|k keys IH]; intros subs st st' H.
  - destruct subs; [|destruct H]. cbn in H. subst st'. split; [reflexivity|intros sub []].
  - destruct subs as [|sub subs]; [destruct H|].
    cbn [patternRounds] in H. destruct H as (st1 & st2 & Hr & Hw & Hrest).
    apply Hrec in Hr. apply IH in Hrest as [Hgrow Hall].
    assert (H12 : cacheGrows st1 st2
                  /\ (isTitled sub = true -> alreadyProcessed st2 (mapName sub) = true)).
    { destruct (isTitled sub).
      - pose proof (writeGoCode_cacheGrows (mapName sub)
                      (mapDecl (comment (mapName sub)) (mapName sub) sub) st1) as Hg.
        pose proof (writeGoCode_marks sink (mapName sub)
                      (mapDecl (comment (mapName sub)) (mapName sub) sub) st1) as Hm.
        rewrite Hw in Hg, Hm. cbn in Hg, Hm. now split.
      - subst st2. split; [reflexivity | discriminate]. }
    destruct H12 as [H12 Hmark]. split.
    + etransitivity; [exact Hr|]. etransitivity; [exact H12 | exact Hgrow].
    + intros sub' [<-|Hin] Ht; [apply Hgrow; now apply Hmark | now apply Hall].
Qed.

(** C10: for an object node with pattern properties and no properties,
    the synthesizer goes through the pattern keys in ascending order; in
    each round it synthesizes the value schema of the key and, when the
    result is a titled type name, requests the declaration of [<name>Map];
    the type reference it returns is the one of the last round, the round
    of the greatest key; and every requested map name is in the cache
    afterwards. *)
Theorem pattern_properties_last_wins (s : SchemaProcessor) (fuel : nat) (h : heap)
    (l : loc) (schema : Schema) (pats : list (string * loc)) :
  h !! l = Some schema ->
  Type_ schema = OBJECT ->
  Properties schema = None ->
  PatternProperties schema = Some pats ->
  2 <= length pats ->
  let keys := sortedKeys pats in
  let greatest := List.last keys "" in
  let rec := processSchema marshalIndent sink s fuel h in
  let comment := structComment marshalIndent s h (Some l) in
  ascending keys
  /\ Permutation keys (List.map fst pats)
  /\ (forall k, In k (List.map fst pats) -> String.leb k greatest = true)
  /\ (forall st ty st',
         processSchema marshalIndent sink s (S fuel) h (Some l) st = (Ok ty, st') ->
         exists subs,
           patternRounds sink rec comment pats keys subs st st'
           /\ (exists sa sb, rec (lookupKey greatest pats) sa = (Ok (List.last subs ""), sb))
           /\ ty = patternRef (List.last subs "")
           /\ (forall sub, In sub subs -> isTitled sub = true ->
                           alreadyProcessed st' (mapName sub) = true)).
Proof.
  intros Hl Hty Hprops Hpats Hlen keys greatest rec comment.
  assert (Hasc : ascending keys) by apply sortStrings_ascending.
  assert (Hperm : Permutation keys (List.map fst pats)) by apply sortStrings_perm.
  assert (Hne : keys <> []).
  { intros Hnil. apply Permutation_length in Hperm.
    rewrite Hnil, length_map in Hperm. cbn in Hperm. lia. }
  split; [exact Hasc|]. split; [exact Hperm|]. split.
  - intros k Hk. apply ascending_last; [exact Hasc|].
    eapply Permutation_in; [symmetry; exact Hperm | exact Hk].
  - intros st ty st' H. rewrite processSchema_unfold in H. cbn [deref] in H.
    rewrite Hl in H. unfold processNode in H. rewrite Hty, Hprops, Hpats in H.
    apply patternTypes_rounds in H as (subs & Hrounds & ->).
    exists subs.
    destruct (patternRounds_last _ _ _ _ _ _ _ Hne Hrounds) as (Hsubs & Hlast).
    split; [exact Hrounds|]. split; [exact Hlast|]. split.
    + destruct subs as [|sub subs]; [contradiction|]. apply last_map_cons.
    + assert (Hrec : forall p, respects cacheGrows (rec p)).
      { intros p. apply (processSchema_respects marshalIndent sink cacheGrows).
        exact emit_cacheGrows. }
      exact (proj2 (patternRounds_cache rec comment pats keys Hrec subs st st' Hrounds)).
Qed.

End PatternProperties.

Lemma struct_fields_sorted_witness :
  sortedKeys [("id", 0); ("count", 1)] = ["count"; "id"]
  /\ ascending (sortedKeys [("id", 0); ("count", 1)])
  /\ fst (processSchema noMarshal sinkOk (mkProcessor false []) 2 widgetHeap (Some 2)
            initialSynth)
     = Ok ("*" +:+ camelCase "Widget").
Proof.
  assert (Hnd : NoDup (List.map fst [("id", 0); ("count", 1)])).
  { apply (bool_decide_unpack _). vm_compute. reflexivity. }
  destruct (struct_fields_sorted noMarshal sinkOk (mkProcessor false []) 1 widgetHeap 2
              (mkSchema "Widget" "" OBJECT "" None (Some [("id", 0); ("count", 1)]) None "" None)
              [("id", 0); ("count", 1)] eq_refl eq_refl eq_refl Hnd)
    as (Hasc & _ & Hrun & _).
  split; [reflexivity|]. split; [exact Hasc|].
  destruct (processSchema noMarshal sinkOk (mkProcessor false []) 2 widgetHeap (Some 2)
              initialSynth) as [r st'] eqn:Hp.
  assert (Hr : r = Ok "*Widget").
  { change r with (fst (r, st')). rewrite <- Hp. vm_compute. reflexivity. }
  subst r. destruct (Hrun _ _ _ Hp) as [-> _]. reflexivity.
Defined.

Lemma pattern_properties_last_wins_witness :
  sortedKeys [("^b", 1); ("^a", 0)] = ["^a"; "^b"]
  /\ exists subs,
       fst (processSchema noMarshal sinkOk (mkProcessor false []) 3 patternHeap (Some 2)
              initialSynth)
       = Ok (patternRef (List.last subs ""))
       /\ patternRef (List.last subs "") = "TagMap".
Proof.
  assert (Hlen : 2 <= length [("^b", 1); ("^a", 0)]) by (cbn; lia).
  destruct (pattern_properties_last_wins noMarshal sinkOk (mkProcessor false []) 2
              patternHeap 2
              (mkSchema "Tags" "" OBJECT "" None None (Some [("^b", 1); ("^a", 0)]) "" None)
              [("^b", 1); ("^a", 0)] eq_refl eq_refl eq_refl eq_refl Hlen)
    as (_ & _ & _ & Hrun).
  split; [reflexivity|].
  destruct (processSchema noMarshal sinkOk (mkProcessor false []) 3 patternHeap (Some 2)
              initialSynth) as [r st'] eqn:Hp.
  assert (Hr : r = Ok "TagMap").
  { change r with (fst (r, st')). rewrite <- Hp. vm_compute. reflexivity. }
  subst r. destruct (Hrun _ _ _ Hp) as (subs & _ & _ & Hty & _).
  exists subs. cbn [fst]. rewrite <- Hty. now split.
Defined.

(** ** Name assigner: a second pass changes nothing *)

Lemma withTitle_same (node : Schema) : withTitle node (Title node) = node.
Proof. now destruct node. Qed.

Lemma withTitle_twice (node : Schema) (t1 t2 : string) :
  withTitle (withTitle node t1) t2 = withTitle node t2.
Proof. reflexivity. Qed.

Lemma shapeKept_refl (node : Schema) : shapeKept node node.
Proof. split; [symmetry; apply withTitle_same | auto]. Qed.

Lemma shapeKept_trans (a b c : Schema) : shapeKept a b -> shapeKept b c -> shapeKept a c.
Proof.
  intros [Hab Hnab] [Hbc Hnbc]. split; [|auto].
  rewrite Hbc at 1. rewrite Hab. apply withTitle_twice.
Qed.

#[local] Instance titlesGrow_preorder : PreOrder titlesGrow.
Proof.
  split.
  - intros st l node H. exists node. split; [exact H | apply shapeKept_refl].
  - intros a b c Hab Hbc l node H.
    destruct (Hab _ _ H) as (nb & Hb & Hsb). destruct (Hbc _ _ Hb) as (nc & Hc & Hsc).
    exists nc. split; [exact Hc | exact (shapeKept_trans _ _ _ Hsb Hsc)].
Qed.

Lemma titleFromKey_named (h : heap) (count : Z) (k : string) (v : loc) :
  childNamed h k v -> titleFromKey k v (h, count) = (Ok tt, (h, count)).
Proof.
  intros (member & Hv & Hk). unfold titleFromKey.
  rewrite (bind_ok _ _ _ _ _ (loadN_run _ _ _ _ Hv)).
  destruct (String.eqb_spec (Name member) "") as [Hname|Hname]; [|reflexivity].
  rewrite (assignTitle_run _ _ _ _ _ Hv), (Hk Hname).
  destruct (Name_empty _ Hname) as [Ht _].
  rewrite <- Ht, withTitle_same, list_insert_id by exact Hv. reflexivity.
Qed.

Lemma forEntries_fixed (s : SchemaProcessor) (fuel : nat) (reference : string)
    (P : loc -> Prop) (h : heap) (count : Z) (m : option (list (string * loc))) :
  entriesSettled P h m ->
  (forall v, P v -> setTitle s fuel reference (Some v) (h, count) = (Ok tt, (h, count))) ->
  forEntries m (fun k v => let* _ := titleFromKey k v in setTitle s fuel reference (Some v))
             (h, count)
  = (Ok tt, (h, count)).
Proof.
  intros Hm Hrec. destruct m as [entries|]; [|reflexivity]. cbn in *.
  induction Hm as [|[k v] entries [Hnamed HP] _ IH]; [reflexivity|].
  cbn [forEach fst snd].
  rewrite (bind_ok _ _ _ (h, count) tt); [exact IH|].
  rewrite (bind_ok _ _ _ _ _ (titleFromKey_named h count k v Hnamed)).
  now apply Hrec.
Qed.

Lemma settled_fixed (s : SchemaProcessor) (reference : string) (fuel : nat) :
  forall (h : heap) (l : loc) (count : Z),
    settled fuel h l ->
    setTitle s fuel reference (Some l) (h, count) = (Ok tt, (h, count)).
Proof.
  induction fuel as [|fuel IH]; intros h l count H; [destruct H|].
  destruct H as (node & Hl & Hd & Hp & Hpp & Hi).
  rewrite setTitle_unfold.
  rewrite (bind_ok _ _ _ _ _ (loadN_run _ _ _ _ Hl)).
  rewrite (bind_ok _ _ _ (h, count) tt)
    by (eapply forEntries_fixed; [exact Hd | intros v Hv; now apply IH]).
  rewrite (bind_ok _ _ _ _ _ (loadN_run _ _ _ _ Hl)).
  rewrite (bind_ok _ _ _ (h, count) tt)
    by (eapply forEntries_fixed; [exact Hp | intros v Hv; now apply IH]).
  rewrite (bind_ok _ _ _ _ _ (loadN_run _ _ _ _ Hl)).
  rewrite (bind_ok _ _ _ (h, count) tt)
    by (eapply forEntries_fixed; [exact Hpp | intros v Hv; now apply IH]).
  rewrite (bind_ok _ _ _ _ _ (loadN_run _ _ _ _ Hl)).
  destruct (Items node) as [i|]; [|reflexivity].
  destruct Hi as [(item & Hitem & Hname) Hset].
  rewrite (bind_ok _ _ _ (h, count) tt); [now apply IH|].
  unfold titleFromArray.
  rewrite (bind_ok _ _ _ _ _ (loadN_run _ _ _ _ Hitem)).
  apply String.eqb_neq in Hname. now rewrite Hname.
Qed.

Lemma loadN_same (p : option loc) (st : NameState) (r : outcome Schema) (st' : NameState) :
  loadN p st = (r, st') -> st' = st /\ r = deref (fst st) p.
Proof. unfold loadN. intros H. injection H as <- <-. now split. Qed.

Lemma loadN_grows (p : option loc) : respects titlesGrow (loadN p).
Proof. intros st r st' H. apply loadN_same in H as [-> _]. reflexivity. Qed.

Lemma assignTitle_grows (p : option loc) (title : string) (st : NameState)
    (r : outcome unit) (st' : NameState) :
  assignTitle p title st = (r, st') ->
  (title <> "" \/ exists node, deref (fst st) p = Ok node /\ Name node = "") ->
  titlesGrow st st'.
Proof.
  unfold assignTitle. intros H Hwhy.
  destruct (deref (fst st) p) as [node| | |] eqn:Hd;
    try (injection H as _ <-; reflexivity).
  destruct p as [l|]; [|injection H as _ <-; reflexivity].
  injection H as _ <-. cbn in Hd.
  destruct (fst st !! l) as [node0|] eqn:Hl; [|discriminate Hd].
  injection Hd as ->.
  intros l0 node0 H0. cbn [fst].
  destruct (decide (l0 = l)) as [->|Hne].
  - rewrite Hl in H0. injection H0 as <-.
    exists (withTitle node title). split.
    + apply list_lookup_insert_eq. eapply lookup_lt_Some. exact Hl.
    + split; [reflexivity|]. intros Hnamed.
      destruct Hwhy as [Ht|(node1 & Hn1 & Hempty)].
      * rewrite (Name_withTitle _ _ (proj2 (String.eqb_neq _ _) Ht)). exact Ht.
      * injection Hn1 as <-. contradiction.
  - exists node0. split; [|apply shapeKept_refl].
    rewrite list_lookup_insert_ne by congruence. exact H0.
Qed.

Lemma titleFromKey_grows (k : string) (v : loc) : respects titlesGrow (titleFromKey k v).
Proof.
  intros st r st' H. unfold titleFromKey, bind in H.
  destruct (loadN (Some v) st) as [o s1] eqn:Hload.
  apply loadN_same in Hload as [-> Ho].
  destruct o as [member| | |]; try (injection H as _ <-; reflexivity).
  destruct (String.eqb_spec (Name member) "") as [Hname|Hname].
  - eapply assignTitle_grows; [exact H|]. right. exists member. now split.
  - injection H as _ <-. reflexivity.
Qed.

Lemma append_nonempty (a b : string) : b <> "" -> a +:+ b <> "".
Proof.
  intros Hb H. apply (f_equal String.length) in H. rewrite length_append in H.
  destruct b; [contradiction | cbn in H; lia].
Qed.

Lemma titleFromArray_grows (schema : option loc) (items : loc) :
  respects titlesGrow (titleFromArray schema items).
Proof.
  unfold titleFromArray.
  rsp_bind; [apply loadN_grows|]. intros item.
  destruct (String.eqb (Name item) ""); [|rsp_ret].
  rsp_bind; [apply loadN_grows|]. intros node4.
  rsp_bind.
  - destruct (String.eqb (Name node4) ""); [|rsp_ret].
    rsp_bind.
    + intros st r st' H. unfold nextAnonymous in H. injection H as _ <-.
      intros l node Hl. exists node. split; [exact Hl | apply shapeKept_refl].
    + intros c st r st' H. eapply assignTitle_grows; [exact H|]. left. discriminate.
  - intros _. rsp_bind; [apply loadN_grows|]. intros node5.
    intros st r st' H. eapply assignTitle_grows; [exact H|]. left.
    apply append_nonempty. discriminate.
Qed.

Lemma setTitle_grows (s : SchemaProcessor) (reference : string) (fuel : nat) :
  forall schema, respects titlesGrow (setTitle s fuel reference schema).
Proof.
  induction fuel as [|fuel IH]; intros schema; [rsp_stop|].
  rewrite setTitle_unfold.
  assert (Hloop : forall m, respects titlesGrow
            (forEntries m (fun k v => let* _ := titleFromKey k v in
                                      setTitle s fuel reference (Some v)))).
  { intros m. rsp_forEntries. intros k v.
    rsp_bind; [apply titleFromKey_grows | intros _; apply IH]. }
  rsp_bind; [apply loadN_grows|]. intros node0.
  rsp_bind; [apply Hloop|]. intros _.
  rsp_bind; [apply loadN_grows|]. intros node1.
  rsp_bind; [apply Hloop|]. intros _.
  rsp_bind; [apply loadN_grows|]. intros node2.
  rsp_bind; [apply Hloop|]. intros _.
  rsp_bind; [apply loadN_grows|]. intros node3.
  destruct (Items node3) as [i|]; [|rsp_ret].
  rsp_bind; [apply titleFromArray_grows | intros _; apply IH].
Qed.

Lemma childNamed_mono (st st' : NameState) (k : string) (v : loc) :
  titlesGrow st st' -> childNamed (fst st) k v -> childNamed (fst st') k v.
Proof.
  intros Hg (member & Hv & Hk). destruct (Hg _ _ Hv) as (member' & Hv' & _ & Hkeep).
  exists member'. split; [exact Hv'|]. intros Hempty.
  destruct (String.eqb_spec (Name member) "") as [Hname|Hname]; [now apply Hk|].
  now apply Hkeep in Hname.
Qed.

Lemma itemNamed_mono (st st' : NameState) (i : loc) :
  titlesGrow st st' -> itemNamed (fst st) i -> itemNamed (fst st') i.
Proof.
  intros Hg (item & Hi & Hname). destruct (Hg _ _ Hi) as (item' & Hi' & _ & Hkeep).
  exists item'. split; [exact Hi' | now apply Hkeep].
Qed.

Lemma settled_mono (fuel : nat) :
  forall (st st' : NameState) (l : loc),
    titlesGrow st st' -> settled fuel (fst st) l -> settled fuel (fst st') l.
Proof.
  induction fuel as [|fuel IH]; intros st st' l Hg H; [destruct H|].
  destruct H as (node & Hl & Hd & Hp & Hpp & Hi).
  destruct (Hg _ _ Hl) as (node' & Hl' & Hshape & _).
  assert (Hentries : forall m, entriesSettled (settled fuel (fst st)) (fst st) m ->
                               entriesSettled (settled fuel (fst st')) (fst st') m).
  { intros [entries|] Hm; [|exact I]. cbn in *.
    eapply Forall_impl; [exact Hm|]. intros [k v] [Hn Hs]. cbn in *. split.
    - now apply (childNamed_mono st st').
    - now apply (IH st st'). }
  exists node'. split; [exact Hl'|]. rewrite Hshape. cbn [withTitle Definitions Properties
    PatternProperties Items].
  split; [now apply Hentries|]. split; [now apply Hentries|]. split; [now apply Hentries|].
  destruct (Items node) as [i|]; [|exact I].
  destruct Hi as [Hin His]. split.
  - now apply (itemNamed_mono st st').
  - now apply (IH st st').
Qed.

Lemma titleFromKey_names (k : string) (v : loc) (st st' : NameState) (u : unit) :
  titleFromKey k v st = (Ok u, st') -> childNamed (fst st') k v.
Proof.
  intros H. unfold titleFromKey in H.
  apply bind_inv_ok in H as (member & s1 & Hload & H).
  apply loadN_same in Hload as [-> Hd]. cbn in Hd.
  destruct (fst st !! v) as [member0|] eqn:Hv; [|discriminate Hd].
  injection Hd as <-.
  destruct (String.eqb_spec (Name member) "") as [Hname|Hname].
  - destruct st as [h c].
    rewrite (assignTitle_run _ _ _ _ _ Hv) in H. injection H as _ <-. cbn [fst] in *.
    exists (withTitle member k). split.
    + apply list_lookup_insert_eq. eapply lookup_lt_Some. exact Hv.
    + intros Hempty. destruct (String.eqb_spec k "") as [->|Hk]; [reflexivity|].
      rewrite (Name_withTitle _ _ (proj2 (String.eqb_neq _ _) Hk)) in Hempty. contradiction.
  - injection H as _ <-. exists member. split; [exact Hv | intros; contradiction].
Qed.

Lemma forEach_settles (s : SchemaProcessor) (reference : string) (fuel : nat) :
  (forall v st st' u, setTitle s fuel reference (Some v) st = (Ok u, st') ->
                      settled fuel (fst st') v) ->
  forall entries st st' u,
    forEach (fun kv : string * loc =>
               let* _ := titleFromKey (fst kv) (snd kv) in
               setTitle s fuel reference (Some (snd kv))) entries st = (Ok u, st') ->
    Forall (fun kv => childNamed (fst st') (fst kv) (snd kv) /\ settled fuel (fst st') (snd kv))
           entries.
Proof.
  intros IH. induction entries as [|[k v] entries IHe]; intros st st' u H; [constructor|].
  cbn [forEach fst snd] in H.
  apply bind_inv_ok in H as (u1 & s1 & Hbody & Hrest).
  apply bind_inv_ok in Hbody as (u0 & s0 & Hkey & Hset).
  assert (Hg : titlesGrow s1 st').
  { eapply (respects_forEach titlesGrow); [|exact Hrest].
    intros [k' v'] _. rsp_bind; [apply titleFromKey_grows | intros _; apply setTitle_grows]. }
  constructor; [|now apply (IHe s1 st' u)].
  cbn [fst snd]. split.
  - apply (childNamed_mono s1 st' k v Hg).
    apply (childNamed_mono s0 s1 k v).
    + exact (setTitle_grows s reference fuel _ _ _ _ Hset).
    + exact (titleFromKey_names _ _ _ _ _ Hkey).
  - apply (settled_mono fuel s1 st' v Hg). exact (IH _ _ _ _ Hset).
Qed.

Lemma forEntries_settles (s : SchemaProcessor) (reference : string) (fuel : nat) :
  (forall v st st' u, setTitle s fuel reference (Some v) st = (Ok u, st') ->
                      settled fuel (fst st') v) ->
  forall m st st' u,
    forEntries m (fun k v => let* _ := titleFromKey k v in
                             setTitle s fuel reference (Some v)) st = (Ok u, st') ->
    entriesSettled (settled fuel (fst st')) (fst st') m
    /\ titlesGrow st st'.
Proof.
  intros IH m st st' u H. split.
  - destruct m as [entries|]; [|exact I]. cbn in *.
    exact (forEach_settles s reference fuel IH entries st st' u H).
  - eapply (respects_forEntries titlesGrow); [|exact H].
    intros k v. rsp_bind; [apply titleFromKey_grows | intros _; apply setTitle_grows].
Qed.

Lemma entriesSettled_mono (fuel : nat) (st st' : NameState) (m : option (list (string * loc))) :
  titlesGrow st st' ->
  entriesSettled (settled fuel (fst st)) (fst st) m ->
  entriesSettled (settled fuel (fst st')) (fst st') m.
Proof.
  intros Hg Hm. destruct m as [entries|]; [|exact I]. cbn in *.
  eapply Forall_impl; [exact Hm|]. intros [k v] [Hn Hs]. cbn in *. split.
  - now apply (childNamed_mono st st').
  - now apply (settled_mono fuel st st').
Qed.

Lemma titleFromArray_names (schema : option loc) (items : loc) (st st' : NameState)
    (u : unit) :
  titleFromArray schema items st = (Ok u, st') -> itemNamed (fst st') items.
Proof.
  intros H. unfold titleFromArray in H.
  apply bind_inv_ok in H as (item & s0 & Hload & H).
  apply loadN_same in Hload as [-> Hd]. cbn in Hd.
  destruct (fst st !! items) as [item0|] eqn:Hi; [|discriminate Hd].
  injection Hd as <-.
  destruct (String.eqb_spec (Name item) "") as [Hname|Hname].
  - apply bind_inv_ok in H as (node & s1 & Hload & H).
    apply loadN_same in Hload as [-> _].
    apply bind_inv_ok in H as (u1 & s2 & _ & H).
    apply bind_inv_ok in H as (node' & s3 & Hload & H).
    apply loadN_same in Hload as [-> _].
    unfold assignTitle in H.
    destruct (deref (fst s2) (Some items)) as [item2| | |] eqn:Hd; try discriminate H.
    injection H as _ <-. cbn in Hd.
    destruct (fst s2 !! items) as [item3|] eqn:Hi2; [|discriminate Hd].
    injection Hd as ->. cbn [fst].
    exists (withTitle item2 (Name node' +:+ "Item")). split.
    + apply list_lookup_insert_eq. eapply lookup_lt_Some. exact Hi2.
    + assert (Hne : Name node' +:+ "Item" <> "") by (apply append_nonempty; discriminate).
      now rewrite (Name_withTitle _ _ (proj2 (String.eqb_neq _ _) Hne)).
  - injection H as _ <-. now exists item.
Qed.

Lemma setTitle_settles (s : SchemaProcessor) (reference : string) (fuel : nat) :
  forall (l : loc) (st st' : NameState) (u : unit),
    setTitle s fuel reference (Some l) st = (Ok u, st') -> settled fuel (fst st') l.
Proof.
  induction fuel as [|fuel IH]; intros l st st' u H; [discriminate H|].
  pose proof (setTitle_grows s reference (S fuel) _ _ _ _ H) as Hall.
  rewrite setTitle_unfold in H.
  apply bind_inv_ok in H as (node0 & s0 & Hload & H).
  apply loadN_same in Hload as [-> Hd0]. cbn in Hd0.
  destruct (fst st !! l) as [n0|] eqn:Hl0; [|discriminate Hd0]. injection Hd0 as <-.
  apply bind_inv_ok in H as (u1 & s1 & Hloop1 & H).
  destruct (forEntries_settles s reference fuel IH _ _ _ _ Hloop1) as [Hd Hg1].
  apply bind_inv_ok in H as (node1 & s1' & Hload & H).
  apply loadN_same in Hload as [-> Hd1].
  destruct (Hg1 _ _ Hl0) as (n1 & Hl1 & Hshape1 & _).
  cbn in Hd1. rewrite Hl1 in Hd1. injection Hd1 as <-.
  apply bind_inv_ok in H as (u2 & s2 & Hloop2 & H).
  destruct (forEntries_settles s reference fuel IH _ _ _ _ Hloop2) as [Hp Hg2].
  apply bind_inv_ok in H as (node2 & s2' & Hload & H).
  apply loadN_same in Hload as [-> Hd2].
  destruct (Hg2 _ _ Hl1) as (n2 & Hl2 & Hshape2 & _).
  cbn in Hd2. rewrite Hl2 in Hd2. injection Hd2 as <-.
  apply bind_inv_ok in H as (u3 & s3 & Hloop3 & H).
  destruct (forEntries_settles s reference fuel IH _ _ _ _ Hloop3) as [Hpp Hg3].
  apply bind_inv_ok in H as (node3 & s3' & Hload & H).
  apply loadN_same in Hload as [-> Hd3].
  destruct (Hg3 _ _ Hl2) as (n3 & Hl3 & Hshape3 & _).
  cbn in Hd3. rewrite Hl3 in Hd3. injection Hd3 as <-.
  assert (Hfields : Definitions node3 = Definitions node0
                    /\ Properties node3 = Properties node1
                    /\ PatternProperties node3 = PatternProperties node2).
  { rewrite Hshape3, Hshape2, Hshape1. now repeat split. }
  destruct Hfields as (Ed & Ep & Epp).
  assert (Hend : titlesGrow s3 st'
                 /\ match Items node3 with
                    | None => True
                    | Some i => itemNamed (fst st') i /\ settled fuel (fst st') i
                    end).
  { destruct (Items node3) as [i|].
    - apply bind_inv_ok in H as (u4 & s4 & Hitem & H).
      pose proof (titleFromArray_grows _ _ _ _ _ Hitem) as Hg4.
      pose proof (setTitle_grows s reference fuel _ _ _ _ H) as Hg5.
      split; [etransitivity; eassumption|]. split.
      + apply (itemNamed_mono s4 st' i Hg5). exact (titleFromArray_names _ _ _ _ _ Hitem).
      + exact (IH _ _ _ _ H).
    - injection H as _ <-. split; [reflexivity | exact I]. }
  destruct Hend as [Hg4 Hitems].
  destruct (Hg4 _ _ Hl3) as (nf & Hlf & Hshapef & _).
  exists nf. split; [exact Hlf|]. rewrite Hshapef.
  cbn [withTitle Definitions Properties PatternProperties Items].
  rewrite Ed, Ep, Epp.
  split; [|split; [|split; [|exact Hitems]]].
  - apply (entriesSettled_mono fuel s1 st'); [|exact Hd].
    etransitivity; [exact Hg2|]. etransitivity; [exact Hg3 | exact Hg4].
  - apply (entriesSettled_mono fuel s2 st'); [|exact Hp].
    etransitivity; [exact Hg3 | exact Hg4].
  - apply (entriesSettled_mono fuel s3 st'); [|exact Hpp]. exact Hg4.
Qed.

(** C9: when the name assigner has run over a schema and returned, a
    second run over the same schema returns as well and leaves every
    node of the heap and the anonymous-object counter as they are. *)
Theorem setTitle_idempotent (s : SchemaProcessor) (fuel : nat) (reference : string)
    (schema : option loc) (h h' : heap) (count count' : Z) :
  setTitle s fuel reference schema (h, count) = (Ok tt, (h', count')) ->
  setTitle s fuel reference schema (h', count') = (Ok tt, (h', count')).
Proof.
  intros H. destruct schema as [l|].
  - apply settled_fixed. exact (setTitle_settles s reference fuel l _ _ _ H).
  - destruct fuel; discriminate H.
Qed.

Lemma setTitle_idempotent_witness :
  let s := mkProcessor false [("c.json", 1)] in
  let h := [stringSchema; mkSchema "" "" ARRAY "" None None None "" (Some 0)] in
  let h' := [withTitle stringSchema "AnonymousObject1Item";
             mkSchema "AnonymousObject1" "" ARRAY "" None None None "" (Some 0)] in
  setTitle s 5 "c.json" (Some 1) (h, 0%Z) = (Ok tt, (h', 1%Z))
  /\ setTitle s 5 "c.json" (Some 1) (h', 1%Z) = (Ok tt, (h', 1%Z)).
Proof.
  intros s h h'.
  assert (H : setTitle s 5 "c.json" (Some 1) (h, 0%Z) = (Ok tt, (h', 1%Z)))
    by (vm_compute; reflexivity).
  split; [exact H|]. exact (setTitle_idempotent s 5 "c.json" (Some 1) h h' 0%Z 1%Z H).
Defined.

(** ** Reference resolver: termination on acyclic references *)

Lemma load_run (h : heap) (l : loc) (node : Schema) :
  h !! l = Some node -> load (Some l) h = (Ok node, h).
Proof. intros H. unfold load. cbn. now rewrite H. Qed.

Lemma store_run (h : heap) (l : loc) (node : Schema) :
  l < length h -> store (Some l) node h = (Ok tt, <[l := node]> h).
Proof. intros H. unfold store. now destruct (decide (l < length h)). Qed.

Lemma resolveRefs_unfold (s : SchemaProcessor) (fuel : nat) (reference : string)
    (schema : option loc) :
  resolveRefs s (S fuel) reference schema
  = (let* node := load schema in
     let* _ :=
       (if String.eqb (Ref node) "" then ret tt
        else
          let* ctx := walkPath s reference (CtxSchema schema)
                               (GoStrings.splitSlash (Ref node)) in
          let* _ := copyFrom ctx schema in
          resolveRefs s fuel reference schema) in
     let* node := load schema in
     let* _ := forEntries (Definitions node)
                 (fun _ v => resolveRefs s fuel reference (Some v)) in
     let* node := load schema in
     let* _ := forEntries (Properties node)
                 (fun _ v => resolveRefs s fuel reference (Some v)) in
     let* node := load schema in
     let* _ := forEntries (PatternProperties node)
                 (fun _ v => resolveRefs s fuel reference (Some v)) in
     let* node := load schema in
     match Items node with
     | None => ret tt
     | Some items => resolveRefs s fuel reference (Some items)
     end).
Proof. reflexivity. Qed.

Lemma agree_refl (h : heap) : agree h h.
Proof. intros l node H _. exact H. Qed.

Lemma agree_trans (a b c : heap) : agree a b -> agree b c -> agree a c.
Proof. intros Hab Hbc l node H Hr. apply Hbc; [now apply Hab | exact Hr]. Qed.

Lemma frozenNode_deref (h : heap) (p : option loc) (node : Schema) :
  frozenNode h p = Some node -> deref h p = Ok node /\ Ref node = "".
Proof.
  unfold frozenNode. destruct (deref h p) as [n| | |]; try discriminate.
  destruct (String.eqb_spec (Ref n) ""); [|discriminate].
  intros H. injection H as <-. now split.
Qed.

Lemma frozenNode_agree (h h' : heap) (p : option loc) (node : Schema) :
  agree h h' -> frozenNode h p = Some node -> frozenNode h' p = Some node.
Proof.
  intros Ha H. destruct (frozenNode_deref _ _ _ H) as [Hd Hr].
  unfold frozenNode. destruct p as [l|]; [|discriminate Hd]. cbn in *.
  destruct (h !! l) as [n|] eqn:Hl; [|discriminate Hd]. injection Hd as ->.
  rewrite (Ha _ _ Hl Hr). now rewrite Hr.
Qed.

Lemma frozenField_agree (h h' : heap) (holder : Schema) (cur : option Ctx)
    (field : Schema -> Ctx) (cur' : option Ctx) :
  agree h h' ->
  frozenField h holder cur field = Some cur' -> frozenField h' holder cur field = Some cur'.
Proof.
  intros Ha. unfold frozenField. destruct cur as [[p|m]|]; try discriminate; [|exact (fun H => H)].
  destruct (frozenNode h p) as [node|] eqn:Hn; [|discriminate].
  now rewrite (frozenNode_agree _ _ _ _ Ha Hn).
Qed.

Lemma frozenStep_agree (s : SchemaProcessor) (h h' : heap) (holder : Schema)
    (cur : option Ctx) (part : string) (cur' : option Ctx) :
  agree h h' ->
  frozenStep s h holder cur part = Some cur' -> frozenStep s h' holder cur part = Some cur'.
Proof.
  intros Ha. unfold frozenStep.
  repeat match goal with
         | |- context [if ?b then _ else _] => destruct b
         end; try exact (fun H => H); apply frozenField_agree; exact Ha.
Qed.

Lemma frozenWalk_agree (s : SchemaProcessor) (h h' : heap) (holder : Schema)
    (schemaPath : list string) :
  agree h h' ->
  forall cur r, frozenWalk s h holder cur schemaPath = Some r ->
                frozenWalk s h' holder cur schemaPath = Some r.
Proof.
  intros Ha. induction schemaPath as [|part rest IH]; intros cur r H; [exact H|].
  cbn [frozenWalk] in *.
  destruct (frozenStep s h holder cur part) as [cur'|] eqn:Hs; [|discriminate H].
  rewrite (frozenStep_agree _ _ _ _ _ _ _ Ha Hs). now apply IH.
Qed.

Lemma frozenTarget_agree (s : SchemaProcessor) (h h' : heap) (holder : Schema) (t : loc) :
  agree h h' -> frozenTarget s h holder = Some t -> frozenTarget s h' holder = Some t.
Proof.
  intros Ha. unfold frozenTarget.
  destruct (frozenWalk s h holder None (GoStrings.splitSlash (Ref holder))) as [r|] eqn:Hw;
    [|discriminate].
  now rewrite (frozenWalk_agree _ _ _ _ _ Ha _ _ Hw).
Qed.

Lemma frozenField_sound (s : SchemaProcessor) (reference : string) (h : heap)
    (holder : Schema) (l : loc) (cur cur' : option Ctx) (field : Schema -> Ctx) :
  h !! l = Some holder ->
  frozenField h holder cur field = Some cur' ->
  (let* node := asSchema (realCtx cur (CtxSchema (Some l))) in ret (field node)) h
  = (Ok (realCtx cur' (CtxSchema (Some l))), h).
Proof.
  intros Hl. unfold frozenField. destruct cur as [[p|m]|]; try discriminate.
  - destruct (frozenNode h p) as [node|] eqn:Hn; [|discriminate].
    intros H. injection H as <-. apply frozenNode_deref in Hn as [Hd _].
    cbn [realCtx asSchema]. unfold bind, load. now rewrite Hd.
  - intros H. injection H as <-.
    cbn [realCtx asSchema]. now rewrite (bind_ok _ _ _ _ _ (load_run _ _ _ Hl)).
Qed.

Lemma frozenStep_sound (s : SchemaProcessor) (reference : string) (h : heap)
    (holder : Schema) (l : loc) (cur cur' : option Ctx) (part : string) :
  h !! l = Some holder ->
  frozenStep s h holder cur part = Some cur' ->
  walkStep s reference (realCtx cur (CtxSchema (Some l))) part h
  = (Ok (realCtx cur' (CtxSchema (Some l))), h).
Proof.
  intros Hl. unfold frozenStep, walkStep.
  destruct (String.eqb part "#"); [discriminate|].
  destruct (GoStrings.HasSuffix part "#").
  { destruct (lookupKey (dropLast part) (schemas s)); [|discriminate].
    intros H. now injection H as <-. }
  destruct (String.eqb part "definitions"); [now apply (frozenField_sound s reference)|].
  destruct (String.eqb part "properties"); [now apply (frozenField_sound s reference)|].
  destruct (String.eqb part "patternProperties");
    [now apply (frozenField_sound s reference)|].
  destruct (String.eqb part "items"); [now apply (frozenField_sound s reference)|].
  destruct cur as [[p|m]|]; intros H; injection H as <-; reflexivity.
Qed.

Lemma frozenWalk_sound (s : SchemaProcessor) (reference : string) (h : heap)
    (holder : Schema) (l : loc) (schemaPath : list string) :
  h !! l = Some holder ->
  forall cur r,
    frozenWalk s h holder cur schemaPath = Some r ->
    walkPath s reference (realCtx cur (CtxSchema (Some l))) schemaPath h
    = (Ok (realCtx r (CtxSchema (Some l))), h).
Proof.
  intros Hl.
  induction schemaPath as [|part rest IH]; intros cur r H; cbn [frozenWalk walkPath] in *.
  - now injection H as <-.
  - destruct (frozenStep s h holder cur part) as [cur'|] eqn:Hs; [|discriminate H].
    rewrite (bind_ok _ _ _ _ _ (frozenStep_sound s reference h holder l cur cur' part Hl Hs)).
    now apply IH.
Qed.

Lemma frozenTarget_sound (s : SchemaProcessor) (reference : string) (h : heap)
    (holder : Schema) (l t : loc) :
  h !! l = Some holder ->
  frozenTarget s h holder = Some t ->
  walkPath s reference (CtxSchema (Some l)) (GoStrings.splitSlash (Ref holder)) h
  = (Ok (CtxSchema (Some t)), h).
Proof.
  intros Hl. unfold frozenTarget.
  destruct (frozenWalk s h holder None (GoStrings.splitSlash (Ref holder))) as [r|] eqn:Hw;
    [|discriminate].
  intros H. apply (frozenWalk_sound s reference h holder l _ Hl) in Hw. cbn [realCtx] in Hw.
  rewrite Hw. destruct r as [[[t'|]|m]|]; try discriminate H. now injection H as ->.
Qed.

Section Acyclic.
Variable s : SchemaProcessor.
Variable reference : string.

Lemma acyclic_unfold (h : heap) (n : nat) (l : loc) :
  acyclic s h (S n) l
  = match h !! l with
    | Some node => acyclicNode s h (acyclic s h n) node
    | None => false
    end.
Proof. reflexivity. Qed.

Lemma acyclicNode_step (h h' : heap) (below below' : loc -> bool) (node : Schema) :
  agree h h' ->
  (forall r, below r = true -> below' r = true) ->
  acyclicNode s h below node = true -> acyclicNode s h' below' node = true.
Proof.
  intros Ha Hb. unfold acyclicNode. destruct (String.eqb (Ref node) "").
  - rewrite !forallb_forall. intros H v Hv. apply Hb. now apply H.
  - destruct (frozenTarget s h node) as [t|] eqn:Ht; [|discriminate].
    rewrite (frozenTarget_agree _ _ _ _ _ Ha Ht). apply Hb.
Qed.

Lemma acyclic_mono (h : heap) (n : nat) :
  forall r, acyclic s h n r = true -> acyclic s h (S n) r = true.
Proof.
  induction n as [|n IH]; intros r H; [discriminate H|].
  rewrite acyclic_unfold in *. destruct (h !! r) as [node|]; [|discriminate H].
  exact (acyclicNode_step h h _ _ node (agree_refl h) IH H).
Qed.

Lemma acyclic_alias (h : heap) (n : nat) (a b : loc) (node : Schema) :
  h !! a = Some node -> h !! b = Some node -> acyclic s h n a = acyclic s h n b.
Proof.
  intros Ha Hb. destruct n as [|n]; [reflexivity|]. now rewrite !acyclic_unfold, Ha, Hb.
Qed.

Lemma agree_copy (h : heap) (l : loc) (node tn : Schema) :
  h !! l = Some node -> Ref node <> "" -> agree h (<[l := tn]> h).
Proof.
  intros Hl Hr x nx Hx Hrx. rewrite list_lookup_insert_ne; [exact Hx|].
  intros ->. rewrite Hl in Hx. injection Hx as <-. contradiction.
Qed.

(** The struct copy [*schema = *cast] keeps every chain as short as it
    was: the node that held the reference now is what its target is. *)
Lemma acyclic_copy (h : heap) (l t : loc) (node tn : Schema) :
  h !! l = Some node ->
  Ref node <> "" ->
  frozenTarget s h node = Some t ->
  h !! t = Some tn ->
  forall m r, acyclic s h m r = true -> acyclic s (<[l := tn]> h) m r = true.
Proof.
  intros Hl Hr Ht Htn.
  pose proof (agree_copy h l node tn Hl Hr) as Ha.
  assert (Hll : l < length h) by (eapply lookup_lt_Some; exact Hl).
  assert (Hl1 : <[l := tn]> h !! l = Some tn) by now apply list_lookup_insert_eq.
  assert (Ht1 : <[l := tn]> h !! t = Some tn).
  { destruct (decide (t = l)) as [->|Hne]; [exact Hl1|].
    rewrite list_lookup_insert_ne by congruence. exact Htn. }
  induction m as [|m IH]; intros r H; [discriminate H|].
  rewrite acyclic_unfold in H. rewrite acyclic_unfold.
  destruct (decide (r = l)) as [->|Hne].
  - rewrite Hl in H. rewrite Hl1. unfold acyclicNode in H.
    rewrite (proj2 (String.eqb_neq _ _) Hr), Ht in H.
    apply IH in H. destruct m as [|m]; [discriminate H|].
    rewrite acyclic_unfold, Ht1 in H.
    exact (acyclicNode_step _ _ _ _ tn (agree_refl _) (acyclic_mono _ m) H).
  - rewrite list_lookup_insert_ne by congruence.
    destruct (h !! r) as [nr|]; [|discriminate H].
    exact (acyclicNode_step _ _ _ _ nr Ha IH H).
Qed.

Lemma keepsAcyclic_refl (h : heap) : keepsAcyclic s h h.
Proof. split; [reflexivity|]. split; [apply agree_refl|]. intros m r H. exact H. Qed.

Lemma keepsAcyclic_trans (a b c : heap) :
  keepsAcyclic s a b -> keepsAcyclic s b c -> keepsAcyclic s a c.
Proof.
  intros (Hl1 & Ha1 & Hc1) (Hl2 & Ha2 & Hc2).
  split; [congruence|]. split; [exact (agree_trans _ _ _ Ha1 Ha2)|].
  intros m r H. apply Hc2. now apply Hc1.
Qed.

Lemma forEntries_acyclic (fuel n : nat) :
  (forall h v, acyclic s h n v = true ->
               exists h', resolveRefs s fuel reference (Some v) h = (Ok tt, h')
                          /\ keepsAcyclic s h h') ->
  forall (entries : option (list (string * loc))) (h : heap),
    (forall v, In v (entryValues entries) -> acyclic s h n v = true) ->
    exists h', forEntries entries (fun _ v => resolveRefs s fuel reference (Some v)) h
               = (Ok tt, h')
               /\ keepsAcyclic s h h'.
Proof.
  intros Hcall [entries|] h Hall; cbn [forEntries].
  2: { exists h. split; [reflexivity | apply keepsAcyclic_refl]. }
  cbn [entryValues] in Hall. revert h Hall.
  induction entries as [|[k v] entries IH]; intros h Hall.
  - exists h. split; [reflexivity | apply keepsAcyclic_refl].
  - cbn [List.map snd] in Hall.
    destruct (Hcall h v (Hall v (or_introl eq_refl))) as (h1 & Hrun & Hk1).
    destruct (IH h1) as (h2 & Hrun2 & Hk2).
    { intros v' Hv'. apply Hk1. apply Hall. now right. }
    exists h2. cbn [forEach fst snd]. rewrite (bind_ok _ _ _ _ _ Hrun).
    split; [exact Hrun2 | exact (keepsAcyclic_trans _ _ _ Hk1 Hk2)].
Qed.

Lemma resolveRefs_acyclic :
  forall (N fuel : nat) (h : heap) (l : loc),
    N <= fuel ->
    acyclic s h N l = true ->
    exists h',
      resolveRefs s fuel reference (Some l) h = (Ok tt, h')
      /\ keepsAcyclic s h h'
      /\ exists node', h' !! l = Some node' /\ Ref node' = "".
Proof.
  induction N as [|n IH]; intros fuel h l Hfuel Hac; [discriminate Hac|].
  destruct fuel as [|fuel]; [lia|].
  (* every nested call on a node with chains of at most n nodes returns *)
  assert (Hcall : forall h0 v, acyclic s h0 n v = true ->
                  exists h', resolveRefs s fuel reference (Some v) h0 = (Ok tt, h')
                             /\ keepsAcyclic s h0 h').
  { intros h0 v Hv. destruct (IH fuel h0 v ltac:(lia) Hv) as (h' & Hrun & Hk & _).
    now exists h'. }
  rewrite acyclic_unfold in Hac. destruct (h !! l) as [node|] eqn:Hl; [|discriminate Hac].
  (* the reference, if any, is followed to its end *)
  assert (Hphase : exists h2 node',
            (if String.eqb (Ref node) "" then ret tt
             else
               let* ctx := walkPath s reference (CtxSchema (Some l))
                                    (GoStrings.splitSlash (Ref node)) in
               let* _ := copyFrom ctx (Some l) in
               resolveRefs s fuel reference (Some l)) h = (Ok tt, h2)
            /\ keepsAcyclic s h h2
            /\ h2 !! l = Some node' /\ Ref node' = ""
            /\ forall v, In v (children node') -> acyclic s h2 n v = true).
  { unfold acyclicNode in Hac. destruct (String.eqb_spec (Ref node) "") as [Hr|Hr].
    - exists h, node. split; [reflexivity|]. split; [apply keepsAcyclic_refl|].
      split; [exact Hl|]. split; [exact Hr|]. now apply forallb_forall.
    - destruct (frozenTarget s h node) as [t|] eqn:Ht; [|discriminate Hac].
      assert (Htn : exists tn, h !! t = Some tn).
      { destruct n as [|n']; [discriminate Hac|]. rewrite acyclic_unfold in Hac.
        destruct (h !! t) as [tn|]; [now exists tn | discriminate Hac]. }
      destruct Htn as [tn Htn].
      assert (Hll : l < length h) by (eapply lookup_lt_Some; exact Hl).
      assert (Hk1 : keepsAcyclic s h (<[l := tn]> h)).
      { split; [apply length_insert|]. split; [exact (agree_copy h l node tn Hl Hr)|].
        exact (acyclic_copy h l t node tn Hl Hr Ht Htn). }
      assert (Hl1 : <[l := tn]> h !! l = Some tn) by now apply list_lookup_insert_eq.
      assert (Ht1 : <[l := tn]> h !! t = Some tn).
      { destruct (decide (t = l)) as [->|Hne]; [exact Hl1|].
        rewrite list_lookup_insert_ne by congruence. exact Htn. }
      assert (Hac1 : acyclic s (<[l := tn]> h) n l = true).
      { rewrite (acyclic_alias _ n l t tn Hl1 Ht1). now apply Hk1. }
      destruct (IH fuel (<[l := tn]> h) l ltac:(lia) Hac1)
        as (h2 & Hrun & Hk2 & node' & Hl2 & Hr2).
      exists h2, node'.
      rewrite (bind_ok _ _ _ _ _ (frozenTarget_sound s reference h node l t Hl Ht)).
      unfold copyFrom.
      rewrite (bind_ok _ _ _ (<[l := tn]> h) tt).
      2: { rewrite (bind_ok _ _ _ _ _ (load_run _ _ _ Htn)). now apply store_run. }
      split; [exact Hrun|]. split; [exact (keepsAcyclic_trans _ _ _ Hk1 Hk2)|].
      split; [exact Hl2|]. split; [exact Hr2|].
      pose proof (proj2 (proj2 Hk2) _ _ Hac1) as Hac2.
      destruct n as [|n']; [discriminate Hac2|].
      rewrite acyclic_unfold, Hl2 in Hac2. unfold acyclicNode in Hac2.
      rewrite (proj2 (String.eqb_eq _ _) Hr2) in Hac2.
      intros v Hv. apply acyclic_mono. rewrite forallb_forall in Hac2. now apply Hac2. }
  destruct Hphase as (h2 & node' & Hrun2 & Hk2 & Hl2 & Hr2 & Hch2).
  (* the members and the item, one loop after the other *)
  assert (Hloop : forall (hc : heap) (m : option (list (string * loc))),
            keepsAcyclic s h2 hc ->
            (forall v, In v (entryValues m) -> In v (children node')) ->
            exists h', forEntries m (fun _ v => resolveRefs s fuel reference (Some v)) hc
                       = (Ok tt, h')
                       /\ keepsAcyclic s h2 h').
  { intros hc m Hkc Hin.
    destruct (forEntries_acyclic fuel n Hcall m hc) as (h' & Hrun & Hk).
    - intros v Hv. apply Hkc. apply Hch2. now apply Hin.
    - exists h'. split; [exact Hrun | exact (keepsAcyclic_trans _ _ _ Hkc Hk)]. }
  assert (Hat : forall hc, keepsAcyclic s h2 hc -> hc !! l = Some node').
  { intros hc (_ & Ha & _). now apply Ha. }
  destruct (Hloop h2 (Definitions node') (keepsAcyclic_refl h2)) as (h3 & Hrun3 & Hk3).
  { intros v Hv. unfold children. apply in_or_app. now left. }
  destruct (Hloop h3 (Properties node') Hk3) as (h4 & Hrun4 & Hk4).
  { intros v Hv. unfold children. apply in_or_app. right. apply in_or_app. now left. }
  destruct (Hloop h4 (PatternProperties node') Hk4) as (h5 & Hrun5 & Hk5).
  { intros v Hv. unfold children. apply in_or_app. right. apply in_or_app. right.
    apply in_or_app. now left. }
  assert (Hitems : exists h6,
            match Items node' with
            | None => ret tt
            | Some items => resolveRefs s fuel reference (Some items)
            end h5 = (Ok tt, h6)
            /\ keepsAcyclic s h2 h6).
  { destruct (Items node') as [i|] eqn:Hi.
    - destruct (Hcall h5 i) as (h6 & Hrun6 & Hk6).
      + apply Hk5. apply Hch2. unfold children. rewrite Hi.
        apply in_or_app. right. apply in_or_app. right. apply in_or_app. right. now left.
      + exists h6. split; [exact Hrun6 | exact (keepsAcyclic_trans _ _ _ Hk5 Hk6)].
    - exists h5. split; [reflexivity | exact Hk5]. }
  destruct Hitems as (h6 & Hrun6 & Hk6).
  exists h6. rewrite resolveRefs_unfold.
  rewrite (bind_ok _ _ _ _ _ (load_run _ _ _ Hl)).
  rewrite (bind_ok _ _ _ _ _ Hrun2).
  rewrite (bind_ok _ _ _ _ _ (load_run _ _ _ Hl2)).
  rewrite (bind_ok _ _ _ _ _ Hrun3).
  rewrite (bind_ok _ _ _ _ _ (load_run _ _ _ (Hat h3 Hk3))).
  rewrite (bind_ok _ _ _ _ _ Hrun4).
  rewrite (bind_ok _ _ _ _ _ (load_run _ _ _ (Hat h4 Hk4))).
  rewrite (bind_ok _ _ _ _ _ Hrun5).
  rewrite (bind_ok _ _ _ _ _ (load_run _ _ _ (Hat h5 Hk5))).
  split; [exact Hrun6|]. split; [exact (keepsAcyclic_trans _ _ _ Hk2 Hk6)|].
  exists node'. split; [exact (Hat h6 Hk6) | exact Hr2].
Qed.

End Acyclic.

(** C2, as the code has it: when the chains from a node have no cycle and
    at most [N] nodes ([acyclic]: every reference on the way leads,
    through nodes that are no references themselves, to a node of the
    heap, and from there on), [resolveRefs] returns nil for every nesting
    depth from [N] on, and afterwards the node has an empty reference:
    the copy is followed by the call on the same node, then by the calls
    on its members and its item. *)
Theorem resolveRefs_terminates (s : SchemaProcessor) (reference : string) (h : heap)
    (l : loc) (N : nat) :
  acyclic s h N l = true ->
  forall fuel, N <= fuel ->
    exists h',
      resolveRefs s fuel reference (Some l) h = (Ok tt, h')
      /\ exists node, h' !! l = Some node /\ Ref node = "".
Proof.
  intros Hac fuel Hfuel.
  destruct (resolveRefs_acyclic s reference N fuel h l Hfuel Hac)
    as (h' & Hrun & _ & node' & Hl' & Hr).
  exists h'. split; [exact Hrun|]. now exists node'.
Qed.

Lemma resolveRefs_terminates_witness :
  acyclic (mkProcessor false [("x", 7)]) chainHeap 4 6 = true
  /\ exists h',
       resolveRefs (mkProcessor false [("x", 7)]) 4 "x" (Some 6) chainHeap = (Ok tt, h')
       /\ exists node, h' !! 6 = Some node /\ Ref node = "".
Proof.
  assert (Hac : acyclic (mkProcessor false [("x", 7)]) chainHeap 4 6 = true)
    by (vm_compute; reflexivity).
  split; [exact Hac|].
  apply (resolveRefs_terminates (mkProcessor false [("x", 7)]) "x" chainHeap 6 4 Hac 4).
  lia.
Defined.

(** C2 as stated fails: in this document no reference is part of a
    cycle and each leads to a node that exists and holds no reference,
    but the path of [P] passes through [X], which is a reference itself.
    When the definitions are resolved in the order [X], [Y], [P], the
    copy has replaced [X] by [Y] before the path of [P] is walked, the
    property [q] is gone and [resolveRefs] panics; in the order [P], [X],
    [Y] it returns nil. *)
Lemma resolveRefs_terminates_counterexample :
  let files := [("m.json", crossDoc [crossX; crossY; crossP])] in
  let s := mkProcessor false (fst (Load files)) in
  let h := snd (Load files) in
  let files' := [("m.json", crossDoc [crossP; crossX; crossY])] in
  fst (Load files) = [("m.json", 4)]
  /\ option_map Ref (h !! 1) = Some "m.json#/definitions/Y"
  /\ walkPath s "m.json" (CtxSchema (Some 1))
        (GoStrings.splitSlash "m.json#/definitions/Y") h
      = (Ok (CtxSchema (Some 2)), h)
  /\ option_map Ref (h !! 2) = Some ""
  /\ option_map Ref (h !! 3) = Some "m.json#/definitions/X/properties/q"
  /\ walkPath s "m.json" (CtxSchema (Some 3))
        (GoStrings.splitSlash "m.json#/definitions/X/properties/q") h
      = (Ok (CtxSchema (Some 0)), h)
  /\ option_map Ref (h !! 0) = Some ""
  /\ fst (resolveRefs s 10 "m.json" (Some 4) h) = Panic
  /\ fst (Load files') = [("m.json", 4)]
  /\ fst (resolveRefs (mkProcessor false (fst (Load files'))) 10 "m.json" (Some 4)
            (snd (Load files'))) = Ok tt.
Proof. repeat split; vm_compute; reflexivity. Qed.

(** ** More fuel *)

Lemma settlesTo_refl {S A} (m : M S A) : settlesTo m m.
Proof. intros st r st' H _. exact H. Qed.

Lemma settlesTo_bind {S A B} (m m' : M S A) (k k' : A -> M S B) :
  settlesTo m m' -> (forall a, settlesTo (k a) (k' a)) -> settlesTo (bind m k) (bind m' k').
Proof.
  intros Hm Hk st r st' H Hr. unfold bind in *.
  destruct (m st) as [o s1] eqn:Hms.
  destruct o as [a|msg| |].
  - rewrite (Hm _ _ _ Hms ltac:(discriminate)). now apply Hk.
  - rewrite (Hm _ _ _ Hms ltac:(discriminate)). exact H.
  - rewrite (Hm _ _ _ Hms ltac:(discriminate)). exact H.
  - injection H as <- _. contradiction.
Qed.

Lemma settlesTo_forEach {S A} (body body' : A -> M S unit) (xs : list A) :
  (forall x, settlesTo (body x) (body' x)) -> settlesTo (forEach body xs) (forEach body' xs).
Proof.
  intros Hb. induction xs as [|x xs IH]; cbn [forEach]; [apply settlesTo_refl|].
  apply settlesTo_bind; [apply Hb | intros _; exact IH].
Qed.

Lemma settlesTo_forEntries {S V} (m : option (list (string * V)))
    (body body' : string -> V -> M S unit) :
  (forall k v, settlesTo (body k v) (body' k v)) ->
  settlesTo (forEntries m body) (forEntries m body').
Proof.
  intros Hb. destruct m as [entries|]; cbn; [|apply settlesTo_refl].
  apply settlesTo_forEach. intros kv. apply Hb.
Qed.

Lemma settlesTo_stop_fuel {S A} (m : M S A) : settlesTo (stop OutOfFuel) m.
Proof. intros st r st' H Hr. injection H as <- _. contradiction. Qed.

Lemma resolveRefs_more_fuel (s : SchemaProcessor) (reference : string) (fuel : nat) :
  forall schema,
    settlesTo (resolveRefs s fuel reference schema) (resolveRefs s (S fuel) reference schema).
Proof.
  induction fuel as [|fuel IH]; intros schema; [apply settlesTo_stop_fuel|].
  rewrite (resolveRefs_unfold s (S fuel)), (resolveRefs_unfold s fuel).
  assert (Hloop : forall m,
            settlesTo (forEntries m (fun _ v => resolveRefs s fuel reference (Some v)))
                      (forEntries m (fun _ v => resolveRefs s (S fuel) reference (Some v)))).
  { intros m. apply settlesTo_forEntries. intros _ v. apply IH. }
  apply settlesTo_bind; [apply settlesTo_refl|]. intros node.
  apply settlesTo_bind.
  { destruct (String.eqb (Ref node) ""); [apply settlesTo_refl|].
    apply settlesTo_bind; [apply settlesTo_refl|]. intros ctx.
    apply settlesTo_bind; [apply settlesTo_refl|]. intros _. apply IH. }
  intros _. apply settlesTo_bind; [apply settlesTo_refl|]. intros node1.
  apply settlesTo_bind; [apply Hloop|]. intros _.
  apply settlesTo_bind; [apply settlesTo_refl|]. intros node2.
  apply settlesTo_bind; [apply Hloop|]. intros _.
  apply settlesTo_bind; [apply settlesTo_refl|]. intros node3.
  apply settlesTo_bind; [apply Hloop|]. intros _.
  apply settlesTo_bind; [apply settlesTo_refl|]. intros node4.
  destruct (Items node4); [apply IH | apply settlesTo_refl].
Qed.

Lemma setTitle_more_fuel (s : SchemaProcessor) (reference : string) (fuel : nat) :
  forall schema,
    settlesTo (setTitle s fuel reference schema) (setTitle s (S fuel) reference schema).
Proof.
  induction fuel as [|fuel IH]; intros schema; [apply settlesTo_stop_fuel|].
  rewrite (setTitle_unfold s (S fuel)), (setTitle_unfold s fuel).
  assert (Hloop : forall m,
            settlesTo (forEntries m (fun k v => let* _ := titleFromKey k v in
                                                setTitle s fuel reference (Some v)))
                      (forEntries m (fun k v => let* _ := titleFromKey k v in
                                                setTitle s (S fuel) reference (Some v)))).
  { intros m. apply settlesTo_forEntries. intros k v.
    apply settlesTo_bind; [apply settlesTo_refl | intros _; apply IH]. }
  apply settlesTo_bind; [apply settlesTo_refl|]. intros node1.
  apply settlesTo_bind; [apply Hloop|]. intros _.
  apply settlesTo_bind; [apply settlesTo_refl|]. intros node2.
  apply settlesTo_bind; [apply Hloop|]. intros _.
  apply settlesTo_bind; [apply settlesTo_refl|]. intros node3.
  apply settlesTo_bind; [apply Hloop|]. intros _.
  apply settlesTo_bind; [apply settlesTo_refl|]. intros node4.
  destruct (Items node4); [|apply settlesTo_refl].
  apply settlesTo_bind; [apply settlesTo_refl | intros _; apply IH].
Qed.

Section MoreFuel.
Variable marshalIndent : heap -> option loc -> string.
Variable sink : list (string * string) -> string -> string -> option string.

Lemma structFields_more_fuel (rec rec' : option loc -> M SynthState string)
    (props : list (string * loc)) (keys : list string) :
  (forall p, settlesTo (rec p) (rec' p)) ->
  forall typeData,
    settlesTo (structFields rec props keys typeData) (structFields rec' props keys typeData).
Proof.
  intros Hrec. induction keys as [|k keys IH]; intros typeData; cbn [structFields].
  - apply settlesTo_refl.
  - apply settlesTo_bind; [apply Hrec | intros sub; apply IH].
Qed.

Lemma patternTypes_more_fuel (rec rec' : option loc -> M SynthState string)
    (comment : string -> string) (pats : list (string * loc)) (keys : list string) :
  (forall p, settlesTo (rec p) (rec' p)) ->
  forall typeName,
    settlesTo (patternTypes sink rec comment pats keys typeName)
              (patternTypes sink rec' comment pats keys typeName).
Proof.
  intros Hrec. induction keys as [|k keys IH]; intros typeName; cbn [patternTypes].
  - apply settlesTo_refl.
  - apply settlesTo_bind; [apply Hrec|]. intros sub.
    apply settlesTo_bind; [apply settlesTo_refl | intros t; apply IH].
Qed.

Lemma processNode_more_fuel (rec rec' : option loc -> M SynthState string)
    (comment : string -> string) (schema : Schema) :
  (forall p, settlesTo (rec p) (rec' p)) ->
  settlesTo (processNode sink rec comment schema) (processNode sink rec' comment schema).
Proof.
  intros Hrec. unfold processNode.
  destruct (Type_ schema); try apply settlesTo_refl.
  - apply settlesTo_bind; [apply Hrec | intros sub; apply settlesTo_refl].
  - destruct (Properties schema) as [props|].
    + apply settlesTo_bind; [now apply structFields_more_fuel|].
      intros typeData. apply settlesTo_refl.
    + destruct (PatternProperties schema) as [pats|]; [|apply settlesTo_refl].
      now apply patternTypes_more_fuel.
Qed.

Lemma processSchema_more_fuel (s : SchemaProcessor) (h : heap) (fuel : nat) :
  forall schema,
    settlesTo (processSchema marshalIndent sink s fuel h schema)
              (processSchema marshalIndent sink s (S fuel) h schema).
Proof.
  induction fuel as [|fuel IH]; intros schema; [apply settlesTo_stop_fuel|].
  rewrite (processSchema_unfold marshalIndent sink s (S fuel)),
          (processSchema_unfold marshalIndent sink s fuel).
  destruct (deref h schema); try apply settlesTo_refl.
  apply processNode_more_fuel. exact IH.
Qed.

Lemma onHeap_more_fuel {A} (m m' : M heap A) :
  settlesTo m m' -> settlesTo (onHeap m) (onHeap m').
Proof.
  intros Hm st r st' H Hr. unfold onHeap in *.
  destruct (m (fst st)) as [r1 h1] eqn:Hms. injection H as <- <-.
  now rewrite (Hm _ _ _ Hms Hr).
Qed.

Lemma onNames_more_fuel {A} (m m' : M NameState A) :
  settlesTo m m' -> settlesTo (onNames m) (onNames m').
Proof.
  intros Hm st r st' H Hr. unfold onNames in *.
  destruct (m (fst st)) as [r1 ns] eqn:Hms. injection H as <- <-.
  now rewrite (Hm _ _ _ Hms Hr).
Qed.

Lemma onSynth_more_fuel {A} (m m' : heap -> M SynthState A) :
  (forall h, settlesTo (m h) (m' h)) -> settlesTo (onSynth m) (onSynth m').
Proof.
  intros Hm st r st' H Hr. unfold onSynth in *.
  destruct (m (fst (fst st)) (snd st)) as [r1 ss] eqn:Hms. injection H as <- <-.
  now rewrite (Hm _ _ _ _ Hms Hr).
Qed.

Lemma Process_more_fuel (s : SchemaProcessor) (fuel : nat) :
  settlesTo (Process marshalIndent sink s fuel) (Process marshalIndent sink s (S fuel)).
Proof.
  unfold Process. apply settlesTo_bind.
  - induction (schemas s) as [|[key schema] todo IH]; cbn [parseAll];
      [apply settlesTo_refl|].
    apply settlesTo_bind.
    + apply onNames_more_fuel. unfold ParseSchema.
      apply settlesTo_bind.
      * apply onHeap_more_fuel, resolveRefs_more_fuel.
      * intros _. apply settlesTo_bind; [apply setTitle_more_fuel|].
        intros _. apply settlesTo_refl.
    + intros target. apply settlesTo_bind; [exact IH | intros; apply settlesTo_refl].
  - intros targets. apply settlesTo_forEach. intros target.
    apply settlesTo_bind; [|intros; apply settlesTo_refl].
    apply onSynth_more_fuel. intros h. apply processSchema_more_fuel.
Qed.

(** A run that ends without running out of fuel ends the same way with
    any larger fuel. *)
Lemma run_more_fuel (comment : bool) (files : list (string * Tree)) (fuel extra : nat)
    (r : outcome unit) (st : RunState) :
  run marshalIndent sink comment fuel files = (r, st) ->
  r <> OutOfFuel ->
  run marshalIndent sink comment (fuel + extra) files = (r, st).
Proof.
  intros H Hr. induction extra as [|extra IH].
  - now rewrite Nat.add_0_r.
  - rewrite Nat.add_succ_r. unfold run in *. destruct (Load files) as [loaded h].
    now apply Process_more_fuel.
Qed.

End MoreFuel.

(** ** Two documents: Widget and an object that refers to it *)

Lemma run_settled (marshalIndent : heap -> option loc -> string)
    (sink : list (string * string) -> string -> string -> option string)
    (comment : bool) (files : list (string * Tree)) (fuel extra : nat) :
  fst (run marshalIndent sink comment fuel files) = Ok tt ->
  run marshalIndent sink comment (fuel + extra) files
  = run marshalIndent sink comment fuel files.
Proof.
  intros H. destruct (run marshalIndent sink comment fuel files) as [r st] eqn:Hrun.
  cbn in H. subst r. now apply run_more_fuel.
Qed.

(** C6 as the code has it.  The reference key of a file is its base name
    with the extension, so the reference has to name [a.json]; the name of
    a declaration comes from the title or id of its schema, so the object
    of [b.json] has to carry the title B.  Then the run succeeds and hands
    exactly two declarations to the output stage, Widget with the fields
    Count and ID (in key order) and B with the field W of type *Widget,
    whichever of the two files the processor visits first, for every
    allowance of nested calls from four on. *)
Theorem widget_scenario (marshalIndent : heap -> option loc -> string) (comment : bool)
    (extra : nat) :
  let a := ("a.json", definesWidget) in
  let b := ("b.json", usesWidget "B" "a.json#/definitions/Widget") in
  let fuel := 4 + extra in
  fst (run marshalIndent sinkOk comment fuel [a; b]) = Ok tt
  /\ List.map fst (emitted (snd (snd (run marshalIndent sinkOk comment fuel [a; b]))))
     = ["Widget"; "B"]
  /\ emitted (snd (snd (run marshalIndent sinkOk false fuel [a; b])))
     = [("Widget", widgetDecl); ("B", holderDecl "B")]
  /\ fst (run marshalIndent sinkOk comment fuel [b; a]) = Ok tt
  /\ List.map fst (emitted (snd (snd (run marshalIndent sinkOk comment fuel [b; a]))))
     = ["Widget"; "B"]
  /\ emitted (snd (snd (run marshalIndent sinkOk false fuel [b; a])))
     = [("Widget", widgetDecl); ("B", holderDecl "B")].
Proof.
  intros a b fuel. unfold fuel.
  rewrite !(run_settled marshalIndent sinkOk _ _ 4 extra)
    by (destruct comment; vm_compute; reflexivity).
  destruct comment; repeat split; vm_compute; reflexivity.
Qed.

(** C6 as stated fails.  With the reference [a#/definitions/Widget] the
    run ends with the error that the referenced file is not in the
    processing list, and nothing is emitted.  With the reference spelled
    [a.json#/definitions/Widget] but no title in [b.json], the second
    declaration has the empty name, not B. *)
Lemma widget_scenario_counterexample :
  getReferenceName "a.json" = "a.json"
  /\ fst (run noMarshal sinkOk false 10
            [("a.json", definesWidget); ("b.json", usesWidget "" "a#/definitions/Widget")])
     = Err ("Invalid reference file - please make sure the referenced files are in the processing list - "
            +:+ "b.json" +:+ " ? " +:+ "a")
  /\ emitted (snd (snd (run noMarshal sinkOk false 10
            [("a.json", definesWidget); ("b.json", usesWidget "" "a#/definitions/Widget")])))
     = []
  /\ emitted (snd (snd (run noMarshal sinkOk false 10
            [("a.json", definesWidget);
             ("b.json", usesWidget "" "a.json#/definitions/Widget")])))
     = [("Widget", widgetDecl); ("", holderDecl "")].
Proof. repeat split; vm_compute; reflexivity. Qed.

(** * Further properties of the code *)

(** ** [getReferenceName] *)

Lemma afterLastSlash_noSlash (file : string) : forall acc,
  (hasSlash file = false -> hasSlash acc = false) ->
  hasSlash (afterLastSlash acc file) = false.
Proof.
  induction file as [|c rest IH]; intros acc Hacc; cbn [afterLastSlash].
  - now apply Hacc.
  - destruct (Ascii.eqb c "/") eqn:Hc.
    + apply IH. exact (fun H => H).
    + apply IH. intros H. apply Hacc. cbn. now rewrite Hc.
Qed.

Lemma afterLastSlash_plain (name : string) : forall acc,
  hasSlash name = false -> afterLastSlash acc name = acc.
Proof.
  induction name as [|c rest IH]; intros acc H; [reflexivity|].
  cbn in H. apply orb_false_iff in H as [Hc Hrest].
  cbn [afterLastSlash]. rewrite Hc. now apply IH.
Qed.

Lemma afterLastSlash_dir (dir name : string) : forall acc,
  afterLastSlash acc (dir +:+ String "/" name) = afterLastSlash name name.
Proof.
  induction dir as [|c dir IH]; intros acc.
  - reflexivity.
  - rewrite append_cons. cbn [afterLastSlash]. destruct (Ascii.eqb c "/"); apply IH.
Qed.

(** X1. The reference key of a file never holds a slash; it is what
    follows the last slash of the file name, and the whole name when
    there is none. *)
Theorem getReferenceName_base :
  (forall file, hasSlash (getReferenceName file) = false)
  /\ (forall dir name, hasSlash name = false ->
                       getReferenceName (dir +:+ "/" +:+ name) = name
                       /\ getReferenceName name = name).
Proof.
  split.
  - intros file. unfold getReferenceName. apply afterLastSlash_noSlash. exact (fun H => H).
  - intros dir name H. unfold getReferenceName. split.
    + change ("/" +:+ name) with (String "/" name).
      rewrite afterLastSlash_dir. now apply afterLastSlash_plain.
    + now apply afterLastSlash_plain.
Qed.

Lemma getReferenceName_base_witness :
  hasSlash "a.json" = false
  /\ getReferenceName ("schemas/v1" +:+ "/" +:+ "a.json") = "a.json"
  /\ getReferenceName "a.json" = "a.json".
Proof.
  assert (H : hasSlash "a.json" = false) by reflexivity.
  split; [exact H|]. exact (proj2 getReferenceName_base "schemas/v1" "a.json" H).
Defined.

(** ** The loader passes *)

Lemma Tree_induction (P : Tree -> Prop) :
  (forall schema,
      entriesAll P (Definitions schema) ->
      entriesAll P (Properties schema) ->
      entriesAll P (PatternProperties schema) ->
      (forall i, Items schema = Some i -> P i) ->
      P (Node schema)) ->
  forall t, P t.
Proof.
  intros H. fix IH 1. intros [[title id ty descr defs props pats ref items]].
  apply H; cbn.
  - destruct defs as [entries|]; [|exact I]. cbn.
    induction entries as [|[k v] entries IHe]; constructor; [apply IH | exact IHe].
  - destruct props as [entries|]; [|exact I]. cbn.
    induction entries as [|[k v] entries IHe]; constructor; [apply IH | exact IHe].
  - destruct pats as [entries|]; [|exact I]. cbn.
    induction entries as [|[k v] entries IHe]; constructor; [apply IH | exact IHe].
  - intros i Hi. destruct items as [v|]; [|discriminate Hi].
    injection Hi as <-. apply IH.
Qed.

Lemma qualifyRef_idempotent (reference ref : string) :
  hasSlash reference = false ->
  qualifyRef reference (qualifyRef reference ref) = qualifyRef reference ref.
Proof.
  intros Hr. rewrite !qualifyRef_spec.
  destruct (startsAtHash ref) eqn:Hs; [|now rewrite Hs].
  destruct reference as [|c r].
  { change (EmptyString +:+ ref) with ref. now rewrite Hs. }
  assert (Hno : startsAtHash (String c r +:+ ref) = false); [|now rewrite Hno].
  cbn in Hr. apply orb_false_iff in Hr as [Hc Hr].
  unfold startsAtHash in *. rewrite append_cons.
  destruct ref as [|d ref']; [discriminate Hs|].
  assert (Hd : d = "#"%char).
  { apply orb_true_iff in Hs as [Hs|Hs].
    - apply String.eqb_eq in Hs. now injection Hs.
    - cbn in Hs. apply andb_true_iff in Hs as [Hs _]. now apply Ascii.eqb_eq in Hs. }
  subst d. apply orb_false_iff. split.
  - cbn. destruct (Ascii.eqb c "#"); [|reflexivity].
    destruct r; reflexivity.
  - cbn. destruct (Ascii.eqb c "#"); [|reflexivity]. cbn.
    destruct r as [|e r]; [reflexivity|]. rewrite append_cons.
    cbn in Hr. apply orb_false_iff in Hr as [He _]. cbn. now rewrite He.
Qed.

Lemma mapEntries_idempotent (f : Tree -> Tree) (m : option (list (string * Tree))) :
  entriesAll (fun v => f (f v) = f v) m ->
  mapEntries (fun _ v => f v) (mapEntries (fun _ v => f v) m) = mapEntries (fun _ v => f v) m.
Proof.
  destruct m as [entries|]; [|reflexivity]. cbn. intros H. f_equal.
  induction H as [|[k v] entries Hv _ IH]; [reflexivity|].
  cbn in *. now rewrite Hv, IH.
Qed.

(** X2. Qualifying the references of a document twice with a reference
    key (a string without a slash, as [getReferenceName] gives) is the
    same as qualifying them once. *)
Theorem updateReferencePath_idempotent (reference : string) :
  hasSlash reference = false ->
  forall t,
    updateReferencePath (updateReferencePath t reference) reference
    = updateReferencePath t reference.
Proof.
  intros Hr. induction t as [schema Hd Hp Hpp Hi] using Tree_induction.
  cbn [updateReferencePath Title ID Type_ Description Definitions Properties
       PatternProperties Ref Items].
  rewrite (mapEntries_idempotent (fun v => updateReferencePath v reference) _ Hd).
  rewrite (mapEntries_idempotent (fun v => updateReferencePath v reference) _ Hp).
  rewrite (mapEntries_idempotent (fun v => updateReferencePath v reference) _ Hpp).
  rewrite (qualifyRef_idempotent _ _ Hr).
  destruct (Items schema) as [i|]; cbn [option_map]; [|reflexivity].
  now rewrite (Hi i eq_refl).
Qed.

Lemma updateReferencePath_idempotent_witness :
  updateReferencePath
    (updateReferencePath (usesWidget "" "#/definitions/Widget") (getReferenceName "b.json"))
    (getReferenceName "b.json")
  = usesWidget "" "b.json#/definitions/Widget".
Proof.
  rewrite (updateReferencePath_idempotent (getReferenceName "b.json") eq_refl).
  reflexivity.
Defined.

Lemma refAt_updateReferencePath (reference : string) (path : list Step) :
  forall t : Tree,
    refAt path (updateReferencePath t reference)
    = option_map (qualifyRef reference) (refAt path t).
Proof.
  unfold refAt. induction path as [|step path IH]; intros t.
  - now destruct t.
  - cbn [nodeAt]. rewrite child_updateReferencePath.
    destruct (child step (nodeOf t)) as [c|]; [apply IH | reflexivity].
Qed.

Lemma startsAtHash_prefixed (reference ref : string) :
  reference <> "" -> hasSlash reference = false -> startsAtHash ref = true ->
  startsAtHash (reference +:+ ref) = false.
Proof.
  intros Hne Hr Hs. destruct reference as [|c r]; [contradiction|].
  cbn in Hr. apply orb_false_iff in Hr as [Hc Hr].
  unfold startsAtHash in *. rewrite append_cons.
  destruct ref as [|d ref']; [discriminate Hs|].
  assert (Hd : d = "#"%char).
  { apply orb_true_iff in Hs as [Hs|Hs].
    - apply String.eqb_eq in Hs. now injection Hs.
    - cbn in Hs. apply andb_true_iff in Hs as [Hs _]. now apply Ascii.eqb_eq in Hs. }
  subst d. apply orb_false_iff. split.
  - cbn. destruct (Ascii.eqb c "#"); [|reflexivity].
    destruct r; reflexivity.
  - cbn. destruct (Ascii.eqb c "#"); [|reflexivity]. cbn.
    destruct r as [|e r]; [reflexivity|]. rewrite append_cons.
    cbn in Hr. apply orb_false_iff in Hr as [He _]. cbn. now rewrite He.
Qed.

(** X3. After [LoadSchema] with a reference key that is not empty (and,
    as every key, without a slash), no node of the document holds a
    reference that starts at '#': the same-document shorthand is gone. *)
Theorem LoadSchema_no_shorthand (data : Tree) (reference : string) (path : list Step)
    (ref : string) :
  reference <> "" ->
  hasSlash reference = false ->
  refAt path (LoadSchema data reference) = Some ref ->
  startsAtHash ref = false.
Proof.
  intros Hne Hr H. unfold LoadSchema in H. rewrite refAt_updateReferencePath in H.
  destruct (refAt path (updateDefinitionTitles data)) as [ref0|]; [|discriminate H].
  cbn in H. injection H as <-. rewrite qualifyRef_spec.
  destruct (startsAtHash ref0) eqn:Hs; [|exact Hs].
  now apply startsAtHash_prefixed.
Qed.

Lemma LoadSchema_no_shorthand_witness :
  refAt [InProperties "w"] (LoadSchema (usesWidget "" "#/definitions/Widget") "b.json")
  = Some "b.json#/definitions/Widget"
  /\ startsAtHash "b.json#/definitions/Widget" = false.
Proof.
  assert (H : refAt [InProperties "w"]
                (LoadSchema (usesWidget "" "#/definitions/Widget") "b.json")
              = Some "b.json#/definitions/Widget") by reflexivity.
  split; [exact H|].
  apply (LoadSchema_no_shorthand (usesWidget "" "#/definitions/Widget") "b.json"
           [InProperties "w"]); [discriminate | reflexivity | exact H].
Defined.

Lemma Name_updateDefinitionTitles (t : Tree) :
  Name (nodeOf (updateDefinitionTitles t)) = Name (nodeOf t).
Proof. now destruct t. Qed.

Lemma nodeAt_retitled (step : Step) (path : list Step) (schema : SchemaOf Tree)
    (title : string) :
  nodeAt (step :: path) (Node (withTitle schema title)) = nodeAt (step :: path) (Node schema).
Proof. now destruct step. Qed.

Lemma definition_updated (t : Tree) (k : string) :
  child (InDefinitions k) (nodeOf (updateDefinitionTitles t))
  = option_map
      (fun v => if String.eqb (Name (nodeOf v)) ""
                then Node (withTitle (nodeOf (updateDefinitionTitles v)) k)
                else updateDefinitionTitles v)
      (child (InDefinitions k) (nodeOf t)).
Proof.
  destruct t as [schema]. cbn.
  apply (mapIndex_mapEntries
           (fun k v => if String.eqb (Name (nodeOf v)) ""
                       then Node (withTitle (nodeOf (updateDefinitionTitles v)) k)
                       else updateDefinitionTitles v)).
Qed.

(** X4. After [updateDefinitionTitles], a definition reached through
    definitions only has the name it had, or its key when it had none. *)
Theorem updateDefinitionTitles_names (keys : list string) (k : string) :
  forall t : Tree,
    option_map (fun n => Name (nodeOf n))
               (nodeAt (List.map InDefinitions (keys ++ [k])) (updateDefinitionTitles t))
    = option_map (fun n => if String.eqb (Name (nodeOf n)) "" then k else Name (nodeOf n))
                 (nodeAt (List.map InDefinitions (keys ++ [k])) t).
Proof.
  induction keys as [|k0 keys IH]; intros t.
  - cbn [app List.map nodeAt]. rewrite definition_updated.
    destruct (child (InDefinitions k) (nodeOf t)) as [v|]; [|reflexivity].
    cbn [option_map]. f_equal.
    destruct (String.eqb (Name (nodeOf v)) "") eqn:Hv.
    + cbn [nodeOf]. apply String.eqb_eq in Hv. apply Name_empty in Hv as [_ Hid].
      unfold Name. cbn [withTitle Title ID].
      destruct (updateDefinitionTitles v) as [n] eqn:Hn.
      assert (Hid' : ID n = ID (nodeOf v)) by (destruct v; cbn in Hn; now injection Hn as <-).
      cbn [nodeOf]. rewrite Hid', Hid. now destruct (String.eqb k "") eqn:Hk;
        [apply String.eqb_eq in Hk|].
    + apply Name_updateDefinitionTitles.
  - change (List.map InDefinitions ((k0 :: keys) ++ [k]))
      with (InDefinitions k0 :: List.map InDefinitions (keys ++ [k])).
    cbn [nodeAt]. rewrite definition_updated.
    destruct (child (InDefinitions k0) (nodeOf t)) as [v|]; [|reflexivity].
    cbn [option_map].
    assert (Hpath : exists step rest, List.map InDefinitions (keys ++ [k]) = step :: rest).
    { destruct keys; cbn; eauto. }
    destruct Hpath as (step & rest & Hpath).
    destruct (String.eqb (Name (nodeOf v)) "").
    + rewrite Hpath. destruct (updateDefinitionTitles v) as [n] eqn:Hn. cbn [nodeOf].
      rewrite nodeAt_retitled, <- Hn, <- Hpath. apply IH.
    + apply IH.
Qed.

(** ** [SchemaType]: the two JSON methods *)

(** X5. Reading back what [MarshalJSON] wrote gives the same
    [SchemaType], except that [ANY] is written as "object" and so comes
    back as [OBJECT]; and whatever [UnmarshalJSON] accepts is no [ANY]
    and is written back as the very name that was read. *)
Theorem SchemaType_round_trip :
  (forall s : SchemaType,
      exists name, MarshalJSON s = jsonString name
                   /\ UnmarshalJSON name = Ok (match s with ANY => OBJECT | _ => s end))
  /\ (forall (name : string) (val : SchemaType),
         UnmarshalJSON name = Ok val -> val <> ANY /\ MarshalJSON val = jsonString name).
Proof.
  split.
  - intros s. destruct s;
      [exists "object" | exists "array" | exists "boolean" | exists "integer"
       | exists "number" | exists "null" | exists "object" | exists "string"];
      split; reflexivity.
  - intros name val. unfold UnmarshalJSON, types. cbn [lookupKey].
    repeat match goal with
           | |- context [String.eqb ?a ?b] =>
               destruct (String.eqb_spec a b) as [<-|_];
               [cbv iota; intros H; injection H as <-; split; [discriminate | reflexivity]|]
           end.
    cbv iota. discriminate.
Qed.

Lemma SchemaType_round_trip_witness :
  UnmarshalJSON "integer" = Ok INTEGER
  /\ INTEGER <> ANY /\ MarshalJSON INTEGER = jsonString "integer".
Proof.
  split; [reflexivity|].
  apply (proj2 SchemaType_round_trip "integer" INTEGER). reflexivity.
Defined.

(** X6. A name that is none of the seven is refused, with the name in
    the message. *)
Theorem UnmarshalJSON_unknown (name : string) :
  ~ In name (List.map fst types) ->
  UnmarshalJSON name = Err ("Unknown schema type " +:+ quote +:+ name +:+ quote).
Proof.
  intros Hn. unfold UnmarshalJSON.
  assert (H : forall m : list (string * SchemaType),
             ~ In name (List.map fst m) -> lookupKey name m = None).
  { induction m as [|[k v] m IH]; [reflexivity|]. cbn. intros Hm.
    destruct (String.eqb_spec k name) as [->|_]; [exfalso; apply Hm; now left|].
    apply IH. intros Hin. apply Hm. now right. }
  now rewrite (H types Hn).
Qed.

Lemma UnmarshalJSON_unknown_witness :
  UnmarshalJSON "text" = Err ("Unknown schema type " +:+ quote +:+ "text" +:+ quote).
Proof.
  apply (UnmarshalJSON_unknown "text"). cbn.
  intros H. repeat (destruct H as [H|H]; [discriminate H|]). exact H.
Defined.

(** ** [camelCase]: what a canonical name is made of *)

Lemma upper_facts (c : ascii) :
  isAlnum c = true ->
  isAlnum (GoStrings.toUpperChar c) = true
  /\ GoStrings.isLower (GoStrings.toUpperChar c) = false.
Proof.
  destruct c as [[] [] [] [] [] [] [] []]; vm_compute; intros H;
    first [discriminate H | split; reflexivity].
Qed.

Lemma capitalizeWords_alnum (name : string) : forall atBoundary,
  allAlnum (capitalizeWords atBoundary name) = true.
Proof.
  induction name as [|c name IH]; intros atBoundary; [reflexivity|].
  cbn [capitalizeWords]. destruct (isAlnum c) eqn:Hc; [|apply IH].
  cbn [allAlnum]. rewrite IH, andb_true_r.
  destruct atBoundary; [apply (upper_facts c Hc) | exact Hc].
Qed.

Lemma capitalizeWords_upper (name : string) :
  startsLower (capitalizeWords true name) = false.
Proof.
  induction name as [|c name IH]; [reflexivity|].
  cbn [capitalizeWords]. destruct (isAlnum c) eqn:Hc; [|exact IH].
  apply (upper_facts c Hc).
Qed.

Lemma allAlnum_append (a b : string) : allAlnum (a +:+ b) = allAlnum a && allAlnum b.
Proof.
  induction a as [|c a IH]; [reflexivity|].
  rewrite append_cons. cbn [allAlnum]. now rewrite IH, andb_assoc.
Qed.

Lemma allAlnum_substring (s : string) : forall n m,
  allAlnum s = true -> allAlnum (substring n m s) = true.
Proof.
  induction s as [|c s IH]; intros n m H; [now destruct n, m|].
  cbn [allAlnum] in H. apply andb_true_iff in H as [Hc Hs].
  destruct n as [|n]; [|cbn; now apply IH].
  destruct m as [|m]; [reflexivity|].
  cbn [substring allAlnum]. now rewrite Hc, IH.
Qed.

Lemma startsLower_substring (s : string) (m : nat) :
  startsLower s = false -> startsLower (substring 0 m s) = false.
Proof. destruct s, m; cbn; auto. Qed.

Lemma startsLower_append (a b : string) :
  startsLower a = false -> startsLower b = false -> startsLower (a +:+ b) = false.
Proof. destruct a; [intros _ H; exact H | intros H _; exact H]. Qed.

Lemma suffixed_clean (caseName suffix : string) :
  allAlnum caseName = true -> startsLower caseName = false ->
  allAlnum (GoStrings.ToUpper suffix) = true ->
  startsLower (GoStrings.ToUpper suffix) = false ->
  allAlnum (GoStrings.TrimSuffix caseName suffix +:+ GoStrings.ToUpper suffix) = true
  /\ startsLower (GoStrings.TrimSuffix caseName suffix +:+ GoStrings.ToUpper suffix) = false.
Proof.
  intros Ha Hl Hsa Hsl. unfold GoStrings.TrimSuffix.
  destruct (GoStrings.HasSuffix caseName suffix).
  - split.
    + rewrite allAlnum_append, Hsa, andb_true_r. now apply allAlnum_substring.
    + apply startsLower_append; [now apply startsLower_substring | exact Hsl].
  - split.
    + now rewrite allAlnum_append, Ha, Hsa.
    + now apply startsLower_append.
Qed.

Lemma prefixed_clean (caseName prefix : string) :
  allAlnum caseName = true ->
  allAlnum (GoStrings.ToUpper prefix) = true ->
  GoStrings.ToUpper prefix <> "" ->
  startsLower (GoStrings.ToUpper prefix) = false ->
  allAlnum (GoStrings.ToUpper prefix +:+ GoStrings.TrimPrefix caseName prefix) = true
  /\ startsLower (GoStrings.ToUpper prefix +:+ GoStrings.TrimPrefix caseName prefix) = false.
Proof.
  intros Ha Hpa Hne Hpl. split.
  - rewrite allAlnum_append, Hpa. unfold GoStrings.TrimPrefix.
    destruct (GoStrings.HasPrefix caseName prefix); [now apply allAlnum_substring | exact Ha].
  - destruct (GoStrings.ToUpper prefix); [contradiction | exact Hpl].
Qed.

Lemma normalizeAcronym_clean (caseName : string) :
  allAlnum caseName = true -> startsLower caseName = false ->
  allAlnum (normalizeAcronym caseName) = true
  /\ startsLower (normalizeAcronym caseName) = false.
Proof.
  intros Ha Hl. unfold normalizeAcronym, acronymSuffixes, acronymPrefixes. cbn [find].
  repeat (destruct (GoStrings.HasSuffix caseName _);
          [now apply suffixed_clean|]).
  repeat (destruct (GoStrings.HasPrefix caseName _);
          [now apply prefixed_clean|]).
  now split.
Qed.

(** X7. Whatever the name, [camelCase] returns ASCII letters and
    digits only, and the result never starts with a lower-case letter. *)
Theorem camelCase_alnum (name : string) :
  allAlnum (camelCase name) = true /\ startsLower (camelCase name) = false.
Proof.
  unfold camelCase. rewrite caseNameOf_words.
  apply normalizeAcronym_clean;
    [apply capitalizeWords_alnum | apply capitalizeWords_upper].
Qed.

(** ** Reference resolver: the ways a reference fails *)

Lemma hasSlash_append (a b : string) : hasSlash (a +:+ b) = hasSlash a || hasSlash b.
Proof.
  induction a as [|c a IH]; [reflexivity|].
  rewrite append_cons. cbn [hasSlash]. now rewrite IH, orb_assoc.
Qed.

Lemma splitSlash_head (a pointer : string) :
  hasSlash a = false ->
  pointer = "" \/ GoStrings.HasPrefix pointer "/" = true ->
  exists rest, GoStrings.splitSlash (a +:+ pointer) = a :: rest.
Proof.
  intros Ha Hp. induction a as [|c a IH].
  - destruct Hp as [->|Hp]; [now exists []|].
    destruct pointer as [|d p]; [discriminate Hp|].
    cbn in Hp. apply andb_true_iff in Hp as [Hd _].
    exists (GoStrings.splitSlash p). change ("" +:+ String d p) with (String d p).
    cbn [GoStrings.splitSlash]. now rewrite Hd.
  - cbn [hasSlash] in Ha. apply orb_false_iff in Ha as [Hc Ha].
    destruct (IH Ha) as [rest Hrest]. exists rest.
    rewrite append_cons. cbn [GoStrings.splitSlash]. now rewrite Hc, Hrest.
Qed.

Lemma splitSlash_hash (ref : string) :
  startsAtHash ref = true -> exists rest, GoStrings.splitSlash ref = "#" :: rest.
Proof.
  unfold startsAtHash. intros H. apply orb_true_iff in H as [H|H].
  - apply String.eqb_eq in H. subst ref. now exists [].
  - destruct ref as [|c [|d p]]; try discriminate H.
    + cbn in H. now rewrite andb_false_r in H.
    + cbn in H. apply andb_true_iff in H as [Hc H]. apply andb_true_iff in H as [Hd _].
      apply Ascii.eqb_eq in Hc. apply Ascii.eqb_eq in Hd. subst c d.
      now exists (GoStrings.splitSlash p).
Qed.

Lemma dropLast_append (name : string) : dropLast (name +:+ "#") = name.
Proof.
  unfold dropLast. rewrite length_append. cbn [String.length].
  replace (String.length name + 1 - 1) with (String.length name) by lia.
  apply substring_append_l.
Qed.

Lemma resolveRefs_walk_fails (s : SchemaProcessor) (fuel : nat) (reference : string)
    (h : heap) (l : loc) (node : Schema) (part : string) (rest : list string) (msg : string) :
  h !! l = Some node ->
  GoStrings.splitSlash (Ref node) = part :: rest ->
  part <> "" ->
  walkStep s reference (CtxSchema (Some l)) part h = (Err msg, h) ->
  resolveRefs s (S fuel) reference (Some l) h = (Err msg, h).
Proof.
  intros Hl Hsplit Hpart Hstep. rewrite resolveRefs_unfold.
  rewrite (bind_ok _ _ _ _ _ (load_run _ _ _ Hl)).
  assert (Href : String.eqb (Ref node) "" = false).
  { apply String.eqb_neq. intros Hr. rewrite Hr in Hsplit. cbn in Hsplit.
    injection Hsplit as <- _. now apply Hpart. }
  rewrite Href, Hsplit. cbn [walkPath]. unfold bind. now rewrite Hstep.
Qed.

(** X8. A reference into a document that is not among the loaded ones
    makes [resolveRefs] return the error that names the resolving document
    and the missing one; the heap is left as it was. *)
Theorem resolveRefs_unknown_document (s : SchemaProcessor) (fuel : nat) (reference : string)
    (h : heap) (l : loc) (node : Schema) (name pointer : string) :
  h !! l = Some node ->
  Ref node = name +:+ "#" +:+ pointer ->
  name <> "" ->
  hasSlash name = false ->
  pointer = "" \/ GoStrings.HasPrefix pointer "/" = true ->
  lookupKey name (schemas s) = None ->
  resolveRefs s (S fuel) reference (Some l) h
  = (Err ("Invalid reference file - please make sure the referenced files are in the processing list - "
          +:+ reference +:+ " ? " +:+ name), h).
Proof.
  intros Hl Href Hname Hslash Hpointer Hmiss.
  destruct (splitSlash_head (name +:+ "#") pointer) as [rest Hsplit];
    [rewrite hasSlash_append, Hslash; reflexivity | exact Hpointer |].
  rewrite append_assoc, <- Href in Hsplit.
  apply (resolveRefs_walk_fails s fuel reference h l node (name +:+ "#") rest);
    [exact Hl | exact Hsplit | now destruct name |].
  unfold walkStep.
  assert (Hne : String.eqb (name +:+ "#") "#" = false).
  { apply String.eqb_neq. intros H. apply (f_equal String.length) in H.
    rewrite length_append in H. cbn in H. destruct name; [now apply Hname | cbn in H; lia]. }
  now rewrite Hne, HasSuffix_append, dropLast_append, Hmiss.
Qed.

Lemma resolveRefs_unknown_document_witness :
  resolveRefs (mkProcessor false [("b.json", 0)]) 1 "b.json" (Some 0)
    [mkSchema "" "" ANY "" None None None "a.json#/definitions/Widget" None]
  = (Err ("Invalid reference file - please make sure the referenced files are in the processing list - "
          +:+ "b.json" +:+ " ? " +:+ "a.json"),
     [mkSchema "" "" ANY "" None None None "a.json#/definitions/Widget" None]).
Proof.
  apply (resolveRefs_unknown_document (mkProcessor false [("b.json", 0)]) 0 "b.json"
           [mkSchema "" "" ANY "" None None None "a.json#/definitions/Widget" None] 0
           (mkSchema "" "" ANY "" None None None "a.json#/definitions/Widget" None)
           "a.json" "/definitions/Widget");
    first [reflexivity | discriminate | (right; reflexivity)].
Defined.

(** X9. A reference that starts at '#', without a document name, makes
    [resolveRefs] return the error that asks for file names; the heap is
    left as it was. *)
Theorem resolveRefs_no_file_name (s : SchemaProcessor) (fuel : nat) (reference : string)
    (h : heap) (l : loc) (node : Schema) :
  h !! l = Some node ->
  startsAtHash (Ref node) = true ->
  resolveRefs s (S fuel) reference (Some l) h
  = (Err ("Invalid reference point - please make sure references have file names specified - "
          +:+ reference), h).
Proof.
  intros Hl Href. destruct (splitSlash_hash _ Href) as [rest Hsplit].
  apply (resolveRefs_walk_fails s fuel reference h l node "#" rest);
    [exact Hl | exact Hsplit | discriminate | reflexivity].
Qed.

Lemma resolveRefs_no_file_name_witness :
  resolveRefs (mkProcessor false [("b.json", 0)]) 1 "b.json" (Some 0)
    [mkSchema "" "" ANY "" None None None "#/definitions/Widget" None]
  = (Err ("Invalid reference point - please make sure references have file names specified - "
          +:+ "b.json"),
     [mkSchema "" "" ANY "" None None None "#/definitions/Widget" None]).
Proof.
  apply (resolveRefs_no_file_name (mkProcessor false [("b.json", 0)]) 0 "b.json"
           [mkSchema "" "" ANY "" None None None "#/definitions/Widget" None] 0
           (mkSchema "" "" ANY "" None None None "#/definitions/Widget" None));
    reflexivity.
Defined.

(** X10. A reference whose last segment is a key that the map reached
    does not hold makes [resolveRefs] panic: the walk ends at the nil
    pointer and the struct copy reads through it. *)
Theorem resolveRefs_missing_key_panics (s : SchemaProcessor) (fuel : nat)
    (reference : string) (h : heap) (l : loc) (node : Schema)
    (front : list string) (last : string) (m : option (list (string * loc))) :
  h !! l = Some node ->
  Ref node <> "" ->
  GoStrings.splitSlash (Ref node) = front ++ [last] ->
  walkPath s reference (CtxSchema (Some l)) front h = (Ok (CtxMap m), h) ->
  isKeySegment last = true ->
  mapIndex m last = None ->
  resolveRefs s (S fuel) reference (Some l) h = (Panic, h).
Proof.
  intros Hl Href Hsplit Hfront Hkey Hmiss.
  apply (resolveRefs_nil_context s fuel reference l node h Hl Href).
  rewrite Hsplit, (walkPath_app _ _ _ _ _ _ _ _ Hfront). cbn [walkPath].
  rewrite (bind_ok _ _ _ _ _ (walkStep_key s reference last m h Hkey)).
  now rewrite Hmiss.
Qed.

Lemma resolveRefs_missing_key_panics_witness :
  let s := mkProcessor false [("a.json", 3)] in
  let h := snd (Load [("a.json", definesWidget);
                      ("b.json", usesWidget "" "a.json#/definitions/Missing")]) in
  resolveRefs s 1 "b.json" (Some 4) h = (Panic, h).
Proof.
  intros s h.
  apply (resolveRefs_missing_key_panics s 0 "b.json" h 4
           (mkSchema "" "" ANY "" None None None "a.json#/definitions/Missing" None)
           ["a.json#"; "definitions"] "Missing" (Some [("Widget", 2)]));
    first [reflexivity | discriminate].
Defined.

(** ** Reference resolver: what it leaves alone *)

Lemma asSchema_same (ctx : Ctx) (h h' : heap) (r : outcome Schema) :
  asSchema ctx h = (r, h') -> h' = h.
Proof. destruct ctx; intros H; injection H as _ <-; reflexivity. Qed.

Lemma walkStep_same (s : SchemaProcessor) (reference : string) (ctx : Ctx) (part : string)
    (h h' : heap) (r : outcome Ctx) :
  walkStep s reference ctx part h = (r, h') -> h' = h.
Proof.
  assert (Hfield : forall field : Schema -> Ctx,
             (let* node := asSchema ctx in ret (field node)) h = (r, h') -> h' = h).
  { intros field H. unfold bind in H.
    destruct (asSchema ctx h) as [o h1] eqn:Ha. apply asSchema_same in Ha. subst h1.
    destruct o; injection H as _ <-; reflexivity. }
  unfold walkStep.
  destruct (String.eqb part "#"); [intros H; injection H as _ <-; reflexivity|].
  destruct (GoStrings.HasSuffix part "#").
  { destruct (lookupKey (dropLast part) (schemas s)); intros H; injection H as _ <-;
      reflexivity. }
  destruct (String.eqb part "definitions"); [apply Hfield|].
  destruct (String.eqb part "properties"); [apply Hfield|].
  destruct (String.eqb part "patternProperties"); [apply Hfield|].
  destruct (String.eqb part "items"); [apply Hfield|].
  destruct ctx; intros H; injection H as _ <-; reflexivity.
Qed.

Lemma walkPath_same (s : SchemaProcessor) (reference : string) (schemaPath : list string) :
  forall (ctx : Ctx) (h h' : heap) (r : outcome Ctx),
    walkPath s reference ctx schemaPath h = (r, h') -> h' = h.
Proof.
  induction schemaPath as [|part rest IH]; intros ctx h h' r H.
  - injection H as _ <-. reflexivity.
  - cbn [walkPath] in H. unfold bind in H.
    destruct (walkStep s reference ctx part h) as [o h1] eqn:Hstep.
    apply walkStep_same in Hstep. subst h1.
    destruct o; try (injection H as _ <-; reflexivity).
    exact (IH _ _ _ _ H).
Qed.

(** X11. A reference that leads back to the node that holds it is
    never resolved: the node is copied onto itself and resolved again,
    whatever the depth allowed.  A reference that is a plain word is one. *)
Theorem resolveRefs_self_reference (s : SchemaProcessor) (reference : string)
    (h : heap) (l : loc) (node : Schema) :
  h !! l = Some node ->
  Ref node <> "" ->
  fst (walkPath s reference (CtxSchema (Some l)) (GoStrings.splitSlash (Ref node)) h)
  = Ok (CtxSchema (Some l)) ->
  forall fuel, resolveRefs s fuel reference (Some l) h = (OutOfFuel, h).
Proof.
  intros Hl Href Hwalk fuel. induction fuel as [|fuel IH]; [reflexivity|].
  rewrite resolveRefs_unfold.
  rewrite (bind_ok _ _ _ _ _ (load_run _ _ _ Hl)).
  apply String.eqb_neq in Href. rewrite Href.
  destruct (walkPath s reference (CtxSchema (Some l)) (GoStrings.splitSlash (Ref node)) h)
    as [o h1] eqn:Hw.
  pose proof (walkPath_same _ _ _ _ _ _ _ Hw) as ->. cbn in Hwalk. subst o.
  assert (Hcopy : copyFrom (CtxSchema (Some l)) (Some l) h = (Ok tt, h)).
  { unfold copyFrom. rewrite (bind_ok _ _ _ _ _ (load_run _ _ _ Hl)).
    rewrite store_run by (eapply lookup_lt_Some; exact Hl).
    now rewrite list_insert_id. }
  unfold bind at 1. unfold bind at 1. rewrite Hw.
  unfold bind at 1. rewrite Hcopy, IH. reflexivity.
Qed.

Lemma resolveRefs_self_reference_witness :
  resolveRefs (mkProcessor false [("a.json", 0)]) 7 "a.json" (Some 0)
    [mkSchema "" "" ANY "" None None None "Widget" None]
  = (OutOfFuel, [mkSchema "" "" ANY "" None None None "Widget" None]).
Proof.
  apply (resolveRefs_self_reference (mkProcessor false [("a.json", 0)]) "a.json"
           [mkSchema "" "" ANY "" None None None "Widget" None] 0
           (mkSchema "" "" ANY "" None None None "Widget" None));
    first [reflexivity | discriminate].
Defined.

#[local] Instance keepsResolved_preorder : PreOrder keepsResolved.
Proof.
  split.
  - intros h. split; [reflexivity | apply agree_refl].
  - intros a b c [Hab Hab'] [Hbc Hbc']. split; [congruence|].
    exact (agree_trans _ _ _ Hab' Hbc').
Qed.

Lemma load_keepsResolved (p : option loc) : respects keepsResolved (load p).
Proof. intros h r h' H. injection H as _ <-. reflexivity. Qed.

Lemma copyFrom_keepsResolved (ctx : Ctx) (l : loc) (node : Schema) (h h' : heap)
    (r : outcome unit) :
  h !! l = Some node ->
  Ref node <> "" ->
  copyFrom ctx (Some l) h = (r, h') ->
  keepsResolved h h'.
Proof.
  intros Hl Href H. destruct ctx as [cast|m]; cbn in H.
  2: { injection H as _ <-. reflexivity. }
  unfold bind, load in H. destruct (deref h cast) as [node'| | |];
    try (injection H as _ <-; reflexivity).
  assert (Hll : l < length h) by (eapply lookup_lt_Some; exact Hl).
  change (store (Some l) node' h = (r, h')) in H. rewrite (store_run _ _ _ Hll) in H.
  injection H as _ <-. split; [apply length_insert|].
  intros l' n Hl' Hn. rewrite list_lookup_insert_ne; [exact Hl'|].
  intros ->. rewrite Hl in Hl'. injection Hl' as <-. contradiction.
Qed.

Lemma resolveRefs_keeps (s : SchemaProcessor) (reference : string) (fuel : nat) :
  forall schema, respects keepsResolved (resolveRefs s fuel reference schema).
Proof.
  induction fuel as [|fuel IH]; intros schema; [rsp_stop|].
  rewrite resolveRefs_unfold.
  assert (Hrest : forall h0 : heap,
            respects keepsResolved
              (let* node := load schema in
               let* _ := forEntries (Definitions node)
                           (fun _ v => resolveRefs s fuel reference (Some v)) in
               let* node := load schema in
               let* _ := forEntries (Properties node)
                           (fun _ v => resolveRefs s fuel reference (Some v)) in
               let* node := load schema in
               let* _ := forEntries (PatternProperties node)
                           (fun _ v => resolveRefs s fuel reference (Some v)) in
               let* node := load schema in
               match Items node with
               | None => ret tt
               | Some items => resolveRefs s fuel reference (Some items)
               end)).
  { intros _.
    rsp_bind; [apply load_keepsResolved|]. intros n1.
    rsp_bind; [rsp_forEntries; intros; apply IH|]. intros _.
    rsp_bind; [apply load_keepsResolved|]. intros n2.
    rsp_bind; [rsp_forEntries; intros; apply IH|]. intros _.
    rsp_bind; [apply load_keepsResolved|]. intros n3.
    rsp_bind; [rsp_forEntries; intros; apply IH|]. intros _.
    rsp_bind; [apply load_keepsResolved|]. intros n4.
    destruct (Items n4); [apply IH | rsp_ret]. }
  intros h r h' H. unfold bind at 1 in H. unfold load at 1 in H.
  destruct (deref h schema) as [node| | |] eqn:Hd;
    try (injection H as _ <-; reflexivity).
  unfold bind at 1 in H.
  destruct (String.eqb_spec (Ref node) "") as [Hr|Hr].
  - cbn [ret] in H. exact (Hrest h _ _ _ H).
  - destruct schema as [l|]; [|discriminate Hd]. cbn in Hd.
    destruct (h !! l) as [n|] eqn:Hl; [|discriminate Hd]. injection Hd as ->.
    assert (Hfirst : forall r1 h1,
               (let* ctx := walkPath s reference (CtxSchema (Some l))
                                     (GoStrings.splitSlash (Ref node)) in
                let* _ := copyFrom ctx (Some l) in
                resolveRefs s fuel reference (Some l)) h = (r1, h1) ->
               keepsResolved h h1).
    { intros r1 h1 H1. unfold bind at 1 in H1.
      destruct (walkPath s reference (CtxSchema (Some l))
                         (GoStrings.splitSlash (Ref node)) h) as [o hw] eqn:Hw.
      pose proof (walkPath_same _ _ _ _ _ _ _ Hw) as ->.
      destruct o as [ctx| | |]; try (injection H1 as _ <-; reflexivity).
      unfold bind at 1 in H1.
      destruct (copyFrom ctx (Some l) h) as [o hc] eqn:Hc.
      pose proof (copyFrom_keepsResolved _ _ _ _ _ _ Hl Hr Hc) as Hk.
      destruct o; try (injection H1 as _ <-; exact Hk).
      etransitivity; [exact Hk | exact (IH _ _ _ _ H1)]. }
    destruct ((let* ctx := walkPath s reference (CtxSchema (Some l))
                                    (GoStrings.splitSlash (Ref node)) in
               let* _ := copyFrom ctx (Some l) in
               resolveRefs s fuel reference (Some l)) h) as [o h1] eqn:H1.
    pose proof (Hfirst _ _ eq_refl) as Hk.
    destruct o; try (injection H as _ <-; exact Hk).
    etransitivity; [exact Hk | exact (Hrest h1 _ _ _ H)].
Qed.

(** X12. However [resolveRefs] ends, the heap has as many nodes as
    before, and every node that was no reference is as it was: only
    nodes that hold a reference are ever overwritten. *)
Theorem resolveRefs_keeps_resolved (s : SchemaProcessor) (fuel : nat) (reference : string)
    (schema : option loc) (h : heap) :
  keepsResolved h (snd (resolveRefs s fuel reference schema h)).
Proof.
  destruct (resolveRefs s fuel reference schema h) as [r h'] eqn:H.
  exact (resolveRefs_keeps s reference fuel schema _ _ _ H).
Qed.

Lemma forEach_refFree (s : SchemaProcessor) (reference : string) (fuel : nat) (h : heap)
    (entries : list (string * loc)) :
  (forall l, refFree fuel h l -> resolveRefs s fuel reference (Some l) h = (Ok tt, h)) ->
  Forall (refFree fuel h) (List.map snd entries) ->
  forEach (fun kv => resolveRefs s fuel reference (Some (snd kv))) entries h = (Ok tt, h).
Proof.
  intros IH. induction entries as [|[k v] entries IHe]; intros Hall; [reflexivity|].
  cbn [List.map snd] in Hall. apply Forall_cons in Hall as [Hv Hall].
  cbn [forEach]. rewrite (bind_ok _ _ _ _ _ (IH v Hv)). now apply IHe.
Qed.

Lemma forEntries_refFree (s : SchemaProcessor) (reference : string) (fuel : nat) (h : heap)
    (m : option (list (string * loc))) :
  (forall l, refFree fuel h l -> resolveRefs s fuel reference (Some l) h = (Ok tt, h)) ->
  Forall (refFree fuel h) (entryValues m) ->
  forEntries m (fun _ v => resolveRefs s fuel reference (Some v)) h = (Ok tt, h).
Proof.
  intros IH Hall. destruct m as [entries|]; [|reflexivity].
  now apply (forEach_refFree s reference fuel h entries IH).
Qed.

(** X13. Where no node below [l] is a reference, [resolveRefs] returns
    nil and changes nothing. *)
Theorem resolveRefs_reference_free (s : SchemaProcessor) (reference : string) (h : heap) :
  forall (fuel : nat) (l : loc),
    refFree fuel h l -> resolveRefs s fuel reference (Some l) h = (Ok tt, h).
Proof.
  induction fuel as [|fuel IH]; intros l Hfree; [destruct Hfree|].
  destruct Hfree as (node & Hl & Href & Hch).
  unfold children in Hch.
  apply Forall_app in Hch as [Hd Hch]. apply Forall_app in Hch as [Hp Hch].
  apply Forall_app in Hch as [Hpp Hi].
  rewrite resolveRefs_unfold.
  rewrite (bind_ok _ _ _ _ _ (load_run _ _ _ Hl)).
  rewrite Href. change (String.eqb "" "") with true. cbv iota. rewrite bind_ret.
  rewrite (bind_ok _ _ _ _ _ (load_run _ _ _ Hl)).
  rewrite (bind_ok _ _ _ _ _ (forEntries_refFree s reference fuel h _ IH Hd)).
  rewrite (bind_ok _ _ _ _ _ (load_run _ _ _ Hl)).
  rewrite (bind_ok _ _ _ _ _ (forEntries_refFree s reference fuel h _ IH Hp)).
  rewrite (bind_ok _ _ _ _ _ (load_run _ _ _ Hl)).
  rewrite (bind_ok _ _ _ _ _ (forEntries_refFree s reference fuel h _ IH Hpp)).
  rewrite (bind_ok _ _ _ _ _ (load_run _ _ _ Hl)).
  destruct (Items node) as [i|]; [|reflexivity].
  apply Forall_cons in Hi as [Hi _]. now apply IH.
Qed.

Lemma resolveRefs_reference_free_witness :
  resolveRefs (mkProcessor false [("a.json", 1)]) 2 "a.json" (Some 1)
    [mkSchema "" "" STRING "" None None None "" None;
     mkSchema "" "" ARRAY "" None None None "" (Some 0)]
  = (Ok tt,
     [mkSchema "" "" STRING "" None None None "" None;
      mkSchema "" "" ARRAY "" None None None "" (Some 0)]).
Proof.
  apply (resolveRefs_reference_free (mkProcessor false [("a.json", 1)]) "a.json"
           [mkSchema "" "" STRING "" None None None "" None;
            mkSchema "" "" ARRAY "" None None None "" (Some 0)] 2 1).
  cbn [refFree]. eexists. split; [reflexivity|]. split; [reflexivity|].
  cbn. apply Forall_cons. split; [|apply Forall_nil; exact I].
  eexists. split; [reflexivity|]. split; [reflexivity|]. cbn. apply Forall_nil. exact I.
Defined.

(** ** Name assigner: what it leaves alone *)

#[local] Instance keepsNamed_preorder : PreOrder keepsNamed.
Proof.
  split.
  - intros st l node H _. exact H.
  - intros a b c Hab Hbc l node Hl Hn. apply Hbc; [|exact Hn]. now apply Hab.
Qed.

(** The heaps hold the same node wherever [u] does not hold. *)
Lemma sameOutside_preorder (u : loc -> Prop) :
  PreOrder (fun st st' : NameState => forall l, ~ u l -> fst st' !! l = fst st !! l).
Proof.
  split.
  - intros st l _. reflexivity.
  - intros a b c Hab Hbc l Hl. now rewrite (Hbc l Hl), (Hab l Hl).
Qed.

Lemma assignTitle_outside (u : loc -> Prop) (p : option loc) (title : string) :
  (forall l, p = Some l -> u l) ->
  respects (fun st st' : NameState => forall l, ~ u l -> fst st' !! l = fst st !! l)
           (assignTitle p title).
Proof.
  intros Hp st r st' H l Hl. unfold assignTitle in H.
  destruct (deref (fst st) p) as [node| | |]; try (injection H as _ <-; reflexivity).
  destruct p as [l0|]; injection H as _ <-; [|reflexivity].
  cbn [fst]. apply list_lookup_insert_ne. intros ->. apply Hl. now apply Hp.
Qed.

Lemma unnamed_outside (st st' : NameState) :
  (forall l, ~ (forall n, fst st !! l = Some n -> Name n = "") ->
             fst st' !! l = fst st !! l) ->
  keepsNamed st st'.
Proof.
  intros H l node Hl Hn. rewrite H; [exact Hl|].
  intros Hu. apply Hn. now apply Hu.
Qed.

Lemma titleFromKey_keepsNamed (k : string) (v : loc) : respects keepsNamed (titleFromKey k v).
Proof.
  intros st r st' H. unfold titleFromKey, bind in H.
  destruct (loadN (Some v) st) as [o s1] eqn:Hload.
  apply loadN_same in Hload as [-> Ho].
  destruct o as [member| | |]; try (injection H as _ <-; reflexivity).
  destruct (String.eqb_spec (Name member) "") as [Hname|Hname];
    [|injection H as _ <-; reflexivity].
  apply unnamed_outside.
  apply (assignTitle_outside _ (Some v) k) with (r := r); [|exact H].
  intros l Hl n Hn. injection Hl as <-. cbn in Ho. rewrite Hn in Ho. now injection Ho as <-.
Qed.

Lemma titleFromArray_keepsNamed (schema : option loc) (items : loc) :
  respects keepsNamed (titleFromArray schema items).
Proof.
  intros st r st' H. unfold titleFromArray in H. unfold bind at 1 in H.
  destruct (loadN (Some items) st) as [o s1] eqn:Hload.
  apply loadN_same in Hload as [-> Ho].
  destruct o as [item| | |]; try (injection H as _ <-; reflexivity).
  destruct (String.eqb_spec (Name item) "") as [Hitem|Hitem];
    [|injection H as _ <-; reflexivity].
  apply unnamed_outside.
  set (u := fun l : loc => forall n, fst st !! l = Some n -> Name n = "").
  pose proof (sameOutside_preorder u) as HR.
  assert (Hi : u items).
  { intros n Hn. cbn in Ho. rewrite Hn in Ho. now injection Ho as <-. }
  unfold bind at 1 in H.
  destruct (loadN schema st) as [o s1] eqn:Hload.
  apply loadN_same in Hload as [-> Ho'].
  destruct o as [node| | |]; try (injection H as _ <-; reflexivity).
  revert H. generalize st at 1 3 as st0. intros st0 H. revert st0 r st' H.
  change (respects (fun st0 st1 : NameState => forall l, ~ u l -> fst st1 !! l = fst st0 !! l)
            (let* _ := (if String.eqb (Name node) "" then
                          let* count := nextAnonymous in
                          assignTitle schema ("AnonymousObject" +:+ formatInt count)
                        else ret tt) in
             let* node0 := loadN schema in
             assignTitle (Some items) (Name node0 +:+ "Item"))).
  rsp_bind.
  - destruct (String.eqb_spec (Name node) "") as [Hnode|Hnode]; [|rsp_ret].
    rsp_bind.
    + intros s0 r0 s0' H0. injection H0 as _ <-. reflexivity.
    + intros count. apply assignTitle_outside. intros l -> n Hn.
      cbn in Ho'. rewrite Hn in Ho'. now injection Ho' as <-.
  - intros _. rsp_bind.
    + intros s0 r0 s0' H0. apply loadN_same in H0 as [-> _]. reflexivity.
    + intros node0. apply assignTitle_outside. intros l Hl. now injection Hl as <-.
Qed.

Lemma setTitle_keepsNamed (s : SchemaProcessor) (reference : string) (fuel : nat) :
  forall schema, respects keepsNamed (setTitle s fuel reference schema).
Proof.
  induction fuel as [|fuel IH]; intros schema; [rsp_stop|].
  rewrite setTitle_unfold.
  assert (Hload : forall p, respects keepsNamed (loadN p)).
  { intros p st r st' H. apply loadN_same in H as [-> _]. reflexivity. }
  assert (Hloop : forall m, respects keepsNamed
            (forEntries m (fun k v => let* _ := titleFromKey k v in
                                      setTitle s fuel reference (Some v)))).
  { intros m. rsp_forEntries. intros k v.
    rsp_bind; [apply titleFromKey_keepsNamed | intros _; apply IH]. }
  rsp_bind; [apply Hload|]. intros node0.
  rsp_bind; [apply Hloop|]. intros _.
  rsp_bind; [apply Hload|]. intros node1.
  rsp_bind; [apply Hloop|]. intros _.
  rsp_bind; [apply Hload|]. intros node2.
  rsp_bind; [apply Hloop|]. intros _.
  rsp_bind; [apply Hload|]. intros node3.
  destruct (Items node3) as [i|]; [|rsp_ret].
  rsp_bind; [apply titleFromArray_keepsNamed | intros _; apply IH].
Qed.

(** X14. However [setTitle] ends, a node that had a name is exactly as
    it was, and every other node is still there and differs at most in
    its title, which is never taken away. *)
Theorem setTitle_keeps_names (s : SchemaProcessor) (fuel : nat) (reference : string)
    (schema : option loc) (st : NameState) :
  keepsNamed st (snd (setTitle s fuel reference schema st))
  /\ titlesGrow st (snd (setTitle s fuel reference schema st)).
Proof.
  destruct (setTitle s fuel reference schema st) as [r st'] eqn:H. split.
  - exact (setTitle_keepsNamed s reference fuel schema _ _ _ H).
  - exact (setTitle_grows s reference fuel schema _ _ _ H).
Qed.

(** X15. When [setTitle] returns, every member below the schema has a
    name unless its key is empty, and every item of an array has one;
    this holds down to the depth the call went. *)
Theorem setTitle_names_all (s : SchemaProcessor) (fuel : nat) (reference : string)
    (l : loc) (st st' : NameState) :
  setTitle s fuel reference (Some l) st = (Ok tt, st') -> settled fuel (fst st') l.
Proof. apply setTitle_settles. Qed.

Lemma setTitle_names_all_witness :
  settled 5 [withTitle stringSchema "AnonymousObject1Item";
             mkSchema "AnonymousObject1" "" ARRAY "" None None None "" (Some 0)] 1.
Proof.
  apply (setTitle_names_all (mkProcessor false [("c.json", 1)]) 5 "c.json" 1
           ([stringSchema; mkSchema "" "" ARRAY "" None None None "" (Some 0)], 0%Z)
           ([withTitle stringSchema "AnonymousObject1Item";
             mkSchema "AnonymousObject1" "" ARRAY "" None None None "" (Some 0)], 1%Z)).
  vm_compute. reflexivity.
Defined.

(** ** Type synthesizer: what the result depends on *)

Lemma sameValue_ret {S1 S2 A} (a : A) : sameValue (@ret S1 A a) (@ret S2 A a).
Proof. intros st1 st2 a1 a2 st1' st2' H1 H2. injection H1 as <- _. now injection H2 as <- _. Qed.

Lemma sameValue_unit {S1 S2} (m1 : M S1 unit) (m2 : M S2 unit) : sameValue m1 m2.
Proof. intros st1 st2 [] [] st1' st2' _ _. reflexivity. Qed.

Lemma sameValue_bind {S1 S2 A B} (m1 : M S1 A) (m2 : M S2 A)
    (k1 : A -> M S1 B) (k2 : A -> M S2 B) :
  sameValue m1 m2 -> (forall a, sameValue (k1 a) (k2 a)) ->
  sameValue (bind m1 k1) (bind m2 k2).
Proof.
  intros Hm Hk st1 st2 b1 b2 st1' st2' H1 H2.
  apply bind_inv_ok in H1 as (a1 & s1 & Hm1 & Hk1).
  apply bind_inv_ok in H2 as (a2 & s2 & Hm2 & Hk2).
  pose proof (Hm _ _ _ _ _ _ Hm1 Hm2) as <-.
  exact (Hk a1 _ _ _ _ _ _ Hk1 Hk2).
Qed.

Section SameType.
Variable marshalIndent : heap -> option loc -> string.
Variables sink1 sink2 : list (string * string) -> string -> string -> option string.

Lemma structFields_sameValue (rec1 rec2 : option loc -> M SynthState string)
    (props : list (string * loc)) (keys : list string) :
  (forall p, sameValue (rec1 p) (rec2 p)) ->
  forall typeData,
    sameValue (structFields rec1 props keys typeData) (structFields rec2 props keys typeData).
Proof.
  intros Hrec. induction keys as [|k keys IH]; intros typeData; cbn [structFields].
  - apply sameValue_ret.
  - apply sameValue_bind; [apply Hrec|]. intros sub. apply IH.
Qed.

Lemma patternTypes_sameValue (rec1 rec2 : option loc -> M SynthState string)
    (comment : string -> string) (pats : list (string * loc)) (keys : list string) :
  (forall p, sameValue (rec1 p) (rec2 p)) ->
  forall typeName,
    sameValue (patternTypes sink1 rec1 comment pats keys typeName)
              (patternTypes sink2 rec2 comment pats keys typeName).
Proof.
  intros Hrec. induction keys as [|k keys IH]; intros typeName; cbn [patternTypes].
  - apply sameValue_ret.
  - apply sameValue_bind; [apply Hrec|]. intros sub.
    apply sameValue_bind; [|intros t; apply IH].
    destruct (isTitled sub); [|apply sameValue_ret].
    apply sameValue_bind; [apply sameValue_unit|]. intros _. apply sameValue_ret.
Qed.

Lemma processNode_sameValue (rec1 rec2 : option loc -> M SynthState string)
    (comment : string -> string) (schema : Schema) :
  (forall p, sameValue (rec1 p) (rec2 p)) ->
  sameValue (processNode sink1 rec1 comment schema) (processNode sink2 rec2 comment schema).
Proof.
  intros Hrec. unfold processNode.
  destruct (Type_ schema); try apply sameValue_ret.
  - apply sameValue_bind; [apply Hrec|]. intros sub.
    match goal with |- context [if negb ?b then _ else _] => destruct b end; cbn [negb].
    + apply sameValue_ret.
    + apply sameValue_bind; [apply sameValue_unit|]. intros _. apply sameValue_ret.
  - destruct (Properties schema) as [props|].
    + apply sameValue_bind; [now apply structFields_sameValue|]. intros typeData.
      apply sameValue_bind; [apply sameValue_unit|]. intros _. apply sameValue_ret.
    + destruct (PatternProperties schema) as [pats|]; [|apply sameValue_ret].
      now apply patternTypes_sameValue.
Qed.

Lemma processSchema_sameValue (s : SchemaProcessor) (h : heap) (fuel : nat) :
  forall schema,
    sameValue (processSchema marshalIndent sink1 s fuel h schema)
              (processSchema marshalIndent sink2 s fuel h schema).
Proof.
  induction fuel as [|fuel IH]; intros schema; cbn [processSchema].
  - intros st1 st2 a1 a2 st1' st2' H. discriminate H.
  - destruct (deref h schema); try (intros st1 st2 a1 a2 st1' st2' H; discriminate H).
    apply processNode_sameValue. exact IH.
Qed.

End SameType.

(** X16. The Go type that [processSchema] returns for a schema depends
    on the schemas only: not on what was emitted or cached before, and
    not on the output stage. *)
Theorem processSchema_type_stable (marshalIndent : heap -> option loc -> string)
    (sink1 sink2 : list (string * string) -> string -> string -> option string)
    (s : SchemaProcessor) (fuel : nat) (h : heap) (schema : option loc)
    (st1 st2 : SynthState) (typeName1 typeName2 : string) :
  fst (processSchema marshalIndent sink1 s fuel h schema st1) = Ok typeName1 ->
  fst (processSchema marshalIndent sink2 s fuel h schema st2) = Ok typeName2 ->
  typeName1 = typeName2.
Proof.
  intros H1 H2.
  destruct (processSchema marshalIndent sink1 s fuel h schema st1) as [r1 st1'] eqn:E1.
  destruct (processSchema marshalIndent sink2 s fuel h schema st2) as [r2 st2'] eqn:E2.
  cbn in H1, H2. subst r1 r2.
  exact (processSchema_sameValue marshalIndent sink1 sink2 s h fuel schema _ _ _ _ _ _ E1 E2).
Qed.

Lemma processSchema_type_stable_witness :
  exists typeName1 typeName2,
    fst (processSchema noMarshal sinkOk (mkProcessor true []) 3 widgetHeap (Some 2)
           initialSynth) = Ok typeName1
    /\ fst (processSchema noMarshal sinkFull (mkProcessor true []) 3 widgetHeap (Some 2)
              (mkSynth (Some {[ "Widget" := true ]}) [])) = Ok typeName2
    /\ typeName1 = typeName2.
Proof.
  exists "*Widget", "*Widget".
  split; [vm_compute; reflexivity|]. split; [vm_compute; reflexivity|].
  apply (processSchema_type_stable noMarshal sinkOk sinkFull (mkProcessor true []) 3
           widgetHeap (Some 2) initialSynth
           (mkSynth (Some {[ "Widget" := true ]}) []));
    vm_compute; reflexivity.
Defined.

(** ** Type synthesizer: the output stage *)

#[local] Instance emittedGrows_preorder : PreOrder emittedGrows.
Proof.
  split.
  - intros st. exists []. now rewrite app_nil_r.
  - intros a b c [m1 H1] [m2 H2]. exists (m1 ++ m2). now rewrite H2, H1, app_assoc.
Qed.

Section OutputStage.
Variable marshalIndent : heap -> option loc -> string.
Variable sink : list (string * string) -> string -> string -> option string.

Lemma emit_emittedGrows (typeName code : string) :
  respects emittedGrows (emit sink typeName code).
Proof.
  intros st r st' H. rewrite (emit_result _ _ _ _ _ _ H). unfold writeGoCode.
  destruct (alreadyProcessed st typeName); cbn [snd emitted]; [reflexivity|].
  now exists [(typeName, code)].
Qed.

(** X17. However [processSchema] ends, the declarations handed to the
    output stage before are still there, in their order and before the
    new ones, and a name that was marked as processed is still marked. *)
Theorem processSchema_only_appends (s : SchemaProcessor) (fuel : nat) (h : heap)
    (schema : option loc) (st : SynthState) :
  emittedGrows st (snd (processSchema marshalIndent sink s fuel h schema st))
  /\ cacheGrows st (snd (processSchema marshalIndent sink s fuel h schema st)).
Proof.
  destruct (processSchema marshalIndent sink s fuel h schema st) as [r st'] eqn:H. split.
  - exact (processSchema_respects marshalIndent sink emittedGrows emit_emittedGrows
             s h fuel schema _ _ _ H).
  - exact (processSchema_respects marshalIndent sink cacheGrows (emit_cacheGrows sink)
             s h fuel schema _ _ _ H).
Qed.

(** X18. A second [writeGoCode] for a type name does nothing and
    returns nil, whatever the code and whatever the output stage said
    the first time: a declaration whose write failed is not retried. *)
Theorem writeGoCode_once (typeName code code' : string) (st : SynthState) :
  writeGoCode sink typeName code' (snd (writeGoCode sink typeName code st))
  = (None, snd (writeGoCode sink typeName code st)).
Proof. apply writeGoCode_seen. apply writeGoCode_marks. Qed.

Lemma errorsFrom_ret {S A} (a : A) : errorsFrom sink (@ret S A a).
Proof. intros st msg st' H. discriminate H. Qed.

Lemma errorsFrom_bind {S A B} (m : M S A) (k : A -> M S B) :
  errorsFrom sink m -> (forall a, errorsFrom sink (k a)) -> errorsFrom sink (bind m k).
Proof.
  intros Hm Hk st msg st' H. unfold bind in H.
  destruct (m st) as [[a|msg'| |] s1] eqn:Hms; try discriminate H.
  - exact (Hk a _ _ _ H).
  - injection H as -> _. exact (Hm _ _ _ Hms).
Qed.

Lemma errorsFrom_emit (typeName code : string) : errorsFrom sink (emit sink typeName code).
Proof.
  intros st msg st' H. unfold emit, writeGoCode in H.
  destruct (alreadyProcessed st typeName); [discriminate H|].
  destruct (sink (emitted st) typeName code) as [err|] eqn:Hs; [|discriminate H].
  injection H as -> _. now exists (emitted st), typeName, code.
Qed.

Lemma structFields_errorsFrom (rec : option loc -> M SynthState string)
    (props : list (string * loc)) (keys : list string) :
  (forall p, errorsFrom sink (rec p)) ->
  forall typeData, errorsFrom sink (structFields rec props keys typeData).
Proof.
  intros Hrec. induction keys as [|k keys IH]; intros typeData; cbn [structFields].
  - apply errorsFrom_ret.
  - apply errorsFrom_bind; [apply Hrec|]. intros sub. apply IH.
Qed.

Lemma patternTypes_errorsFrom (rec : option loc -> M SynthState string)
    (comment : string -> string) (pats : list (string * loc)) (keys : list string) :
  (forall p, errorsFrom sink (rec p)) ->
  forall typeName, errorsFrom sink (patternTypes sink rec comment pats keys typeName).
Proof.
  intros Hrec. induction keys as [|k keys IH]; intros typeName; cbn [patternTypes].
  - apply errorsFrom_ret.
  - apply errorsFrom_bind; [apply Hrec|]. intros sub.
    apply errorsFrom_bind; [|intros t; apply IH].
    destruct (isTitled sub); [|apply errorsFrom_ret].
    apply errorsFrom_bind; [apply errorsFrom_emit|]. intros _. apply errorsFrom_ret.
Qed.

Lemma processNode_errorsFrom (rec : option loc -> M SynthState string)
    (comment : string -> string) (schema : Schema) :
  (forall p, errorsFrom sink (rec p)) -> errorsFrom sink (processNode sink rec comment schema).
Proof.
  intros Hrec. unfold processNode.
  destruct (Type_ schema); try apply errorsFrom_ret.
  - apply errorsFrom_bind; [apply Hrec|]. intros sub.
    match goal with |- context [if negb ?b then _ else _] => destruct b end; cbn [negb].
    + apply errorsFrom_ret.
    + apply errorsFrom_bind; [apply errorsFrom_emit|]. intros _. apply errorsFrom_ret.
  - destruct (Properties schema) as [props|].
    + apply errorsFrom_bind; [now apply structFields_errorsFrom|]. intros typeData.
      apply errorsFrom_bind; [apply errorsFrom_emit|]. intros _. apply errorsFrom_ret.
    + destruct (PatternProperties schema) as [pats|]; [|apply errorsFrom_ret].
      now apply patternTypes_errorsFrom.
Qed.

Lemma processSchema_fromSink (s : SchemaProcessor) (h : heap) (fuel : nat) :
  forall schema, errorsFrom sink (processSchema marshalIndent sink s fuel h schema).
Proof.
  induction fuel as [|fuel IH]; intros schema; cbn [processSchema].
  - intros st msg st' H. discriminate H.
  - destruct (deref h schema) as [node|e| |];
      try (intros st msg st' H; discriminate H).
    apply processNode_errorsFrom. exact IH.
Qed.

(** X19. An error that [processSchema] returns is an error that the
    output stage returned for one of the declarations: the synthesizer
    has no errors of its own. *)
Theorem processSchema_errors (s : SchemaProcessor) (fuel : nat) (h : heap)
    (schema : option loc) (st : SynthState) (msg : string) :
  fst (processSchema marshalIndent sink s fuel h schema st) = Err msg ->
  exists out typeName code, sink out typeName code = Some msg.
Proof.
  intros H.
  destruct (processSchema marshalIndent sink s fuel h schema st) as [r st'] eqn:E.
  cbn in H. subst r. exact (processSchema_fromSink s h fuel schema _ _ _ E).
Qed.

(** X20. An array schema without [items] makes [processSchema] panic:
    the item is processed first and it is the nil pointer. *)
Theorem processSchema_array_without_items (s : SchemaProcessor) (fuel : nat) (h : heap)
    (l : loc) (node : Schema) (st : SynthState) :
  h !! l = Some node ->
  Type_ node = ARRAY ->
  Items node = None ->
  processSchema marshalIndent sink s (S (S fuel)) h (Some l) st = (Panic, st).
Proof.
  intros Hl Hty Hitems. rewrite processSchema_unfold. cbn [deref]. rewrite Hl.
  unfold processNode. rewrite Hty, Hitems. reflexivity.
Qed.

End OutputStage.

Lemma processSchema_errors_witness :
  exists out typeName code, sinkFull out typeName code = Some "disk full".
Proof.
  apply (processSchema_errors noMarshal sinkFull (mkProcessor true []) 3 widgetHeap
           (Some 2) initialSynth "disk full").
  vm_compute. reflexivity.
Defined.

Lemma processSchema_array_without_items_witness :
  processSchema noMarshal sinkOk (mkProcessor true []) 2
    [mkSchema "Names" "" ARRAY "" None None None "" None] (Some 0) initialSynth
  = (Panic, initialSynth).
Proof.
  apply (processSchema_array_without_items noMarshal sinkOk (mkProcessor true []) 0
           [mkSchema "Names" "" ARRAY "" None None None "" None] 0
           (mkSchema "Names" "" ARRAY "" None None None "" None) initialSynth);
    reflexivity.
Defined.

(** ** Comments *)

Lemma sameRun_bind {S A B} (m1 m2 : M S A) (k1 k2 : A -> M S B) :
  sameRun m1 m2 -> (forall a, sameRun (k1 a) (k2 a)) -> sameRun (bind m1 k1) (bind m2 k2).
Proof.
  intros Hm Hk st. unfold bind. rewrite (Hm st).
  destruct (m2 st) as [[a| | |] s1]; try reflexivity. apply Hk.
Qed.

Lemma sameRun_refl {S A} (m : M S A) : sameRun m m.
Proof. intros st. reflexivity. Qed.

Section Comments.
Variable sink : list (string * string) -> string -> string -> option string.

Lemma structFields_sameRun (rec1 rec2 : option loc -> M SynthState string)
    (props : list (string * loc)) (keys : list string) :
  (forall p, sameRun (rec1 p) (rec2 p)) ->
  forall typeData,
    sameRun (structFields rec1 props keys typeData) (structFields rec2 props keys typeData).
Proof.
  intros Hrec. induction keys as [|k keys IH]; intros typeData; cbn [structFields].
  - apply sameRun_refl.
  - apply sameRun_bind; [apply Hrec|]. intros sub. apply IH.
Qed.

Lemma patternTypes_sameRun (rec1 rec2 : option loc -> M SynthState string)
    (comment1 comment2 : string -> string) (pats : list (string * loc)) (keys : list string) :
  (forall p, sameRun (rec1 p) (rec2 p)) ->
  (forall typeName, comment1 typeName = comment2 typeName) ->
  forall typeName,
    sameRun (patternTypes sink rec1 comment1 pats keys typeName)
            (patternTypes sink rec2 comment2 pats keys typeName).
Proof.
  intros Hrec Hc. induction keys as [|k keys IH]; intros typeName; cbn [patternTypes].
  - apply sameRun_refl.
  - apply sameRun_bind; [apply Hrec|]. intros sub.
    apply sameRun_bind; [|intros t; apply IH].
    destruct (isTitled sub); [|apply sameRun_refl].
    rewrite Hc. apply sameRun_refl.
Qed.

Lemma processNode_sameRun (rec1 rec2 : option loc -> M SynthState string)
    (comment1 comment2 : string -> string) (schema : Schema) :
  (forall p, sameRun (rec1 p) (rec2 p)) ->
  (forall typeName, comment1 typeName = comment2 typeName) ->
  sameRun (processNode sink rec1 comment1 schema) (processNode sink rec2 comment2 schema).
Proof.
  intros Hrec Hc. unfold processNode.
  destruct (Type_ schema); try apply sameRun_refl.
  - apply sameRun_bind; [apply Hrec|]. intros sub.
    match goal with |- context [if negb ?b then _ else _] => destruct b end; cbn [negb].
    + apply sameRun_refl.
    + rewrite Hc. apply sameRun_refl.
  - destruct (Properties schema) as [props|].
    + rewrite Hc. apply sameRun_bind; [now apply structFields_sameRun|]. intros typeData.
      apply sameRun_refl.
    + destruct (PatternProperties schema) as [pats|]; [|apply sameRun_refl].
      now apply patternTypes_sameRun.
Qed.

(** X21. With comments disabled, [json.MarshalIndent] has no part in
    what [processSchema] does: the outcome, the cache and every
    declaration are the same whatever it would give. *)
Theorem processSchema_without_comments
    (marshalIndent1 marshalIndent2 : heap -> option loc -> string)
    (s : SchemaProcessor) (h : heap) (fuel : nat) :
  Comment s = false ->
  forall (schema : option loc) (st : SynthState),
    processSchema marshalIndent1 sink s fuel h schema st
    = processSchema marshalIndent2 sink s fuel h schema st.
Proof.
  intros Hc. induction fuel as [|fuel IH]; intros schema st; [reflexivity|].
  cbn [processSchema]. destruct (deref h schema); try reflexivity.
  apply processNode_sameRun; [exact IH|].
  intros typeName. unfold structComment. now rewrite Hc.
Qed.

End Comments.

Lemma processSchema_without_comments_witness :
  processSchema noMarshal sinkOk (mkProcessor false []) 3 widgetHeap (Some 2) initialSynth
  = processSchema (fun _ _ => "{}") sinkOk (mkProcessor false []) 3 widgetHeap (Some 2)
      initialSynth.
Proof.
  apply (processSchema_without_comments sinkOk noMarshal (fun _ _ => "{}")
           (mkProcessor false []) widgetHeap 3).
  reflexivity.
Defined.

(** ** [Process]: every document is parsed before any is synthesized *)

Lemma sameSynth_preorder : PreOrder (fun a b : RunState => snd b = snd a).
Proof.
  split.
  - intros a. reflexivity.
  - intros a b c Hab Hbc. now rewrite Hbc.
Qed.

Lemma parseAll_sameSynth (s : SchemaProcessor) (fuel : nat) (todo : list (string * loc)) :
  respects (fun a b : RunState => snd b = snd a) (parseAll s fuel todo).
Proof.
  pose proof sameSynth_preorder as HR.
  induction todo as [|[key schema] todo IH]; cbn [parseAll]; [rsp_ret|].
  rsp_bind.
  - intros st r st' H. unfold onNames in H.
    destruct (ParseSchema s fuel key (Some schema) (fst st)) as [o ns].
    now injection H as _ <-.
  - intros target. rsp_bind; [exact IH|]. intros targets. rsp_ret.
Qed.

(** X22. When parsing one of the documents returns an error, [Process]
    returns that error and the synthesizer has not run: the cache and
    the declarations handed over are as they were. *)
Theorem Process_parse_error (marshalIndent : heap -> option loc -> string)
    (sink : list (string * string) -> string -> string -> option string)
    (s : SchemaProcessor) (fuel : nat) (st : RunState) (msg : string) :
  fst (parseAll s fuel (schemas s) st) = Err msg ->
  fst (Process marshalIndent sink s fuel st) = Err msg
  /\ snd (snd (Process marshalIndent sink s fuel st)) = snd st.
Proof.
  intros H. unfold Process, bind.
  destruct (parseAll s fuel (schemas s) st) as [r st'] eqn:E. cbn in H. subst r.
  split; [reflexivity|]. exact (parseAll_sameSynth s fuel _ _ _ _ E).
Qed.

Lemma Process_parse_error_witness :
  let h := snd (Load [("b.json", usesWidget "" "a.json#/definitions/Widget")]) in
  let s := mkProcessor false (fst (Load [("b.json", usesWidget "" "a.json#/definitions/Widget")])) in
  fst (Process noMarshal sinkOk s 5 ((h, 0%Z), initialSynth))
  = Err ("Invalid reference file - please make sure the referenced files are in the processing list - "
         +:+ "b.json" +:+ " ? " +:+ "a.json")
  /\ snd (snd (Process noMarshal sinkOk s 5 ((h, 0%Z), initialSynth))) = initialSynth.
Proof.
  intros h s.
  apply (Process_parse_error noMarshal sinkOk s 5 ((h, 0%Z), initialSynth)).
  vm_compute. reflexivity.
Defined.

(** ** [Load]: the keys of the loaded documents *)

Lemma mapAssign_keys {V} (k : string) (v : V) (m : list (string * V)) :
  forall k', In k' (List.map fst (mapAssign k v m)) <-> k' = k \/ In k' (List.map fst m).
Proof.
  induction m as [|[k0 v0] m IH]; intros k'; cbn [mapAssign List.map fst In].
  - intuition.
  - destruct (String.eqb_spec k0 k) as [->|Hne]; cbn [List.map fst In].
    + intuition.
    + rewrite IH. intuition.
Qed.

Lemma mapAssign_NoDup {V} (k : string) (v : V) (m : list (string * V)) :
  NoDup (List.map fst m) -> NoDup (List.map fst (mapAssign k v m)).
Proof.
  induction m as [|[k0 v0] m IH]; intros Hnd; cbn [mapAssign List.map fst] in *.
  - apply NoDup_singleton.
  - apply NoDup_cons in Hnd as [Hk0 Hnd].
    destruct (String.eqb_spec k0 k) as [->|Hne]; cbn [List.map fst].
    + apply NoDup_cons. now split.
    + apply NoDup_cons. split; [|now apply IH].
      rewrite list_elem_of_In, mapAssign_keys. intros [->|Hin]; [now apply Hne|].
      apply Hk0. now apply list_elem_of_In.
Qed.

Lemma mapAssign_lookup {V} (k : string) (v : V) (m : list (string * V)) :
  lookupKey k (mapAssign k v m) = Some v.
Proof.
  induction m as [|[k0 v0] m IH]; cbn [mapAssign lookupKey].
  - now rewrite String.eqb_refl.
  - destruct (String.eqb_spec k0 k) as [->|Hne]; cbn [lookupKey].
    + now rewrite String.eqb_refl.
    + now rewrite (proj2 (String.eqb_neq _ _) Hne).
Qed.

Lemma LoadFrom_keys (files : list (string * Tree)) :
  forall (loaded : list (string * loc)) (h : heap),
    NoDup (List.map fst loaded) ->
    NoDup (List.map fst (fst (LoadFrom files loaded h)))
    /\ forall k, In k (List.map fst (fst (LoadFrom files loaded h)))
                 <-> In k (List.map fst loaded)
                     \/ In k (List.map (fun f => getReferenceName (fst f)) files).
Proof.
  induction files as [|[file data] files IH]; intros loaded h Hnd; cbn [LoadFrom].
  - split; [exact Hnd|]. intros k. cbn. intuition.
  - destruct (alloc (LoadSchema data (getReferenceName file)) h) as [schema h1].
    destruct (IH (mapAssign (getReferenceName file) schema loaded) h1
                 (mapAssign_NoDup _ _ _ Hnd)) as [Hnd' Hin].
    split; [exact Hnd'|]. intros k. rewrite Hin, mapAssign_keys.
    cbn [List.map fst In]. intuition.
Qed.

Lemma LoadFrom_app (files more : list (string * Tree)) :
  forall (loaded : list (string * loc)) (h : heap),
    LoadFrom (files ++ more) loaded h
    = LoadFrom more (fst (LoadFrom files loaded h)) (snd (LoadFrom files loaded h)).
Proof.
  induction files as [|[file data] files IH]; intros loaded h; [reflexivity|].
  cbn [app LoadFrom].
  destruct (alloc (LoadSchema data (getReferenceName file)) h) as [schema h1].
  apply IH.
Qed.

(** X23. After [Load], the keys of the loaded documents are the base
    names of the files, each once: files with the same base name share
    one entry. *)
Theorem Load_keys (files : list (string * Tree)) :
  NoDup (List.map fst (fst (Load files)))
  /\ forall k, In k (List.map fst (fst (Load files)))
               <-> In k (List.map (fun f => getReferenceName (fst f)) files).
Proof.
  destruct (LoadFrom_keys files [] [] NoDup_nil_2) as [Hnd Hin].
  split; [exact Hnd|]. intros k. unfold Load. rewrite Hin. cbn. intuition.
Qed.

(** X24. The entry of a base name is the document of the last file that
    has it: loading one more file makes its key lead to the root of that
    file's document. *)
Theorem Load_last_wins (files : list (string * Tree)) (file : string) (data : Tree) :
  lookupKey (getReferenceName file) (fst (Load (files ++ [(file, data)])))
  = Some (fst (alloc (LoadSchema data (getReferenceName file)) (snd (Load files)))).
Proof.
  unfold Load. rewrite LoadFrom_app. cbn [LoadFrom].
  destruct (alloc (LoadSchema data (getReferenceName file)) (snd (LoadFrom files [] [])))
    as [schema h1].
  cbn [fst]. apply mapAssign_lookup.
Qed.

(** ** [camelCase]: the empty name *)

Lemma capitalizeWords_empty (name : string) : forall atBoundary,
  capitalizeWords atBoundary name = "" <-> hasAlnum name = false.
Proof.
  induction name as [|c name IH]; intros atBoundary; [now split|].
  cbn [capitalizeWords hasAlnum]. destruct (isAlnum c); cbn [orb]; [now split | apply IH].
Qed.

(** X25. [camelCase] gives the empty name exactly for a name without
    any ASCII letter or digit; the type synthesizer takes such an array
    for an unnamed one. *)
Theorem camelCase_empty (name : string) :
  camelCase name = "" <-> hasAlnum name = false.
Proof.
  unfold camelCase. rewrite caseNameOf_words, <- (capitalizeWords_empty name true).
  split.
  - intros H. destruct (string_dec (capitalizeWords true name) "") as [He|Hne]; [exact He|].
    now apply normalizeAcronym_nonempty in Hne.
  - intros ->. reflexivity.
Qed.

(** ** The loader passes, in either order *)

Lemma Name_updateReferencePath (t : Tree) (reference : string) :
  Name (nodeOf (updateReferencePath t reference)) = Name (nodeOf t).
Proof. now destruct t. Qed.

Lemma updateReferencePath_retitled (t : Tree) (title reference : string) :
  updateReferencePath (Node (withTitle (nodeOf t) title)) reference
  = Node (withTitle (nodeOf (updateReferencePath t reference)) title).
Proof. now destruct t. Qed.

(** X26. The two passes of [LoadSchema] do not depend on each other:
    naming the definitions and then qualifying the references gives the
    document that qualifying first and naming then gives. *)
Theorem loader_passes_commute (reference : string) :
  forall t : Tree,
    updateReferencePath (updateDefinitionTitles t) reference
    = updateDefinitionTitles (updateReferencePath t reference).
Proof.
  induction t as [schema Hd _ _ _] using Tree_induction.
  cbn [updateReferencePath updateDefinitionTitles Title ID Type_ Description Definitions
       Properties PatternProperties Ref Items].
  f_equal. f_equal.
  destruct (Definitions schema) as [entries|]; [|reflexivity].
  cbn [mapEntries entriesAll] in *. f_equal. rewrite !List.map_map.
  induction Hd as [|[k v] entries Hv _ IH]; [reflexivity|].
  cbn [List.map fst snd] in *. rewrite IH. f_equal. f_equal.
  rewrite Name_updateReferencePath.
  destruct (String.eqb (Name (nodeOf v)) "").
  - now rewrite updateReferencePath_retitled, Hv.
  - exact Hv.
Qed.
